(** * SwiftDocsAI: the chunking-and-reduction pipeline of [main.py]

    A shallow embedding of [process_file], [combine_chunks],
    [combine_results], [read_files_with_chunking] and [ask_claude_batch]
    (with its inner [invoke_model_with_retry] and [process_in_batches]),
    followed by the properties of the pipeline.

    Python values are modelled as follows.
    - [str] is a sequence of Unicode code points ([list N]); [len] is the
      list length as an unbounded integer; the no-argument [str.split]
      cuts at maximal runs of Python whitespace.
    - The file system is a partial map from paths to decoded text
      ([None]: [open]/[read] raises).  Decoding is done with
      [errors="ignore"], so it never raises, and universal newlines have
      already been translated when the text reaches the program.
    - The Bedrock client, [random.uniform] and [time.sleep] are an
      explicit world: an oracle answers the k-th call of [invoke_model],
      another gives the k-th jitter draw, and every call and sleep is
      appended to a trace.
    - Thread pools ([executor.map]) return their results in submission
      order.  The pool of [read_files_with_chunking] maps a function of
      the file system alone.  The calls in the pool of
      [process_in_batches] share the world: they are run step by step,
      a scheduler oracle saying which thread moves next, so that every
      interleaving of the calls of a batch is covered. *)

From Stdlib Require Import List ZArith NArith QArith Lia Bool Ascii.
From Stdlib Require Import Permutation.
From Stdlib Require String DecimalString.
Import String.StringSyntax.
Delimit Scope string_scope with string.
Import ListNotations.

Local Open Scope Z_scope.

(** ** Python strings *)

Module Py.

Definition char := N.
Definition str := list char.

Definition len {A : Type} (l : list A) : Z := Z.of_nat (length l).

(** A literal of the source, read as code points. *)
Fixpoint py (s : String.string) : str :=
  match s with
  | String.EmptyString => []
  | String.String a s' => N_of_ascii a :: py s'
  end.
Arguments py s%_string.

Definition dquote : str := [34%N].
Definition newline : char := 10%N.

(** [str.isspace] on one code point: the code points that Python treats
    as whitespace (bidirectional class WS, B or S, or category Zs). *)
Definition isspace (c : char) : bool :=
  ((9 <=? c) && (c <=? 13) || (28 <=? c) && (c <=? 32)
   || (c =? 133) || (c =? 160) || (c =? 5760)
   || (8192 <=? c) && (c <=? 8202)
   || (c =? 8232) || (c =? 8233) || (c =? 8239) || (c =? 8287)
   || (c =? 12288))%N.

(** [s.split()]: the maximal whitespace-free runs of [s], in order.
    [word] is the run being read, last character first. *)
Fixpoint split_from (word : str) (s : str) : list str :=
  match s with
  | [] => match word with [] => [] | _ :: _ => [rev_append word []] end
  | c :: s' =>
      if isspace c
      then match word with
           | [] => split_from [] s'
           | _ :: _ => rev_append word [] :: split_from [] s'
           end
      else split_from (c :: word) s'
  end.

Definition split (s : str) : list str := split_from [] s.

(** ["".join(parts)] *)
Definition join (parts : list str) : str := concat parts.

(** [f.readlines()]: the text cut after every newline; the last line
    may lack one. *)
Fixpoint readlines (content : str) : list str :=
  match content with
  | [] => []
  | c :: rest =>
      if (c =? newline)%N then [c] :: readlines rest
      else match readlines rest with
           | [] => [[c]]
           | line :: lines => (c :: line) :: lines
           end
  end.

(** [str(n)] for a non-negative integer. *)
Definition str_of_int (n : Z) : str :=
  py (DecimalString.NilZero.string_of_uint (N.to_uint (Z.to_N n))).

End Py.
Import Py.

(** ** Constants *)

Definition DEFAULT_MAX_CHARS : Z := 400000.
Definition DEFAULT_MAX_WORDS : Z := 90000.
Definition CHUNK_LIMIT : Z := 3.

Definition INSTRUCTION_PROMPT : str :=
  py "
**Instructions for Generating Comprehensive Technical Documentation**

**Objective:** Create a complete and detailed technical documentation for the provided application. The document should serve as a standalone guide for all users, from beginners to experienced developers, ensuring clarity, organization, and thoroughness throughout.  

**Guidelines for Structure and Content:**  

1. **General Requirements:**  
   - **Standalone Sections:** Each section must be self-contained, including all necessary context to make sense independently. Avoid referencing other sections with phrases like "
  ++ dquote ++ py "refer to the section above"
  ++ dquote ++ py " or "
  ++ dquote ++ py "as mentioned earlier."
  ++ dquote ++ py "  
   - **Integration of Context:** Use all available information from the provided context to create exhaustive descriptions for each section.  
   - **Detailed Coverage:** Ensure no detail is omitted. The document should flow logically and provide comprehensive coverage of the application's functionality, architecture, usage, and maintenance.  
   - For every section, integrate all relevant details from the current and previous context to create a standalone and exhaustive description. 

2. **Document Formatting:**  
   - Use **Markdown** syntax for clear formatting.  
   - Include headings, subheadings, bullet points, code blocks, and hyperlinks where appropriate.  
   - Provide code snippets, configuration examples, diagrams, or tables to illustrate concepts.  

3. **Required Sections:**  
   The documentation should follow the structure outlined below:  

   **Title:**  
   `[Project Name] Documentation`  

   **Table of Contents:**  
   List all major sections and subsections with clickable links if applicable.  

   ### 1. Overview  
   - Provide a concise introduction to the project, its purpose, and its key features.  
   - Highlight the problem it solves and its target audience or use cases.  

   ### 2. System Architecture  
   - Describe the high-level architecture, focusing on main components and their interactions.  
   - Include a diagram illustrating the architecture.  

   ### 3. Components  
   - For each major component, describe:  
     - Purpose and core functionality  
     - Technologies used  
     - Interactions with other components  
   - Use diagrams, tables, or charts where helpful.  

   ### 4. Installation & Deployment  
   - Provide step-by-step setup instructions, including:  
     - Prerequisites (e.g., software, hardware)  
     - Environment setup  
     - Deployment commands and scripts  

   ### 5. Configuration  
   - Detail how to configure the system, including:  
     - Environment variables  
     - Configuration files (with examples)  
     - Key settings and their impact  

   ### 6. Usage  
   - Explain how to use the system, including:  
     - API endpoints (if applicable)  
     - Examples of system usage  
     - Instructions for performing common operations  

   ### 7. API Reference  
   - Provide a detailed reference for all available APIs, including:  
     - Endpoint descriptions  
     - Input/output parameters  
     - Example requests and responses  

   ### 8. Security Considerations  
   - Outline security best practices, such as:  
     - Authentication and authorization methods  
     - Data encryption practices  
     - Known vulnerabilities and mitigation strategies  

   ### 9. Monitoring & Logging  
   - Explain how to monitor system performance and access logs, covering:  
     - Key metrics  
     - Tools or dashboards  
     - Log management and analysis  

   ### 10. Troubleshooting  
   - Offer guidance on resolving common issues, including:  
     - Error messages and their meanings  
     - Debugging steps  
     - Links to additional resources or forums  

   ### 11. Development Guide  
   - Provide information for developers working on the project, such as:  
     - Codebase organization and key files  
     - Development environment setup  
     - Testing and debugging procedures  

   ### 12. Maintenance & Operations  
   - Describe ongoing maintenance and operational tasks, including:  
     - Scheduled backups  
     - Regular updates and patches  
     - Monitoring long-term system health  

4. **Examples & Visuals:**  
   - Include **examples** of common scenarios, API calls, and configurations.  
   - Add **visual aids** (e.g., diagrams, charts) to improve understanding.  
   - Ensure examples are realistic and easy to follow.  

5. **Clarity & Accessibility:**  
   - Use simple, precise language and avoid unnecessary jargon.  
   - Make the documentation navigable with proper sectioning and linking.  

The resulting document should be a polished, professional README or technical guide that effectively supports users in deploying, maintaining, and extending the project.
".

Definition INSTRUCTION_CHARS : Z := Eval vm_compute in len INSTRUCTION_PROMPT.
Definition INSTRUCTION_WORDS : Z := Eval vm_compute in len (split INSTRUCTION_PROMPT).

(** The effective budget, [DEFAULT_MAX_* - INSTRUCTION_*]. *)
Definition MAX_CHARS : Z := DEFAULT_MAX_CHARS - INSTRUCTION_CHARS.
Definition MAX_WORDS : Z := DEFAULT_MAX_WORDS - INSTRUCTION_WORDS.

Arguments MAX_CHARS : simpl never.
Arguments MAX_WORDS : simpl never.

(** ** Exceptions, the file system, the log *)

(** A raised Python exception, identified by a tag. *)
Inductive exn : Type := Exception (tag : N).

Inductive result (A : Type) : Type :=
| Ok (a : A)
| Raise (e : exn).
Arguments Ok {A} a.
Arguments Raise {A} e.

Definition path := str.

(** What [open(file_path, "r", encoding="utf-8", errors="ignore")]
    followed by a read gives: the decoded text, or the exception of an
    I/O error. *)
Definition filesystem := path -> result str.

(** The records that [process_file] writes with [logging.info] and
    [logging.error]; the other log lines of the program carry no
    information used below and are left out. *)
Inductive level : Type := INFO | ERROR.

Inductive message : Type :=
| Processing_file (file_path : path)
| File_processed (file_path : path) (total_chunks : Z)
| Error_reading_file (file_path : path) (e : exn).

Definition log := list (level * message).

(** ** The Segmenter: [process_file] *)

Module PF.
Record state : Type := mk
  { chunks : list (str * str);
    current_chunk : list str;
    current_chars : Z;
    current_words : Z }.
End PF.

(** [f"### File: {file_path}\n### Chunk: {n}\n"] *)
Definition chunk_metadata (file_path : path) (n : Z) : str :=
  py "### File: " ++ file_path ++ [newline] ++ py "### Chunk: "
  ++ str_of_int n ++ [newline].

(** One iteration of [for line in content]. *)
Definition process_line (file_path : path) (st : PF.state) (line : str)
  : PF.state :=
  let line_words := split line in
  let line_chars := len line in
  let st :=
    if (PF.current_chars st + line_chars >? DEFAULT_MAX_CHARS - INSTRUCTION_CHARS)
       || (PF.current_words st + len line_words
           >? DEFAULT_MAX_WORDS - INSTRUCTION_WORDS)
    then
      let chunk := join (PF.current_chunk st) in
      let metadata := chunk_metadata file_path (len (PF.chunks st) + 1) in
      PF.mk (PF.chunks st ++ [(metadata, chunk)]) [] 0 0
    else st in
  PF.mk (PF.chunks st)
        (PF.current_chunk st ++ [line])
        (PF.current_chars st + line_chars)
        (PF.current_words st + len line_words).

(** The body of the [try] block once the lines are read. *)
Definition chunk_lines (file_path : path) (content : list str)
  : list (str * str) :=
  let st := fold_left (process_line file_path) content (PF.mk [] [] 0 0) in
  match PF.current_chunk st with
  | [] => PF.chunks st
  | _ :: _ =>
      let chunk := join (PF.current_chunk st) in
      let metadata := chunk_metadata file_path (len (PF.chunks st) + 1) in
      PF.chunks st ++ [(metadata, chunk)]
  end.

Definition process_file (fs : filesystem) (file_path : path)
  : list (str * str) * log :=
  match fs file_path with
  | Ok text =>
      let chunks := chunk_lines file_path (readlines text) in
      (chunks,
       [(INFO, Processing_file file_path);
        (INFO, File_processed file_path (len chunks))])
  | Raise e =>
      ([],
       [(INFO, Processing_file file_path);
        (ERROR, Error_reading_file file_path e)])
  end.

(** ** The Aggregator: [combine_chunks] and [combine_results] *)

Module CC.
Record state : Type := mk
  { combined_chunks : list (list str * list str);
    current_metadata : list str;
    current_chunk : list str;
    current_chars : Z;
    current_words : Z }.
End CC.

(** One iteration of [for metadata, chunk in all_chunks]. *)
Definition combine_chunk (st : CC.state) (unit : str * str) : CC.state :=
  let '(metadata, chunk) := unit in
  let chunk_chars := len chunk in
  let chunk_words := len (split chunk) in
  let st :=
    if (CC.current_chars st + chunk_chars >? DEFAULT_MAX_CHARS - INSTRUCTION_CHARS)
       || (CC.current_words st + chunk_words
           >? DEFAULT_MAX_WORDS - INSTRUCTION_WORDS)
    then
      CC.mk (CC.combined_chunks st
             ++ [(CC.current_metadata st, CC.current_chunk st)]) [] [] 0 0
    else st in
  CC.mk (CC.combined_chunks st)
        (CC.current_metadata st ++ [metadata])
        (CC.current_chunk st ++ [chunk])
        (CC.current_chars st + chunk_chars)
        (CC.current_words st + chunk_words).

Definition combine_chunks (all_chunks : list (str * str))
  : list (list str * list str) :=
  let st := fold_left combine_chunk all_chunks (CC.mk [] [] [] 0 0) in
  match CC.current_chunk st with
  | [] => CC.combined_chunks st
  | _ :: _ =>
      CC.combined_chunks st ++ [(CC.current_metadata st, CC.current_chunk st)]
  end.

Module CR.
Record state : Type := mk
  { combined : list (str * str);
    str_combined : str;
    current_chars : Z;
    current_words : Z }.
End CR.

Definition merge_instruction : str :=
  py "Merge these documents into a consolidated single document.".

(** One iteration of [for result in results]. *)
Definition combine_result (st : CR.state) (result : str) : CR.state :=
  let result_chars := len result in
  let result_words := len (split result) in
  if (CR.current_chars st + result_chars <=? MAX_CHARS)
     && (CR.current_words st + result_words <=? MAX_WORDS)
  then
    CR.mk (CR.combined st)
          (CR.str_combined st ++ result)
          (CR.current_chars st + result_chars)
          (CR.current_words st + result_words)
  else
    CR.mk (CR.combined st ++ [(merge_instruction, CR.str_combined st)])
          result result_chars result_words.

Definition combine_results (results : list str) : list (str * str) :=
  let st := fold_left combine_result results (CR.mk [] [] 0 0) in
  match CR.str_combined st with
  | [] => CR.combined st
  | _ :: _ => CR.combined st ++ [(merge_instruction, CR.str_combined st)]
  end.

(** ** The Pipeline Controller: [read_files_with_chunking] *)

Inductive processing_type : Type := sequential | parallel.

(** The pre-scan [for file_path in file_paths: ... f.read()], which has
    no handler: the first read that raises ends the function. *)
Fixpoint scan_totals (fs : filesystem) (file_paths : list path)
  (total_chars total_words : Z) : result (Z * Z) :=
  match file_paths with
  | [] => Ok (total_chars, total_words)
  | file_path :: rest =>
      match fs file_path with
      | Raise e => Raise e
      | Ok content =>
          scan_totals fs rest (total_chars + len content)
                      (total_words + len (split content))
      end
  end.

Definition select_processing_type (total_chars total_words : Z)
  : processing_type :=
  if (total_chars <=? (DEFAULT_MAX_CHARS - INSTRUCTION_CHARS) * CHUNK_LIMIT)
     && (total_words <=? (DEFAULT_MAX_WORDS - INSTRUCTION_WORDS) * CHUNK_LIMIT)
  then sequential else parallel.

(** [all_chunks.extend(process_file(file_path))] over the files, in
    order; the log records follow the same order. *)
Fixpoint process_files (fs : filesystem) (file_paths : list path)
  : list (str * str) * log :=
  match file_paths with
  | [] => ([], [])
  | file_path :: rest =>
      let '(chunks, lg) := process_file fs file_path in
      let '(all_chunks, lg') := process_files fs rest in
      (chunks ++ all_chunks, lg ++ lg')
  end.

(** [file_paths] is the list built from [os.walk] and the filters.
    [scan] is the file system as the pre-scan reads it and [fs] as
    [process_file] reads it later: two separate reads of every file.
    In parallel mode [executor.map] yields the per-file chunk lists in
    the order of [file_paths], so both branches extend [all_chunks] in
    the same order. *)
Definition read_files_with_chunking (scan fs : filesystem)
  (file_paths : list path)
  : result (list (list str * list str) * processing_type * log) :=
  match scan_totals scan file_paths 0 0 with
  | Raise e => Raise e
  | Ok (total_chars, total_words) =>
      let PROCESSING_TYPE := select_processing_type total_chars total_words in
      let '(all_chunks, lg) :=
        match PROCESSING_TYPE with
        | sequential => process_files fs file_paths
        | parallel =>
            let results := map (process_file fs) file_paths in
            (concat (map fst results), concat (map snd results))
        end in
      Ok (combine_chunks all_chunks, PROCESSING_TYPE, lg)
  end.

(** ** The Model Gateway and the Reduction Driver: [ask_claude_batch] *)

(** The two shapes of value that reach [invoke_model]: the bundles of
    [combine_chunks] carry lists of strings, the merged results of
    [combine_results] and the sequential relay carry strings. *)
Inductive pyval : Type :=
| PyStr (s : str)
| PyList (l : list str).

Inductive event : Type :=
| Invoke (metadata chunk : pyval)
| Sleep (seconds : Q).

(** The world outside the process: how many times [invoke_model] and
    [random.uniform] have been called, and what has happened so far. *)
Record world : Type := mkWorld
  { invocations : nat;
    draws : nat;
    trace : list event }.

Definition BATCH_SIZE : Z := 8.
Definition TIME_WINDOW : Z := 60.

(** [range(n)] *)
Definition range (n : Z) : list Z := map Z.of_nat (seq 0 (Z.to_nat n)).

(** [l[a:b]] for [0 <= a]; the program slices with no other indices. *)
Definition slice {A : Type} (l : list A) (a b : Z) : list A :=
  firstn (Z.to_nat (b - a)) (skipn (Z.to_nat a) l).

(** *** The thread pool

    [with ThreadPoolExecutor() as executor] with
    [list(executor.map(..., batch))]
    submits one call of [invoke_model_with_retry] for every unit of the
    batch, lets worker threads run them side by side, and hands the main
    thread their values in submission order, or the first exception in
    that order; on that exception the calls that no worker has taken up
    yet are cancelled, and leaving the [with] block waits for all the
    others.  The calls share the gateway, the random generator and the
    clock, so that what each of them meets depends on how the threads
    are interleaved.

    A submitted call, and where it stands: not yet taken up by a worker;
    at the head of the loop [for attempt in range(retries)] with the
    attempts that are left; after a failed attempt, before the draw of
    [random.uniform]; after the draw, before [time.sleep]; or done. *)
Inductive thread : Type :=
| Pending (metadata chunk : pyval)
| Calling (metadata chunk : pyval) (attempts : list Z)
| Drawing (metadata chunk : pyval) (attempt : Z) (rest : list Z)
| Sleeping (metadata chunk : pyval) (wait_time : Q) (rest : list Z)
| Finished (r : result str).

(** What happens next in the pool: the thread submitted in position
    [i] makes its next step, or the main thread, having met an
    exception, cancels the calls that are still pending. *)
Inductive choice : Type :=
| Advance (i : nat)
| Cancel.

(** The pool when every unit of the batch has been submitted. *)
Definition submitted (batch : list (pyval * pyval)) : list thread :=
  map (fun unit => Pending (fst unit) (snd unit)) batch.

Definition live (t : thread) : bool :=
  match t with
  | Finished _ => false
  | _ => true
  end.

(** Taken up by a worker and not done yet. *)
Definition running (t : thread) : bool :=
  match t with
  | Pending _ _ | Finished _ => false
  | _ => true
  end.

Definition quiet (pool : list thread) : bool :=
  forallb (fun t => negb (running t)) pool.

Fixpoint first_live (pool : list thread) : option nat :=
  match pool with
  | [] => None
  | t :: rest => if live t then Some O else option_map S (first_live rest)
  end.

Definition is_live (i : nat) (pool : list thread) : bool :=
  match nth_error pool i with
  | Some t => live t
  | None => false
  end.

(** What [list(executor.map(...))] has for the main thread: the values
    of the calls in submission order, or the exception of the first of
    them, in that order, that raised; nothing as long as it waits for a
    call that has not returned. *)
Fixpoint collected (pool : list thread) : option (result (list str)) :=
  match pool with
  | [] => Some (Ok [])
  | Finished (Ok text) :: rest =>
      match collected rest with
      | Some (Ok texts) => Some (Ok (text :: texts))
      | other => other
      end
  | Finished (Raise e) :: _ => Some (Raise e)
  | _ :: _ => None
  end.

(** The main thread has met an exception and no call is under way:
    what is still pending can be cancelled and the pool left. *)
Definition cancellable (pool : list thread) : bool :=
  match collected pool with
  | Some (Raise _) => quiet pool
  | _ => false
  end.

(** The exception that a caller of [invoke_model_with_retry] would
    meet if the function fell off its loop and returned [None]; with
    [retries=10] it never does ([retry_default_returns]). *)
Definition none_returned : exn := Exception 0.

Section Gateway.

(** [bedrock k metadata chunk]: what the call of [invoke_model] number
    [k] (from 0) does, a response text or an exception. *)
Variable bedrock : nat -> pyval -> pyval -> result str.

(** [uniform k]: the value of the draw number [k] of
    [random.uniform(5, 10)], read as a rational number of seconds. *)
Variable uniform : nat -> Q.

(** [str(x)] of a list of strings. *)
Variable str_of_list : list str -> str.

Definition invoke_model (metadata chunk : pyval) (w : world)
  : world * result str :=
  (mkWorld (S (invocations w)) (draws w)
           (trace w ++ [Invoke metadata chunk]),
   bedrock (invocations w) metadata chunk).

Definition random_uniform (w : world) : world * Q :=
  (mkWorld (invocations w) (S (draws w)) (trace w), uniform (draws w)).

Definition time_sleep (seconds : Q) (w : world) : world :=
  mkWorld (invocations w) (draws w) (trace w ++ [Sleep seconds]).

(** [for attempt in range(retries)] of [invoke_model_with_retry];
    [None] when the loop ends without [return] or [raise]. *)
Fixpoint retry_loop (attempts : list Z) (metadata chunk : pyval)
  (retries backoff_factor delay : Z) (w : world)
  : world * option (result str) :=
  match attempts with
  | [] => (w, None)
  | attempt :: rest =>
      let '(w, r) := invoke_model metadata chunk w in
      match r with
      | Ok text => (w, Some (Ok text))
      | Raise e =>
          if attempt <? retries - 1 then
            let '(w, u) := random_uniform w in
            let wait_time :=
              (inject_Z (delay * backoff_factor ^ attempt) + u)%Q in
            let w := time_sleep wait_time w in
            retry_loop rest metadata chunk retries backoff_factor delay w
          else (w, Some (Raise e))
      end
  end.

Definition invoke_model_with_retry_args (metadata chunk : pyval)
  (retries backoff_factor : Z) (w : world) : world * option (result str) :=
  let delay := 30 in
  retry_loop (range retries) metadata chunk retries backoff_factor delay w.

(** The call with the default [retries=10, backoff_factor=2], the only
    one the program makes. *)
Definition invoke_model_with_retry (metadata chunk : pyval) (w : world)
  : world * result str :=
  match invoke_model_with_retry_args metadata chunk 10 2 w with
  | (w, Some r) => (w, r)
  | (w, None) => (w, Raise none_returned)
  end.

(** [schedule w]: what happens next in the thread pool when the world
    is [w].  The scheduler is free to take the threads in any order and
    to hold any of them back, which covers a pool of any number of
    workers; and since a step of a call adds to the calls, to the draws
    or to the trace, no world comes twice in a run, so that a function
    of the world can make any sequence of choices. *)
Variable schedule : world -> choice.

(** The head of the loop of [invoke_model_with_retry] with its default
    [retries=10]: the next attempt. *)
Definition call (metadata chunk : pyval) (attempts : list Z) (w : world)
  : world * thread :=
  match attempts with
  | [] => (w, Finished (Raise none_returned))
  | attempt :: rest =>
      let '(w, r) := invoke_model metadata chunk w in
      match r with
      | Ok text => (w, Finished (Ok text))
      | Raise e =>
          if attempt <? 10 - 1 then (w, Drawing metadata chunk attempt rest)
          else (w, Finished (Raise e))
      end
  end.

(** One step of a thread: its next call of [invoke_model], of
    [random.uniform] or of [time.sleep], with [delay = 30] and the
    default [backoff_factor=2].  A pending call starts with its first
    attempt. *)
Definition advance (t : thread) (w : world) : world * thread :=
  match t with
  | Pending metadata chunk => call metadata chunk (range 10) w
  | Calling metadata chunk attempts => call metadata chunk attempts w
  | Drawing metadata chunk attempt rest =>
      let '(w, u) := random_uniform w in
      let wait_time := (inject_Z (30 * 2 ^ attempt) + u)%Q in
      (w, Sleeping metadata chunk wait_time rest)
  | Sleeping metadata chunk wait_time rest =>
      (time_sleep wait_time w, Calling metadata chunk rest)
  | Finished r => (w, Finished r)
  end.

Fixpoint advance_at (i : nat) (pool : list thread) (w : world)
  : world * list thread :=
  match pool, i with
  | [], _ => (w, [])
  | t :: rest, O => let '(w, t) := advance t w in (w, t :: rest)
  | t :: rest, S i => let '(w, rest) := advance_at i rest w in (w, t :: rest)
  end.

(** The thread that moves next: the one the scheduler names if it has
    something left to do, the first one that has otherwise; none when
    every call is done, or when the scheduler has the main thread
    cancel what is pending and that can be done.  Cancelling changes
    nothing in the world, so it is taken where the pool is left. *)
Definition next (pool : list thread) (w : world) : option nat :=
  match schedule w with
  | Advance i => if is_live i pool then Some i else first_live pool
  | Cancel => if cancellable pool then None else first_live pool
  end.

(** The pool at work until it is left; [None] when [fuel] steps were
    not enough, or if the pool were left with the main thread still
    waiting. *)
Fixpoint run_pool (fuel : nat) (pool : list thread) (w : world)
  : option (world * result (list str)) :=
  match next pool w with
  | None =>
      match collected pool with
      | Some r => Some (w, r)
      | None => None
      end
  | Some i =>
      match fuel with
      | O => None
      | S fuel =>
          let '(w, pool) := advance_at i pool w in
          run_pool fuel pool w
      end
  end.

(** The [with] block of [process_in_batches].  A call takes fewer than
    31 steps, three for each of its ten attempts at most, so the fuel
    is enough ([run_batch_returns]). *)
Definition run_batch (batch : list (pyval * pyval)) (w : world)
  : option (world * result (list str)) :=
  run_pool (31 * length batch) (submitted batch) w.

(** [while batch_start < len(context_chunks)] of [process_in_batches];
    [None] when [fuel] iterations were not enough. *)
Fixpoint batches_loop (fuel : nat) (context_chunks : list (pyval * pyval))
  (batch_size time_window batch_start : Z) (results : list str) (w : world)
  : option (world * result (list str)) :=
  if batch_start <? len context_chunks then
    match fuel with
    | O => None
    | S fuel =>
        let batch_end :=
          Z.min (batch_start + batch_size) (len context_chunks) in
        let batch := slice context_chunks batch_start batch_end in
        match run_batch batch w with
        | None => None
        | Some (w, Raise e) => Some (w, Raise e)
        | Some (w, Ok batch_results) =>
            let results := results ++ batch_results in
            let w :=
              if batch_end <? len context_chunks
              then time_sleep (inject_Z time_window) w else w in
            batches_loop fuel context_chunks batch_size time_window
                         batch_end results w
        end
    end
  else Some (w, Ok results).

(** Every iteration with a positive [batch_size] moves [batch_start]
    forward, so one iteration per chunk is enough fuel
    ([process_in_batches_returns]). *)
Definition process_in_batches (context_chunks : list (pyval * pyval))
  (batch_size time_window : Z) (w : world)
  : option (world * result (list str)) :=
  batches_loop (length context_chunks) context_chunks batch_size time_window
               0 [] w.

Definition as_strs (unit : str * str) : pyval * pyval :=
  (PyStr (fst unit), PyStr (snd unit)).

Definition as_lists (unit : list str * list str) : pyval * pyval :=
  (PyList (fst unit), PyList (snd unit)).

(** [while len(combined_results) != 1] and the final call; [None] when
    [fuel] rounds were not enough. *)
Fixpoint reduce_loop (fuel : nat) (combined_results : list (str * str))
  (w : world) : option (world * result str) :=
  match combined_results with
  | [(metadata, chunk)] =>
      Some (invoke_model_with_retry (PyStr metadata) (PyStr chunk) w)
  | _ =>
      match fuel with
      | O => None
      | S fuel =>
          match process_in_batches (map as_strs combined_results)
                                   BATCH_SIZE TIME_WINDOW w with
          | None => None
          | Some (w, Raise e) => Some (w, Raise e)
          | Some (w, Ok results) =>
              reduce_loop fuel (combine_results results) w
          end
      end
  end.

(** [for metadata, chunk in context_chunks] of the sequential branch. *)
Fixpoint sequential_loop (context_chunks : list (list str * list str))
  (consolidated_context : str) (w : world) : world * result str :=
  match context_chunks with
  | [] => (w, Ok consolidated_context)
  | (metadata, chunk) :: rest =>
      let '(w, r) :=
        invoke_model_with_retry
          (PyStr (py "### Previous Context:" ++ [newline]
                  ++ consolidated_context
                  ++ [newline; newline] ++ py "### Current Context:"
                  ++ [newline] ++ str_of_list metadata))
          (PyStr (str_of_list chunk)) w in
      match r with
      | Ok response_text => sequential_loop rest response_text w
      | Raise e => (w, Raise e)
      end
  end.

(** [fuel] bounds the rounds of the reduction loop; the result is
    [None] when the loop is still running after [fuel] rounds. *)
Definition ask_claude_batch (fuel : nat)
  (context_chunks : list (list str * list str))
  (PROCESSING_TYPE : processing_type) (w : world)
  : option (world * result str) :=
  match PROCESSING_TYPE with
  | parallel =>
      match process_in_batches (map as_lists context_chunks)
                               BATCH_SIZE TIME_WINDOW w with
      | None => None
      | Some (w, Raise e) => Some (w, Raise e)
      | Some (w, Ok results) => reduce_loop fuel (combine_results results) w
      end
  | sequential => Some (sequential_loop context_chunks [] w)
  end.

(** [main]: the text that is written to [output_file], when the run
    gets that far. *)
Definition main (fuel : nat) (scan fs : filesystem) (file_paths : list path)
  (w : world) : option (world * result str) :=
  match read_files_with_chunking scan fs file_paths with
  | Raise e => Some (w, Raise e)
  | Ok (chunks, PROCESSING_TYPE, _) =>
      ask_claude_batch fuel chunks PROCESSING_TYPE w
  end.

End Gateway.

(** * Properties *)

(** ** Lengths and word counts *)

Lemma len_nil {A : Type} : len (@nil A) = 0.
Proof. reflexivity. Qed.

Lemma len_app {A : Type} (a b : list A) : len (a ++ b) = len a + len b.
Proof. unfold len. rewrite length_app. lia. Qed.

Lemma len_nonneg {A : Type} (l : list A) : 0 <= len l.
Proof. unfold len. lia. Qed.

Lemma len_cons {A : Type} (x : A) (l : list A) : len (x :: l) = 1 + len l.
Proof. unfold len. simpl length. lia. Qed.

Lemma len_zero_nil {A : Type} (l : list A) : len l = 0 -> l = [].
Proof. destruct l; [reflexivity | rewrite len_cons; pose proof (len_nonneg l); lia]. Qed.

Lemma budget_values : MAX_CHARS = 395222 /\ MAX_WORDS = 89392.
Proof. split; reflexivity. Qed.

Lemma MAX_CHARS_nonneg : 0 <= MAX_CHARS.
Proof. destruct budget_values as [-> _]. lia. Qed.

Lemma MAX_WORDS_nonneg : 0 <= MAX_WORDS.
Proof. destruct budget_values as [_ ->]. lia. Qed.

(** The number of words of a string, read with a flag that says
    whether a word is being read. *)
Fixpoint nwords (inword : bool) (s : str) : nat :=
  match s with
  | [] => if inword then 1 else 0
  | c :: s' =>
      if isspace c then (if inword then 1 else 0) + nwords false s'
      else nwords true s'
  end.

Definition reading (word : str) : bool :=
  match word with [] => false | _ :: _ => true end.

Lemma split_from_length (s word : str) :
  length (split_from word s) = nwords (reading word) s.
Proof.
  revert word; induction s as [|c s IH]; intros word; simpl.
  - destruct word; reflexivity.
  - destruct (isspace c).
    + destruct word; simpl; rewrite IH; reflexivity.
    + rewrite IH. reflexivity.
Qed.

Lemma words_nwords (s : str) : len (split s) = Z.of_nat (nwords false s).
Proof. unfold len, split. rewrite split_from_length. reflexivity. Qed.

(** Starting inside a word adds one word exactly when the text does
    not continue that word. *)
Definition fresh_start (s : str) : nat :=
  match s with
  | [] => 1
  | c :: _ => if isspace c then 1 else 0
  end.

Lemma nwords_true (s : str) :
  nwords true s = (nwords false s + fresh_start s)%nat.
Proof.
  destruct s as [|c s]; simpl; [reflexivity|].
  destruct (isspace c); lia.
Qed.

Lemma nwords_app_le (a b : str) (inword : bool) :
  (nwords inword (a ++ b) <= nwords inword a + nwords false b)%nat.
Proof.
  revert inword; induction a as [|c a IH]; intros inword; simpl.
  - destruct inword; [rewrite nwords_true; destruct b as [|d b]; simpl;
                      [lia | destruct (isspace d); lia] | lia].
  - destruct (isspace c).
    + specialize (IH false). lia.
    + apply IH.
Qed.

Lemma words_app_le (a b : str) :
  len (split (a ++ b)) <= len (split a) + len (split b).
Proof. rewrite !words_nwords. pose proof (nwords_app_le a b false). lia. Qed.

Lemma words_nil : len (split []) = 0.
Proof. reflexivity. Qed.

(** Sums of sizes over a group of items. *)
Fixpoint total {A : Type} (size : A -> Z) (group : list A) : Z :=
  match group with
  | [] => 0
  | x :: rest => size x + total size rest
  end.

Lemma total_app {A : Type} (size : A -> Z) (a b : list A) :
  total size (a ++ b) = total size a + total size b.
Proof. induction a as [|x a IH]; simpl; lia. Qed.

Lemma total_map {A B : Type} (f : A -> B) (size : B -> Z) (l : list A) :
  total size (map f l) = total (fun x => size (f x)) l.
Proof. induction l as [|x l IH]; simpl; congruence. Qed.

Definition chars_of (s : str) : Z := len s.
Definition words_of (s : str) : Z := len (split s).

Lemma len_join (parts : list str) : len (join parts) = total chars_of parts.
Proof.
  induction parts as [|p parts IH]; simpl; [reflexivity|].
  unfold join in *. rewrite len_app, IH. reflexivity.
Qed.

Lemma words_join_le (parts : list str) :
  len (split (join parts)) <= total words_of parts.
Proof.
  induction parts as [|p parts IH]; simpl; [reflexivity|].
  unfold join in *. pose proof (words_app_le p (concat parts)).
  unfold words_of at 1. lia.
Qed.

(** ** Lines *)

Lemma join_readlines (content : str) : join (readlines content) = content.
Proof.
  unfold join.
  induction content as [|c rest IH]; simpl; [reflexivity|].
  destruct (c =? newline)%N.
  - simpl. rewrite IH. reflexivity.
  - destruct (readlines rest) as [|line lines]; simpl in *;
      rewrite <- IH; reflexivity.
Qed.

Lemma readlines_nonempty (content : str) :
  Forall (fun line => line <> []) (readlines content).
Proof.
  induction content as [|c rest IH]; simpl; [constructor|].
  destruct (c =? newline)%N.
  - constructor; [discriminate | exact IH].
  - destruct (readlines rest) as [|line lines].
    + constructor; [discriminate | constructor].
    + inversion IH; subst. constructor; [discriminate | assumption].
Qed.

Lemma readlines_nil (content : str) : readlines content = [] -> content = [].
Proof.
  intros H. rewrite <- (join_readlines content), H. reflexivity.
Qed.

Lemma newline_isspace : isspace newline = true.
Proof. reflexivity. Qed.

(** Words never straddle two lines: the per-line word counts add up to
    the word count of the whole text. *)
Lemma words_readlines (content : str) :
  total words_of (readlines content) = len (split content).
Proof.
  unfold words_of.
  induction content as [|c rest IH]; [reflexivity|].
  simpl readlines. destruct (c =? newline)%N eqn:E.
  - apply N.eqb_eq in E; subst c. simpl total. rewrite IH.
    rewrite !words_nwords. simpl. lia.
  - pose proof (readlines_nonempty rest) as NE.
    pose proof (join_readlines rest) as J.
    destruct (readlines rest) as [|line lines].
    + simpl in J. subst rest. simpl total. rewrite !words_nwords. simpl.
      destruct (isspace c); simpl; lia.
    + simpl total in *. inversion NE as [|? ? Hline _]; subst.
      rewrite !words_nwords in *. simpl nwords.
      change (join (line :: lines)) with (line ++ join lines) in IH.
      destruct (isspace c); [simpl; lia|].
      rewrite !nwords_true.
      destruct line as [|d line]; [congruence|].
      simpl in *. destruct (isspace d); lia.
Qed.

Lemma chars_readlines (content : str) :
  total chars_of (readlines content) = len content.
Proof. rewrite <- len_join, join_readlines. reflexivity. Qed.

(** ** Greedy packing, as the specification words it

    The Aggregator contract: the units are taken in order; a unit joins
    the open bundle when the bundle's summed character and word counts
    stay within the budget, and starts a new bundle otherwise, so that a
    unit that alone exceeds the budget gets a bundle of its own.  No unit
    is dropped, split or moved. *)

Section Packing.

Context {A : Type}.
Variables chars words : A -> Z.

Definition fits (group : list A) : bool :=
  (total chars group <=? MAX_CHARS) && (total words group <=? MAX_WORDS).

(** The packing of [units] after an open bundle [bundle]. *)
Fixpoint greedy_from (bundle : list A) (units : list A) : list (list A) :=
  match units with
  | [] => [bundle]
  | u :: rest =>
      if fits (bundle ++ [u]) then greedy_from (bundle ++ [u]) rest
      else bundle :: greedy_from [u] rest
  end.

Definition greedy_pack (units : list A) : list (list A) :=
  match units with
  | [] => []
  | u :: rest => greedy_from [u] rest
  end.

(** A bundle is acceptable when it is within the budget or is a single
    unit. *)
Definition acceptable (group : list A) : Prop :=
  fits group = true \/ exists u, group = [u] /\ fits [u] = false.

(** Every bundle but the last was closed because the first unit of the
    next one did not fit. *)
Fixpoint maximal (groups : list (list A)) : Prop :=
  match groups with
  | [] => True
  | g :: rest =>
      match rest with
      | (u :: _) :: _ => fits (g ++ [u]) = false
      | _ => True
      end /\ maximal rest
  end.

Lemma fits_spec (group : list A) :
  fits group = true <->
  total chars group <= MAX_CHARS /\ total words group <= MAX_WORDS.
Proof. unfold fits. rewrite andb_true_iff, !Z.leb_le. tauto. Qed.

Lemma fits_nil : fits [] = true.
Proof.
  apply fits_spec. simpl.
  pose proof MAX_CHARS_nonneg; pose proof MAX_WORDS_nonneg. lia.
Qed.

Lemma fits_false (group : list A) :
  fits group = false <->
  total chars group > MAX_CHARS \/ total words group > MAX_WORDS.
Proof. unfold fits. rewrite andb_false_iff, !Z.leb_gt. lia. Qed.

(** The test of the three loops is the negation of [fits]. *)
Lemma overflow_test (cur : list A) (u : A) :
  (total chars cur + chars u >? MAX_CHARS)
  || (total words cur + words u >? MAX_WORDS)
  = negb (fits (cur ++ [u])).
Proof.
  unfold fits. rewrite !total_app. simpl total.
  rewrite negb_andb, !Z.gtb_ltb, !Z.leb_antisym, !Z.add_0_r, !negb_involutive.
  reflexivity.
Qed.

Lemma total_snoc (size : A -> Z) (cur : list A) (u : A) :
  total size (cur ++ [u]) = total size cur + size u.
Proof. rewrite total_app. simpl. lia. Qed.

Lemma greedy_from_cons (bundle units : list A) :
  exists more tail, greedy_from bundle units = (bundle ++ more) :: tail.
Proof.
  revert bundle; induction units as [|u rest IH]; intros bundle; simpl.
  - exists [], []. rewrite app_nil_r. reflexivity.
  - destruct (fits (bundle ++ [u])).
    + destruct (IH (bundle ++ [u])) as (more & tail & ->).
      exists (u :: more), tail. rewrite <- app_assoc. reflexivity.
    + exists [], (greedy_from [u] rest). rewrite app_nil_r. reflexivity.
Qed.

Lemma greedy_from_not_nil (bundle units : list A) :
  greedy_from bundle units <> [].
Proof. destruct (greedy_from_cons bundle units) as (? & ? & ->). discriminate. Qed.

(** Nothing dropped, split or reordered. *)
Lemma greedy_from_concat (bundle units : list A) :
  concat (greedy_from bundle units) = bundle ++ units.
Proof.
  revert bundle; induction units as [|u rest IH]; intros bundle; simpl.
  - rewrite !app_nil_r. reflexivity.
  - destruct (fits (bundle ++ [u])); simpl; rewrite IH.
    + rewrite <- app_assoc. reflexivity.
    + reflexivity.
Qed.

Lemma greedy_from_acceptable (bundle units : list A) :
  acceptable bundle -> Forall acceptable (greedy_from bundle units).
Proof.
  revert bundle; induction units as [|u rest IH]; intros bundle Hb; simpl.
  - constructor; [exact Hb | constructor].
  - destruct (fits (bundle ++ [u])) eqn:E.
    + apply IH. left; exact E.
    + constructor; [exact Hb|]. apply IH.
      destruct (fits [u]) eqn:Eu; [left; exact Eu | right; eauto].
Qed.

Lemma greedy_from_maximal (bundle units : list A) :
  maximal (greedy_from bundle units).
Proof.
  revert bundle; induction units as [|u rest IH]; intros bundle; simpl.
  - tauto.
  - destruct (fits (bundle ++ [u])) eqn:E; [apply IH|].
    simpl. split; [|apply IH].
    destruct (greedy_from_cons [u] rest) as (more & tail & ->). exact E.
Qed.

Lemma greedy_from_nonempty (bundle units : list A) :
  bundle <> [] -> Forall (fun g => g <> []) (greedy_from bundle units).
Proof.
  revert bundle; induction units as [|u rest IH]; intros bundle Hb; simpl.
  - constructor; [exact Hb | constructor].
  - destruct (fits (bundle ++ [u])).
    + apply IH. destruct bundle; discriminate.
    + constructor; [exact Hb|]. apply IH. discriminate.
Qed.

Lemma greedy_from_length (bundle units : list A) :
  (length (greedy_from bundle units) <= S (length units))%nat.
Proof.
  revert bundle; induction units as [|u rest IH]; intros bundle; simpl.
  - lia.
  - destruct (fits (bundle ++ [u])); simpl.
    + specialize (IH (bundle ++ [u])). lia.
    + specialize (IH [u]). lia.
Qed.

Lemma greedy_from_last (bundle units : list A) :
  units <> [] -> last (greedy_from bundle units) [] <> [].
Proof.
  revert bundle; induction units as [|u rest IH]; intros bundle Hu;
    [congruence|].
  assert (forall b, b <> [] -> last (greedy_from b rest) [] <> []) as Hlast.
  { intros b Hb. destruct rest as [|v rest']; [exact Hb|].
    apply IH. discriminate. }
  simpl. destruct (fits (bundle ++ [u])).
  - apply Hlast. destruct bundle; discriminate.
  - pose proof (greedy_from_not_nil [u] rest).
    destruct (greedy_from [u] rest) as [|g gs] eqn:E; [congruence|].
    change (last (bundle :: g :: gs) []) with (last (g :: gs) []).
    rewrite <- E. apply Hlast. discriminate.
Qed.

(** The loops start from an empty open bundle; this is where they part
    from [greedy_pack]: a first unit that alone exceeds the budget
    closes the empty bundle. *)
Lemma greedy_from_nil (u : A) (rest : list A) :
  greedy_from [] (u :: rest) =
  if fits [u] then greedy_pack (u :: rest) else [] :: greedy_pack (u :: rest).
Proof. simpl. destruct (fits [u]); reflexivity. Qed.

Section Nonnegative.

Hypothesis chars_nonneg : forall u, 0 <= chars u.
Hypothesis words_nonneg : forall u, 0 <= words u.

Lemma total_nonneg (size : A -> Z) (group : list A) :
  (forall u, 0 <= size u) -> 0 <= total size group.
Proof.
  intros H; induction group as [|u g IH]; simpl; [lia|].
  specialize (H u). lia.
Qed.

Lemma fits_prefix (a b : list A) : fits (a ++ b) = true -> fits a = true.
Proof.
  rewrite !fits_spec, !total_app.
  pose proof (total_nonneg chars b chars_nonneg).
  pose proof (total_nonneg words b words_nonneg). lia.
Qed.

Lemma fits_suffix (a b : list A) : fits (a ++ b) = true -> fits b = true.
Proof.
  rewrite !fits_spec, !total_app.
  pose proof (total_nonneg chars a chars_nonneg).
  pose proof (total_nonneg words a words_nonneg). lia.
Qed.

(** Units that fit the budget together stay together. *)
Lemma greedy_from_fits (bundle units : list A) :
  fits (bundle ++ units) = true -> greedy_from bundle units = [bundle ++ units].
Proof.
  revert bundle; induction units as [|u rest IH]; intros bundle H; simpl.
  - rewrite app_nil_r. reflexivity.
  - replace (bundle ++ u :: rest) with ((bundle ++ [u]) ++ rest) in *
      by (rewrite <- app_assoc; reflexivity).
    rewrite (fits_prefix _ _ H). apply IH. exact H.
Qed.

End Nonnegative.

End Packing.

(** ** The Segmenter *)

(** The chunks that [process_file] makes of groups of lines, numbered
    from [n + 1]. *)
Fixpoint numbered (file_path : path) (n : Z) (groups : list (list str))
  : list (str * str) :=
  match groups with
  | [] => []
  | g :: rest =>
      (chunk_metadata file_path (n + 1), join g)
      :: numbered file_path (n + 1) rest
  end.

Lemma numbered_app (file_path : path) (n : Z) (a b : list (list str)) :
  numbered file_path n (a ++ b) =
  numbered file_path n a ++ numbered file_path (n + len a) b.
Proof.
  revert n; induction a as [|g a IH]; intros n; simpl.
  - rewrite len_nil, Z.add_0_r. reflexivity.
  - rewrite IH, len_cons. do 3 f_equal. lia.
Qed.

Lemma numbered_len (file_path : path) (n : Z) (groups : list (list str)) :
  len (numbered file_path n groups) = len groups.
Proof.
  revert n; induction groups as [|g gs IH]; intros n; simpl; [reflexivity|].
  rewrite !len_cons, IH. reflexivity.
Qed.

Lemma numbered_texts (file_path : path) (n : Z) (groups : list (list str)) :
  map snd (numbered file_path n groups) = map join groups.
Proof.
  revert n; induction groups as [|g gs IH]; intros n; simpl; [reflexivity|].
  rewrite IH. reflexivity.
Qed.

Lemma process_line_step (file_path : path) (st : PF.state) (line : str) :
  PF.current_chars st = total chars_of (PF.current_chunk st) ->
  PF.current_words st = total words_of (PF.current_chunk st) ->
  process_line file_path st line =
  if fits chars_of words_of (PF.current_chunk st ++ [line])
  then PF.mk (PF.chunks st) (PF.current_chunk st ++ [line])
             (total chars_of (PF.current_chunk st ++ [line]))
             (total words_of (PF.current_chunk st ++ [line]))
  else PF.mk (PF.chunks st
              ++ [(chunk_metadata file_path (len (PF.chunks st) + 1),
                   join (PF.current_chunk st))])
             [line] (total chars_of [line]) (total words_of [line]).
Proof.
  intros Hc Hw.
  pose proof (overflow_test chars_of words_of (PF.current_chunk st) line) as T.
  unfold process_line.
  change (DEFAULT_MAX_CHARS - INSTRUCTION_CHARS) with MAX_CHARS.
  change (DEFAULT_MAX_WORDS - INSTRUCTION_WORDS) with MAX_WORDS.
  rewrite Hc, Hw.
  change (len line) with (chars_of line).
  change (len (split line)) with (words_of line).
  rewrite T.
  destruct (fits chars_of words_of (PF.current_chunk st ++ [line]));
    simpl negb; cbv iota zeta; simpl.
  - rewrite !total_snoc, Hc, Hw. reflexivity.
  - rewrite !Z.add_0_r. reflexivity.
Qed.

(** The state of the loop of [process_file] after the lines [lines]:
    the closed chunks are the closed bundles of the greedy packing, the
    open chunk is its last bundle, the counters are its sums. *)
Lemma process_lines_state (file_path : path) (lines : list str) (st : PF.state) :
  PF.current_chars st = total chars_of (PF.current_chunk st) ->
  PF.current_words st = total words_of (PF.current_chunk st) ->
  let gs := greedy_from chars_of words_of (PF.current_chunk st) lines in
  fold_left (process_line file_path) lines st =
  PF.mk (PF.chunks st
         ++ numbered file_path (len (PF.chunks st)) (removelast gs))
        (last gs [])
        (total chars_of (last gs []))
        (total words_of (last gs [])).
Proof.
  revert st; induction lines as [|line rest IH]; intros st Hc Hw.
  - destruct st as [chunks cur cc cw]; simpl in *. subst.
    rewrite app_nil_r. reflexivity.
  - cbv zeta. simpl fold_left. simpl greedy_from.
    rewrite process_line_step by assumption.
    destruct (fits chars_of words_of (PF.current_chunk st ++ [line])).
    + rewrite IH by reflexivity. reflexivity.
    + rewrite IH by reflexivity. simpl PF.current_chunk. simpl PF.chunks.
      pose proof (greedy_from_not_nil chars_of words_of [line] rest) as NN.
      destruct (greedy_from chars_of words_of [line] rest) as [|g gs] eqn:G; [congruence|].
      change (removelast (PF.current_chunk st :: g :: gs))
        with (PF.current_chunk st :: removelast (g :: gs)).
      change (last (PF.current_chunk st :: g :: gs) [])
        with (last (g :: gs) []).
      set (closed := removelast (g :: gs)).
      f_equal. rewrite <- app_assoc. f_equal. simpl numbered.
      rewrite len_app, len_cons, len_nil.
      replace (len (PF.chunks st) + (1 + 0)) with (len (PF.chunks st) + 1)
        by lia.
      reflexivity.
Qed.

(** [process_file] cuts the lines as the greedy packing started from
    an empty open chunk does. *)
Lemma chunk_lines_greedy (file_path : path) (line : str) (rest : list str) :
  chunk_lines file_path (line :: rest) =
  numbered file_path 0 (greedy_from chars_of words_of [] (line :: rest)).
Proof.
  unfold chunk_lines.
  pose proof (process_lines_state file_path (line :: rest) (PF.mk [] [] 0 0)
                                  eq_refl eq_refl) as S.
  cbv zeta in S. cbn [PF.current_chunk PF.chunks] in S.
  set (gs := greedy_from chars_of words_of [] (line :: rest)) in *.
  rewrite S. cbn [PF.current_chunk PF.chunks]. clear S.
  assert (last gs [] <> []) as L
    by (apply greedy_from_last; discriminate).
  assert (gs <> []) as NN by apply greedy_from_not_nil.
  assert (numbered file_path 0 gs =
          numbered file_path 0 (removelast gs)
          ++ [(chunk_metadata file_path (len (removelast gs) + 1),
               join (last gs []))]) as G.
  { rewrite (app_removelast_last [] NN) at 1.
    rewrite numbered_app. reflexivity. }
  rewrite G. destruct (last gs []) as [|l ls] eqn:EL; [congruence|].
  simpl app at 1. simpl app at 2. rewrite numbered_len. reflexivity.
Qed.

Lemma chunk_lines_nil (file_path : path) : chunk_lines file_path [] = [].
Proof. reflexivity. Qed.

Lemma chunk_lines_texts (file_path : path) (lines : list str) :
  exists groups,
    map snd (chunk_lines file_path lines) = map join groups
    /\ concat groups = lines
    /\ Forall (acceptable chars_of words_of) groups
    /\ maximal chars_of words_of groups.
Proof.
  destruct lines as [|line rest].
  - exists []. repeat split; constructor.
  - exists (greedy_from chars_of words_of [] (line :: rest)).
    rewrite chunk_lines_greedy, numbered_texts.
    split; [reflexivity|]. split; [apply greedy_from_concat|].
    split; [|apply greedy_from_maximal].
    apply greedy_from_acceptable. left. apply fits_nil.
Qed.

Definition within_budget (text : str) : Prop :=
  len text <= MAX_CHARS /\ len (split text) <= MAX_WORDS.

Definition violates_alone (text : str) : Prop :=
  len text > MAX_CHARS \/ len (split text) > MAX_WORDS.

Lemma acceptable_text (group : list str) :
  acceptable chars_of words_of group ->
  within_budget (join group)
  \/ (exists line, group = [line] /\ join group = line /\ violates_alone line).
Proof.
  intros [F | (line & -> & F)].
  - left. apply fits_spec in F. unfold within_budget.
    rewrite len_join. pose proof (words_join_le group). lia.
  - right. exists line. split; [reflexivity|].
    split; [apply app_nil_r|].
    apply fits_false in F. simpl in F. unfold violates_alone.
    unfold chars_of, words_of in F. lia.
Qed.

(** The lines of a file as [process_file] reads them. *)
Definition lines_of (fs : filesystem) (file_path : path) : list str :=
  match fs file_path with
  | Ok text => readlines text
  | Raise _ => []
  end.

(** C2. Every chunk of [process_file] is the text of a group of
    consecutive lines of the file, and every group is within the
    effective character and word budget unless it is exactly one line
    that alone violates one of the two bounds. *)
Theorem process_file_chunks_within_budget (fs : filesystem) (file_path : path) :
  exists groups : list (list str),
    map snd (fst (process_file fs file_path)) = map join groups
    /\ concat groups = lines_of fs file_path
    /\ Forall (fun group =>
                 within_budget (join group)
                 \/ (exists line, group = [line] /\ violates_alone line))
              groups.
Proof.
  unfold process_file, lines_of.
  destruct (fs file_path) as [text | e]; simpl fst.
  - destruct (chunk_lines_texts file_path (readlines text))
      as (groups & T & C & F & _).
    exists groups. split; [exact T|]. split; [exact C|].
    eapply Forall_impl; [|exact F].
    intros g Hg. destruct (acceptable_text g Hg) as [W | (line & -> & _ & V)].
    + left; exact W.
    + right; exists line; split; [reflexivity | exact V].
  - exists []. repeat split; constructor.
Qed.

Lemma join_map_join (groups : list (list str)) :
  join (map join groups) = join (concat groups).
Proof.
  unfold join. induction groups as [|g gs IH]; simpl; [reflexivity|].
  rewrite concat_app, IH. reflexivity.
Qed.

(** C3. The texts of the chunks of a file, concatenated in order, are
    the text that was read. *)
Theorem process_file_lossless (fs : filesystem) (file_path : path) (text : str) :
  fs file_path = Ok text ->
  join (map snd (fst (process_file fs file_path))) = text.
Proof.
  intros R. unfold process_file. rewrite R. simpl fst.
  destruct (chunk_lines_texts file_path (readlines text))
    as (groups & T & C & _).
  rewrite T, join_map_join, C. apply join_readlines.
Qed.

Definition two_line_file : filesystem :=
  fun _ => Ok (py "alpha beta" ++ [newline] ++ py "gamma").

Lemma process_file_lossless_witness :
  join (map snd (fst (process_file two_line_file (py "notes.txt"))))
  = py "alpha beta" ++ [newline] ++ py "gamma".
Proof. apply (process_file_lossless two_line_file (py "notes.txt")). reflexivity. Defined.

(** A chunk is closed only when the next line would overflow: in the
    groups of lines behind the chunks, every group but the last is
    followed by a line that did not fit with it. *)
Lemma process_file_maximal (fs : filesystem) (file_path : path) :
  exists groups : list (list str),
    map snd (fst (process_file fs file_path)) = map join groups
    /\ concat groups = lines_of fs file_path
    /\ maximal chars_of words_of groups.
Proof.
  unfold process_file, lines_of.
  destruct (fs file_path) as [text | e]; simpl fst.
  - destruct (chunk_lines_texts file_path (readlines text))
      as (groups & T & C & _ & M).
    exists groups. auto.
  - exists []. repeat split; constructor.
Qed.

(** A non-empty file that fits the effective budget is one chunk. *)
Lemma process_file_single_chunk (fs : filesystem) (file_path : path) (text : str) :
  fs file_path = Ok text -> text <> [] -> within_budget text ->
  fst (process_file fs file_path) = [(chunk_metadata file_path 1, text)].
Proof.
  intros R NE [Hc Hw]. unfold process_file. rewrite R. simpl fst.
  destruct (readlines text) as [|line rest] eqn:L.
  - apply readlines_nil in L. congruence.
  - rewrite chunk_lines_greedy.
    rewrite (greedy_from_fits chars_of words_of) with (bundle := []).
    + cbn [numbered app]. rewrite <- L, join_readlines. reflexivity.
    + intros u. apply len_nonneg.
    + intros u. apply len_nonneg.
    + apply fits_spec. simpl app. rewrite <- L.
      rewrite chars_readlines, words_readlines. split; assumption.
Qed.

(** When the first line alone exceeds the budget, the loop closes the
    open chunk while it is still empty: the first chunk has no text and
    the line follows in a later chunk. *)
Lemma chunk_lines_oversize_first (file_path : path) (line : str)
  (rest : list str) :
  violates_alone line ->
  exists others,
    chunk_lines file_path (line :: rest) =
    (chunk_metadata file_path 1, []) :: others
    /\ others <> [].
Proof.
  intros V. rewrite chunk_lines_greedy, greedy_from_nil.
  assert (fits chars_of words_of [line] = false) as F.
  { apply fits_false. simpl. unfold chars_of, words_of, violates_alone in *. lia. }
  rewrite F. simpl numbered.
  eexists; split; [reflexivity|].
  pose proof (greedy_from_not_nil chars_of words_of [line] rest).
  destruct (greedy_from chars_of words_of [line] rest); [congruence | discriminate].
Qed.

Lemma readlines_one_line (text : str) :
  text <> [] -> Forall (fun c => c <> newline) text -> readlines text = [text].
Proof.
  induction text as [|c rest IH]; intros NE F; [congruence|].
  inversion F as [|? ? Hc Hrest]; subst. simpl.
  destruct (N.eqb_spec c newline) as [->|_]; [congruence|].
  destruct rest as [|d rest']; [reflexivity|].
  rewrite IH; [reflexivity | discriminate | exact Hrest].
Qed.

Lemma len_repeat {A : Type} (x : A) (n : nat) : len (repeat x n) = Z.of_nat n.
Proof. unfold len. rewrite repeat_length. reflexivity. Qed.

Lemma nwords_repeat (c : char) (n : nat) :
  isspace c = false -> nwords true (repeat c n) = 1%nat.
Proof.
  intros H; induction n as [|n IH]; simpl; [reflexivity|].
  rewrite H. exact IH.
Qed.

Lemma words_repeat (c : char) (n : nat) :
  isspace c = false -> len (split (repeat c (S n))) = 1.
Proof.
  intros H. rewrite words_nwords. simpl. rewrite H, nwords_repeat by exact H.
  reflexivity.
Qed.

(** A file that is one line of 400000 characters. *)
Definition oversize_line : str := repeat 120%N (N.to_nat 400000).

Lemma oversize_line_violates : violates_alone oversize_line.
Proof.
  left. unfold oversize_line. rewrite len_repeat.
  destruct budget_values as [-> _]. lia.
Qed.

(** C4. On a file whose first line is longer than the effective
    character budget, [process_file] yields an empty first chunk
    followed by the chunk of that line: a chunk that is not the last is
    empty. *)
Theorem process_file_empty_first_chunk :
  fst (process_file (fun _ => Ok oversize_line) (py "big.txt"))
  = [(chunk_metadata (py "big.txt") 1, []);
     (chunk_metadata (py "big.txt") 2, oversize_line)].
Proof.
  unfold process_file. cbn [fst].
  rewrite readlines_one_line.
  - rewrite chunk_lines_greedy, greedy_from_nil.
    assert (fits chars_of words_of [oversize_line] = false) as F.
    { apply fits_false. pose proof oversize_line_violates as V.
      unfold violates_alone in V. cbn [total]. unfold chars_of, words_of. lia. }
    rewrite F. cbn [greedy_pack greedy_from numbered].
    unfold join. cbn [concat]. rewrite app_nil_r. reflexivity.
  - intros E. pose proof oversize_line_violates as [V | V];
      rewrite E in V; [rewrite len_nil in V | rewrite words_nil in V];
      pose proof MAX_CHARS_nonneg; pose proof MAX_WORDS_nonneg; lia.
  - apply Forall_forall. intros c Hc. apply repeat_spec in Hc. subst c.
    discriminate.
Qed.

(** ** The Aggregator *)

(** The sizes that [combine_chunks] reads off a [(metadata, chunk)]
    pair. *)
Definition unit_chars (unit : str * str) : Z := len (snd unit).
Definition unit_words (unit : str * str) : Z := len (split (snd unit)).

(** The bundle that [combine_chunks] makes of a group of units, and
    the one that [combine_results] makes of a group of results. *)
Definition bundle_of (group : list (str * str)) : list str * list str :=
  (map fst group, map snd group).

Definition merged (group : list str) : str * str :=
  (merge_instruction, join group).

Lemma combine_chunk_step (st : CC.state) (cur : list (str * str))
  (unit : str * str) :
  CC.current_metadata st = map fst cur ->
  CC.current_chunk st = map snd cur ->
  CC.current_chars st = total unit_chars cur ->
  CC.current_words st = total unit_words cur ->
  combine_chunk st unit =
  if fits unit_chars unit_words (cur ++ [unit])
  then CC.mk (CC.combined_chunks st)
             (map fst (cur ++ [unit])) (map snd (cur ++ [unit]))
             (total unit_chars (cur ++ [unit]))
             (total unit_words (cur ++ [unit]))
  else CC.mk (CC.combined_chunks st ++ [bundle_of cur])
             (map fst [unit]) (map snd [unit])
             (total unit_chars [unit]) (total unit_words [unit]).
Proof.
  intros Hm Hk Hc Hw.
  pose proof (overflow_test unit_chars unit_words cur unit) as T.
  unfold combine_chunk. destruct unit as [metadata chunk].
  change (DEFAULT_MAX_CHARS - INSTRUCTION_CHARS) with MAX_CHARS.
  change (DEFAULT_MAX_WORDS - INSTRUCTION_WORDS) with MAX_WORDS.
  rewrite Hc, Hw.
  change (len chunk) with (unit_chars (metadata, chunk)).
  change (len (split chunk)) with (unit_words (metadata, chunk)).
  rewrite T.
  destruct (fits unit_chars unit_words (cur ++ [(metadata, chunk)]));
    simpl negb; cbv iota zeta; cbn [CC.combined_chunks CC.current_metadata
      CC.current_chunk CC.current_chars CC.current_words].
  - rewrite !total_snoc, !map_app, Hm, Hk, Hc, Hw. reflexivity.
  - unfold bundle_of. rewrite Hm, Hk. cbn [total map app fst snd].
    rewrite !Z.add_0_r. reflexivity.
Qed.

Lemma combine_chunks_state (units : list (str * str)) (st : CC.state)
  (cur : list (str * str)) :
  CC.current_metadata st = map fst cur ->
  CC.current_chunk st = map snd cur ->
  CC.current_chars st = total unit_chars cur ->
  CC.current_words st = total unit_words cur ->
  let gs := greedy_from unit_chars unit_words cur units in
  fold_left combine_chunk units st =
  CC.mk (CC.combined_chunks st ++ map bundle_of (removelast gs))
        (map fst (last gs [])) (map snd (last gs []))
        (total unit_chars (last gs [])) (total unit_words (last gs [])).
Proof.
  revert st cur; induction units as [|unit rest IH]; intros st cur Hm Hk Hc Hw.
  - destruct st as [combined md ck cc cw]. cbn in *. subst.
    rewrite app_nil_r. reflexivity.
  - cbv zeta. cbn [fold_left greedy_from].
    rewrite (combine_chunk_step st cur unit) by assumption.
    destruct (fits unit_chars unit_words (cur ++ [unit])).
    + rewrite (IH _ (cur ++ [unit])) by reflexivity. reflexivity.
    + rewrite (IH _ [unit]) by reflexivity. cbn [CC.combined_chunks].
      pose proof (greedy_from_not_nil unit_chars unit_words [unit] rest) as NN.
      destruct (greedy_from unit_chars unit_words [unit] rest) as [|g gs] eqn:G;
        [congruence|].
      change (removelast (cur :: g :: gs)) with (cur :: removelast (g :: gs)).
      change (last (cur :: g :: gs) []) with (last (g :: gs) []).
      rewrite <- app_assoc. reflexivity.
Qed.

(** [combine_chunks] bundles the units as the greedy packing started
    from an empty open bundle does. *)
Lemma combine_chunks_greedy (unit : str * str) (rest : list (str * str)) :
  combine_chunks (unit :: rest) =
  map bundle_of (greedy_from unit_chars unit_words [] (unit :: rest)).
Proof.
  unfold combine_chunks.
  pose proof (combine_chunks_state (unit :: rest) (CC.mk [] [] [] 0 0) []
                eq_refl eq_refl eq_refl eq_refl) as S.
  cbv zeta in S. cbn [CC.combined_chunks] in S.
  set (gs := greedy_from unit_chars unit_words [] (unit :: rest)) in *.
  rewrite S. cbn [CC.combined_chunks CC.current_chunk CC.current_metadata].
  clear S.
  assert (last gs [] <> []) as L by (apply greedy_from_last; discriminate).
  assert (gs <> []) as NN by apply greedy_from_not_nil.
  assert (map bundle_of gs =
          map bundle_of (removelast gs) ++ [bundle_of (last gs [])]) as G.
  { rewrite (app_removelast_last [] NN) at 1. apply map_app. }
  rewrite G. destruct (last gs []) as [|l ls] eqn:EL; [congruence|].
  reflexivity.
Qed.

Lemma combine_chunks_nil : combine_chunks [] = [].
Proof. reflexivity. Qed.

Lemma combine_result_step (st : CR.state) (cur : list str) (result : str) :
  CR.str_combined st = join cur ->
  CR.current_chars st = total chars_of cur ->
  CR.current_words st = total words_of cur ->
  combine_result st result =
  if fits chars_of words_of (cur ++ [result])
  then CR.mk (CR.combined st) (join (cur ++ [result]))
             (total chars_of (cur ++ [result]))
             (total words_of (cur ++ [result]))
  else CR.mk (CR.combined st ++ [merged cur]) (join [result])
             (total chars_of [result]) (total words_of [result]).
Proof.
  intros Hs Hc Hw. unfold combine_result, fits.
  rewrite !total_snoc, Hc, Hw.
  change (len result) with (chars_of result).
  change (len (split result)) with (words_of result).
  destruct ((total chars_of cur + chars_of result <=? MAX_CHARS)
            && (total words_of cur + words_of result <=? MAX_WORDS)).
  - rewrite Hs. unfold join. rewrite concat_app. cbn [concat].
    rewrite app_nil_r. reflexivity.
  - unfold merged. rewrite Hs. unfold join. cbn [concat total].
    rewrite app_nil_r, !Z.add_0_r. reflexivity.
Qed.

Lemma combine_results_state (results : list str) (st : CR.state)
  (cur : list str) :
  CR.str_combined st = join cur ->
  CR.current_chars st = total chars_of cur ->
  CR.current_words st = total words_of cur ->
  let gs := greedy_from chars_of words_of cur results in
  fold_left combine_result results st =
  CR.mk (CR.combined st ++ map merged (removelast gs))
        (join (last gs []))
        (total chars_of (last gs [])) (total words_of (last gs [])).
Proof.
  revert st cur; induction results as [|result rest IH]; intros st cur Hs Hc Hw.
  - destruct st as [combined s cc cw]. cbn in *. subst.
    rewrite app_nil_r. reflexivity.
  - cbv zeta. cbn [fold_left greedy_from].
    rewrite (combine_result_step st cur result) by assumption.
    destruct (fits chars_of words_of (cur ++ [result])).
    + rewrite (IH _ (cur ++ [result])) by reflexivity. reflexivity.
    + rewrite (IH _ [result]) by reflexivity. cbn [CR.combined].
      pose proof (greedy_from_not_nil chars_of words_of [result] rest) as NN.
      destruct (greedy_from chars_of words_of [result] rest) as [|g gs] eqn:G;
        [congruence|].
      change (removelast (cur :: g :: gs)) with (cur :: removelast (g :: gs)).
      change (last (cur :: g :: gs) []) with (last (g :: gs) []).
      rewrite <- app_assoc. reflexivity.
Qed.

(** The bundles that [combine_results] emits out of a packing: all of
    them, but for a last bundle whose merged text is empty. *)
Definition emitted (groups : list (list str)) : list (list str) :=
  match join (last groups []) with
  | [] => removelast groups
  | _ :: _ => groups
  end.

Lemma combine_results_greedy (results : list str) :
  combine_results results =
  map merged (emitted (greedy_from chars_of words_of [] results)).
Proof.
  unfold combine_results, emitted.
  pose proof (combine_results_state results (CR.mk [] [] 0 0) []
                eq_refl eq_refl eq_refl) as S.
  cbv zeta in S. cbn [CR.combined] in S.
  set (gs := greedy_from chars_of words_of [] results) in *.
  rewrite S. cbn [CR.combined CR.str_combined]. clear S.
  assert (gs <> []) as NN by apply greedy_from_not_nil.
  assert (map merged gs =
          map merged (removelast gs) ++ [merged (last gs [])]) as G.
  { rewrite (app_removelast_last [] NN) at 1. apply map_app. }
  destruct (join (last gs [])) as [|c s] eqn:EL; [reflexivity|].
  rewrite G. unfold merged at 3. rewrite EL. reflexivity.
Qed.

Lemma join_nil_repeat (parts : list str) :
  join parts = [] -> parts = repeat [] (length parts).
Proof.
  unfold join. induction parts as [|p parts IH]; intros H; [reflexivity|].
  simpl in H. apply app_eq_nil in H as [-> H]. simpl. f_equal. exact (IH H).
Qed.

Lemma concat_bundles (groups : list (list (str * str))) :
  concat (map fst (map bundle_of groups)) = map fst (concat groups)
  /\ concat (map snd (map bundle_of groups)) = map snd (concat groups).
Proof.
  induction groups as [|g gs [IHf IHs]]; [split; reflexivity|].
  simpl. rewrite !map_app, IHf, IHs. split; reflexivity.
Qed.

Lemma join_merged (groups : list (list str)) :
  join (map snd (map merged groups)) = join (concat groups).
Proof.
  rewrite map_map. cbn [merged snd]. apply join_map_join.
Qed.

Lemma emitted_spec (groups : list (list str)) :
  groups <> [] ->
  exists k, concat (emitted groups) ++ repeat [] k = concat groups
            /\ (emitted groups = groups
                \/ groups = emitted groups ++ [repeat [] k]).
Proof.
  intros NN. unfold emitted.
  destruct (join (last groups [])) as [|c s] eqn:E.
  - exists (length (last groups [])).
    apply join_nil_repeat in E.
    pose proof (app_removelast_last [] NN) as H.
    set (l := last groups []) in *. set (r := removelast groups) in *.
    rewrite <- E. split; [|right; exact H].
    rewrite H, concat_app. cbn [concat]. rewrite app_nil_r. reflexivity.
  - exists 0%nat. cbn [repeat]. rewrite app_nil_r. auto.
Qed.

Lemma Forall_emitted (P : list str -> Prop) (groups : list (list str)) :
  Forall P groups -> Forall P (emitted groups).
Proof.
  intros F. unfold emitted.
  destruct (join (last groups [])); [|exact F].
  destruct groups as [|g gs]; [constructor|].
  rewrite (app_removelast_last [] (l := g :: gs)) in F by discriminate.
  apply Forall_app in F. tauto.
Qed.

Lemma join_repeat_nil (k : nat) : join (repeat (@nil char) k) = [].
Proof. unfold join. induction k as [|k IH]; [reflexivity | exact IH]. Qed.

(** The merged texts, put end to end, are the results put end to end. *)
Lemma combine_results_join (results : list str) :
  join (map snd (combine_results results)) = join results.
Proof.
  set (gs := greedy_from chars_of words_of [] results).
  assert (concat gs = results) as C by apply greedy_from_concat.
  assert (gs <> []) as NN by apply greedy_from_not_nil.
  destruct (emitted_spec gs NN) as (k & E & _).
  rewrite combine_results_greedy. fold gs.
  rewrite join_merged. unfold join. rewrite <- C, <- E, concat_app.
  change (concat (repeat [] k)) with (join (repeat (@nil char) k)).
  rewrite join_repeat_nil, app_nil_r. reflexivity.
Qed.

(** C5. Both forms of the Aggregator cut the input, in order, into
    groups of consecutive units and emit one bundle per group; every
    group has summed character and word counts within the effective
    budget unless it is a single unit that alone exceeds it; the
    contents of the bundles, concatenated in order, are the contents of
    the input in order.  [combine_chunks] keeps every unit;
    [combine_results] omits only results with no text that end the
    input. *)
Theorem aggregator_within_budget_in_order :
  (forall all_chunks : list (str * str),
     exists groups : list (list (str * str)),
       combine_chunks all_chunks = map bundle_of groups
       /\ concat groups = all_chunks
       /\ concat (map fst (combine_chunks all_chunks)) = map fst all_chunks
       /\ concat (map snd (combine_chunks all_chunks)) = map snd all_chunks
       /\ Forall (acceptable unit_chars unit_words) groups)
  /\
  (forall results : list str,
     exists (groups : list (list str)) (k : nat),
       combine_results results = map merged groups
       /\ concat groups ++ repeat [] k = results
       /\ join (map snd (combine_results results)) = join results
       /\ Forall (acceptable chars_of words_of) groups).
Proof.
  split.
  - intros [|unit rest].
    + exists []. repeat split; constructor.
    + set (gs := greedy_from unit_chars unit_words [] (unit :: rest)).
      assert (concat gs = unit :: rest) as C by apply greedy_from_concat.
      exists gs. rewrite combine_chunks_greedy. fold gs.
      destruct (concat_bundles gs) as [Cf Cs]. rewrite Cf, Cs, C.
      repeat split.
      apply greedy_from_acceptable. left. apply fits_nil.
  - intros results.
    set (gs := greedy_from chars_of words_of [] results).
    assert (concat gs = results) as C by apply greedy_from_concat.
    assert (gs <> []) as NN by apply greedy_from_not_nil.
    destruct (emitted_spec gs NN) as (k & E & _).
    exists (emitted gs), k. rewrite combine_results_greedy. fold gs.
    split; [reflexivity|]. split; [congruence|]. split.
    + subst gs. rewrite <- combine_results_greedy. apply combine_results_join.
    + apply Forall_emitted, greedy_from_acceptable. left. apply fits_nil.
Qed.

(** ** The Aggregator against greedy packing *)

(** The first unit fits the budget by itself. *)
Definition first_fits {A : Type} (chars words : A -> Z) (units : list A)
  : Prop :=
  match units with
  | [] => True
  | u :: _ => fits chars words [u] = true
  end.

(** C6, as stated, fails: of one result with no text the greedy
    packing makes one bundle and [combine_results] none. *)
Lemma combine_results_not_greedy_count :
  length (combine_results [[]])
  <> length (greedy_pack chars_of words_of [[]]).
Proof. vm_compute. discriminate. Qed.

(** The other departure: a first unit that alone exceeds the budget
    is preceded by an empty bundle. *)
Lemma combine_chunks_oversize_first (unit : str * str)
  (rest : list (str * str)) :
  fits unit_chars unit_words [unit] = false ->
  combine_chunks (unit :: rest) =
  ([], []) :: map bundle_of (greedy_pack unit_chars unit_words (unit :: rest)).
Proof.
  intros F. rewrite combine_chunks_greedy, greedy_from_nil, F. reflexivity.
Qed.

Lemma combine_chunks_greedy_pack (all_chunks : list (str * str)) :
  first_fits unit_chars unit_words all_chunks ->
  combine_chunks all_chunks =
  map bundle_of (greedy_pack unit_chars unit_words all_chunks).
Proof.
  destruct all_chunks as [|unit rest]; intros F; [reflexivity|].
  rewrite combine_chunks_greedy, greedy_from_nil.
  cbn [first_fits] in F. rewrite F. reflexivity.
Qed.

Lemma combine_results_greedy_pack (results : list str) :
  first_fits chars_of words_of results ->
  combine_results results =
  map merged (emitted (greedy_pack chars_of words_of results)).
Proof.
  destruct results as [|result rest]; intros F; [reflexivity|].
  rewrite combine_results_greedy, greedy_from_nil.
  cbn [first_fits] in F. rewrite F. reflexivity.
Qed.

Lemma greedy_from_step_fits {A : Type} (chars words : A -> Z)
  (bundle : list A) (u : A) (rest : list A) :
  fits chars words (bundle ++ [u]) = true ->
  greedy_from chars words bundle (u :: rest) =
  greedy_from chars words (bundle ++ [u]) rest.
Proof. intros F. simpl. rewrite F. reflexivity. Qed.

Lemma greedy_from_step_close {A : Type} (chars words : A -> Z)
  (bundle : list A) (u : A) (rest : list A) :
  fits chars words (bundle ++ [u]) = false ->
  greedy_from chars words bundle (u :: rest) =
  bundle :: greedy_from chars words [u] rest.
Proof. intros F. simpl. rewrite F. reflexivity. Qed.

Ltac settle_fits :=
  cbn [app total]; unfold chars_of, words_of, unit_chars, unit_words;
  cbn [fst snd]; lia.

Ltac pack_step :=
  first
    [ rewrite greedy_from_step_fits by (apply fits_spec; settle_fits)
    | rewrite greedy_from_step_close by (apply fits_false; settle_fits) ];
  cbn [app].

(** Ten results of one third of the budget each go three to a bundle:
    four bundles. *)
Lemma combine_results_ten_thirds (results : list str) :
  length results = 10%nat ->
  Forall (fun r => len r = MAX_CHARS / 3 /\ len (split r) <= MAX_WORDS / 3)
         results ->
  length (combine_results results) = 4%nat.
Proof.
  intros L F.
  destruct results
    as [|r1 [|r2 [|r3 [|r4 [|r5 [|r6 [|r7 [|r8 [|r9 [|r10 [|]]]]]]]]]]];
    try discriminate L. clear L.
  repeat match goal with
         | H : Forall _ (_ :: _) |- _ =>
             let a := fresh "Hr" in
             let b := fresh "F" in
             inversion H as [|? ? a b]; subst; clear H; destruct a
         end.
  destruct budget_values as [HC HW]. rewrite HC, HW in *.
  change (395222 / 3) with 131740 in *. change (89392 / 3) with 29797 in *.
  rewrite combine_results_greedy.
  do 10 pack_step. cbn [greedy_from].
  unfold emitted. cbn [last]. unfold join. cbn [concat].
  destruct r10 as [|c r10]; [rewrite len_nil in *; lia|].
  reflexivity.
Qed.

(** *** Greedy packing uses the fewest bundles *)

Section Fewest.

Context {A : Type}.
Variables chars words : A -> Z.
Hypothesis chars_nonneg : forall u, 0 <= chars u.
Hypothesis words_nonneg : forall u, 0 <= words u.

(** Units that fit with the open bundle are taken into it. *)
Lemma greedy_from_absorb (bundle more rest : list A) :
  fits chars words (bundle ++ more) = true ->
  greedy_from chars words bundle (more ++ rest) = greedy_from chars words (bundle ++ more) rest.
Proof.
  revert bundle; induction more as [|u more IH]; intros bundle F.
  - rewrite app_nil_r. reflexivity.
  - replace (bundle ++ u :: more) with ((bundle ++ [u]) ++ more) in *
      by (rewrite <- app_assoc; reflexivity).
    cbn [app greedy_from].
    rewrite (fits_prefix chars words chars_nonneg words_nonneg _ _ F).
    apply IH. exact F.
Qed.

(** The end of an acceptable group, taken as the open bundle, takes in
    what is left of the group. *)
Lemma greedy_from_absorb_tail (before : list A) (u : A) (after rest : list A) :
  acceptable chars words (before ++ u :: after) ->
  greedy_from chars words [u] (after ++ rest) = greedy_from chars words (u :: after) rest.
Proof.
  intros [F | (x & E & _)].
  - apply (greedy_from_absorb [u]).
    apply (fits_suffix chars words chars_nonneg words_nonneg before). exact F.
  - destruct before as [|b before].
    + injection E as _ ->. reflexivity.
    + injection E as _ E. destruct before; discriminate E.
Qed.

(** However the units that remain are cut into acceptable groups, the
    greedy packing needs at most one bundle more than there are groups:
    the open one. *)
Lemma greedy_from_stays_ahead (groups : list (list A)) :
  Forall (acceptable chars words) groups ->
  forall bundle,
    (length (greedy_from chars words bundle (concat groups)) <= S (length groups))%nat.
Proof.
  induction groups as [|group groups IH]; intros F bundle.
  - simpl. lia.
  - inversion F as [|? ? Hg Hgs]; subst. specialize (IH Hgs).
    cbn [concat length].
    assert (forall after before bundle,
               before ++ after = group ->
               (length (greedy_from chars words bundle (after ++ concat groups))
                <= S (S (length groups)))%nat) as Walk.
    { induction after as [|u after IHa]; intros before b E.
      - cbn [app]. specialize (IH b). lia.
      - cbn [app greedy_from]. destruct (fits chars words (b ++ [u])).
        + apply (IHa (before ++ [u])). rewrite <- app_assoc. exact E.
        + cbn [length]. rewrite <- E in Hg.
          rewrite (greedy_from_absorb_tail before u after _ Hg).
          specialize (IH (u :: after)). lia. }
    apply (Walk group [] bundle). reflexivity.
Qed.

(** No order-preserving cut of the units into acceptable groups has
    fewer groups than the greedy packing. *)
Lemma greedy_pack_fewest (groups : list (list A)) :
  Forall (acceptable chars words) groups ->
  (length (greedy_pack chars words (concat groups)) <= length groups)%nat.
Proof.
  induction groups as [|group groups IH]; intros F; [simpl; lia|].
  inversion F as [|? ? Hg Hgs]; subst.
  destruct group as [|u after].
  - cbn [concat app length]. specialize (IH Hgs). lia.
  - cbn [concat app greedy_pack length].
    rewrite (greedy_from_absorb_tail [] u after _ Hg).
    pose proof (greedy_from_stays_ahead groups Hgs (u :: after)). lia.
Qed.

End Fewest.

(** Ten results of 131740 characters, one third of the character
    budget rounded down. *)
Definition third_of_budget : str := repeat 120%N (N.to_nat 131740).

Definition ten_thirds : list str :=
  [third_of_budget; third_of_budget; third_of_budget; third_of_budget;
   third_of_budget; third_of_budget; third_of_budget; third_of_budget;
   third_of_budget; third_of_budget].

(** C6, amended. When the first unit fits the budget, [combine_chunks]
    emits exactly the bundles of the greedy left-to-right packing, and
    [combine_results] the merged texts of the same bundles, but for a
    last bundle whose merged text is empty; no order-preserving cut of
    the units into bundles that are within the budget or hold a single
    unit has fewer bundles than the greedy packing; and ten results of
    one third of the effective budget each give exactly four bundles. *)
Theorem aggregator_greedy_when_first_fits :
  (forall all_chunks : list (str * str),
     first_fits unit_chars unit_words all_chunks ->
     combine_chunks all_chunks =
     map bundle_of (greedy_pack unit_chars unit_words all_chunks))
  /\ (forall results : list str,
        first_fits chars_of words_of results ->
        combine_results results =
        map merged (emitted (greedy_pack chars_of words_of results)))
  /\ (forall groups : list (list (str * str)),
        Forall (acceptable unit_chars unit_words) groups ->
        (length (greedy_pack unit_chars unit_words (concat groups))
         <= length groups)%nat)
  /\ (forall groups : list (list str),
        Forall (acceptable chars_of words_of) groups ->
        (length (greedy_pack chars_of words_of (concat groups))
         <= length groups)%nat)
  /\ (forall results : list str,
        length results = 10%nat ->
        Forall (fun r => len r = MAX_CHARS / 3
                         /\ len (split r) <= MAX_WORDS / 3) results ->
        length (combine_results results) = 4%nat).
Proof.
  split; [exact combine_chunks_greedy_pack|].
  split; [exact combine_results_greedy_pack|].
  split; [|split].
  - apply greedy_pack_fewest; intros u; apply len_nonneg.
  - apply greedy_pack_fewest; intros u; apply len_nonneg.
  - exact combine_results_ten_thirds.
Qed.

Lemma aggregator_greedy_when_first_fits_witness :
  combine_results [py "ab"; py "cd"] =
  map merged (emitted (greedy_pack chars_of words_of [py "ab"; py "cd"]))
  /\ length (combine_results ten_thirds) = 4%nat.
Proof.
  destruct aggregator_greedy_when_first_fits as (_ & R & _ & _ & T).
  split.
  - apply R. reflexivity.
  - apply T; [reflexivity|]. unfold ten_thirds.
    repeat (apply Forall_cons;
            [split; [vm_compute; reflexivity | vm_compute; discriminate]|]).
    apply Forall_nil.
Defined.

(** ** The Pipeline Controller *)

Lemma scan_totals_sum (scan : filesystem) (file_paths : list path)
  (contents : list str) (total_chars total_words : Z) :
  Forall2 (fun p c => scan p = Ok c) file_paths contents ->
  scan_totals scan file_paths total_chars total_words =
  Ok (total_chars + total chars_of contents,
      total_words + total words_of contents).
Proof.
  intros F; revert total_chars total_words.
  induction F as [|p c ps cs Hp _ IH]; intros tc tw; simpl.
  - rewrite !Z.add_0_r. reflexivity.
  - rewrite Hp, IH. unfold chars_of, words_of. do 2 f_equal; lia.
Qed.

Lemma select_processing_type_spec (total_chars total_words : Z) :
  (select_processing_type total_chars total_words = sequential
   <-> total_chars <= 3 * MAX_CHARS /\ total_words <= 3 * MAX_WORDS)
  /\ (select_processing_type total_chars total_words = parallel
      <-> ~ (total_chars <= 3 * MAX_CHARS /\ total_words <= 3 * MAX_WORDS)).
Proof.
  unfold select_processing_type.
  change (DEFAULT_MAX_CHARS - INSTRUCTION_CHARS) with MAX_CHARS.
  change (DEFAULT_MAX_WORDS - INSTRUCTION_WORDS) with MAX_WORDS.
  change CHUNK_LIMIT with 3.
  destruct ((total_chars <=? MAX_CHARS * 3) && (total_words <=? MAX_WORDS * 3))
    eqn:E.
  - apply andb_true_iff in E. rewrite !Z.leb_le in E.
    split; split; intros; try discriminate; try lia. reflexivity.
  - apply andb_false_iff in E. rewrite !Z.leb_gt in E.
    split; split; intros; try discriminate; try lia. reflexivity.
Qed.

(** C7. When every file can be read, [read_files_with_chunking] returns
    a processing mode that depends on the total character and word
    counts of the corpus only: sequential if and only if the characters
    are at most 3 x (DEFAULT_MAX_CHARS - INSTRUCTION_CHARS) and the words
    at most 3 x (DEFAULT_MAX_WORDS - INSTRUCTION_WORDS), parallel
    otherwise. *)
Theorem processing_mode_selection (scan fs : filesystem)
  (file_paths : list path) (contents : list str) :
  Forall2 (fun p c => scan p = Ok c) file_paths contents ->
  let total_chars := total chars_of contents in
  let total_words := total words_of contents in
  exists bundles mode lg,
    read_files_with_chunking scan fs file_paths = Ok (bundles, mode, lg)
    /\ mode = select_processing_type total_chars total_words
    /\ (mode = sequential
        <-> total_chars <= CHUNK_LIMIT * (DEFAULT_MAX_CHARS - INSTRUCTION_CHARS)
            /\ total_words
               <= CHUNK_LIMIT * (DEFAULT_MAX_WORDS - INSTRUCTION_WORDS))
    /\ (mode = parallel
        <-> ~ (total_chars
               <= CHUNK_LIMIT * (DEFAULT_MAX_CHARS - INSTRUCTION_CHARS)
               /\ total_words
                  <= CHUNK_LIMIT * (DEFAULT_MAX_WORDS - INSTRUCTION_WORDS))).
Proof.
  intros F total_chars total_words.
  unfold read_files_with_chunking.
  rewrite (scan_totals_sum scan file_paths contents 0 0 F).
  rewrite !Z.add_0_l. fold total_chars total_words.
  destruct (select_processing_type_spec total_chars total_words) as [S P].
  destruct (match select_processing_type total_chars total_words with
            | sequential => process_files fs file_paths
            | parallel =>
                (concat (map fst (map (process_file fs) file_paths)),
                 concat (map snd (map (process_file fs) file_paths)))
            end) as [all_chunks lg] eqn:E.
  exists (combine_chunks all_chunks),
         (select_processing_type total_chars total_words), lg.
  split; [reflexivity|]. split; [reflexivity|].
  split; [exact S | exact P].
Qed.

Definition str_eqb (a b : str) : bool :=
  if list_eq_dec N.eq_dec a b then true else false.

(** A corpus of two small files. *)
Definition small_corpus : filesystem :=
  fun p => if str_eqb p (py "a.py") then Ok (py "import os" ++ [newline])
           else Ok (py "x = 1" ++ [newline] ++ py "y = 2" ++ [newline]).

Lemma processing_mode_selection_witness :
  exists bundles mode lg,
    read_files_with_chunking small_corpus small_corpus [py "a.py"; py "b.py"]
    = Ok (bundles, mode, lg)
    /\ mode = sequential.
Proof.
  destruct (processing_mode_selection small_corpus small_corpus
              [py "a.py"; py "b.py"]
              [py "import os" ++ [newline];
               py "x = 1" ++ [newline] ++ py "y = 2" ++ [newline]])
    as (bundles & mode & lg & R & M & _).
  - repeat constructor.
  - exists bundles, mode, lg. split; [exact R|]. rewrite M. reflexivity.
Defined.

(** *** Unreadable files *)

(** A read error inside [process_file] is caught: no chunk, one error
    record, nothing raised. *)
Lemma process_file_read_error (fs : filesystem) (file_path : path) (e : exn) :
  fs file_path = Raise e ->
  process_file fs file_path =
  ([], [(INFO, Processing_file file_path);
        (ERROR, Error_reading_file file_path e)]).
Proof. intros R. unfold process_file. rewrite R. reflexivity. Qed.

(** ... and the files after it are still processed. *)
Lemma process_files_read_error (fs : filesystem) (file_path : path)
  (rest : list path) (e : exn) :
  fs file_path = Raise e ->
  fst (process_files fs (file_path :: rest)) = fst (process_files fs rest)
  /\ In (ERROR, Error_reading_file file_path e)
        (snd (process_files fs (file_path :: rest))).
Proof.
  intros R. simpl. rewrite (process_file_read_error fs file_path e R).
  destruct (process_files fs rest) as [chunks lg]. simpl. auto.
Qed.

(** The pre-scan has no handler: the first file that cannot be read
    ends [read_files_with_chunking] with the exception. *)
Lemma scan_totals_read_error (scan : filesystem) (before : list path)
  (file_path : path) (rest : list path) (e : exn) (tc tw : Z) :
  Forall (fun p => exists c, scan p = Ok c) before ->
  scan file_path = Raise e ->
  scan_totals scan (before ++ file_path :: rest) tc tw = Raise e.
Proof.
  intros F R; revert tc tw.
  induction F as [|p ps [c Hp] _ IH]; intros tc tw; simpl.
  - rewrite R. reflexivity.
  - rewrite Hp. apply IH.
Qed.

Lemma prescan_read_error_aborts (scan fs : filesystem) (before : list path)
  (file_path : path) (rest : list path) (e : exn) :
  Forall (fun p => exists c, scan p = Ok c) before ->
  scan file_path = Raise e ->
  read_files_with_chunking scan fs (before ++ file_path :: rest) = Raise e.
Proof.
  intros F R. unfold read_files_with_chunking.
  rewrite (scan_totals_read_error scan before file_path rest e 0 0 F R).
  reflexivity.
Qed.

(** Three files, the second of which cannot be read. *)
Definition one_unreadable : filesystem :=
  fun p => if str_eqb p (py "locked.txt") then Raise (Exception 13)
           else Ok (py "hello" ++ [newline]).

Definition three_paths : list path :=
  [py "a.txt"; py "locked.txt"; py "b.txt"].

(** C9. With one unreadable file among three, the chunking of the files
    leaves the unreadable one out, records the error and goes on to the
    third file; but the pre-scan that comes before it raises, so
    [read_files_with_chunking], and with it the whole run, ends with the
    exception. *)
Theorem unreadable_file_aborts_prescan :
  map snd (fst (process_files one_unreadable three_paths))
  = [py "hello" ++ [newline]; py "hello" ++ [newline]]
  /\ In (ERROR, Error_reading_file (py "locked.txt") (Exception 13))
        (snd (process_files one_unreadable three_paths))
  /\ read_files_with_chunking one_unreadable one_unreadable three_paths
     = Raise (Exception 13)
  /\ (forall bedrock uniform str_of_list schedule fuel w,
        main bedrock uniform str_of_list schedule fuel one_unreadable one_unreadable
             three_paths w
        = Some (w, Raise (Exception 13))).
Proof.
  split; [vm_compute; reflexivity|].
  split; [vm_compute; tauto|].
  assert (read_files_with_chunking one_unreadable one_unreadable three_paths
          = Raise (Exception 13)) as R by (vm_compute; reflexivity).
  split; [exact R|].
  intros. unfold main. rewrite R. reflexivity.
Qed.

(** ** The Model Gateway: retries *)

Section Retry.

Variable bedrock : nat -> pyval -> pyval -> result str.
Variable uniform : nat -> Q.

(** The wait after the failed attempt number [attempt], when the
    jitter is the draw number [draw]:
    [30 * 2 ** attempt + random.uniform(5, 10)]. *)
Definition wait_time (attempt draw : nat) : Q :=
  (inject_Z (30 * 2 ^ Z.of_nat attempt) + uniform draw)%Q.

(** What [n] failed attempts in a row leave in the trace, from the
    attempt number [attempt] on: each call, then its wait. *)
Fixpoint failed_attempts (metadata chunk : pyval) (attempt draw n : nat)
  : list event :=
  match n with
  | O => []
  | S n =>
      Invoke metadata chunk :: Sleep (wait_time attempt draw)
      :: failed_attempts metadata chunk (S attempt) (S draw) n
  end.

Lemma retry_loop_invocations (attempts : list Z) (metadata chunk : pyval)
  (retries backoff_factor delay : Z) (w : world) :
  (invocations
     (fst (retry_loop bedrock uniform attempts metadata chunk
                      retries backoff_factor delay w))
   <= invocations w + length attempts)%nat.
Proof.
  revert w; induction attempts as [|attempt rest IH]; intros w; simpl; [lia|].
  destruct (bedrock (invocations w) metadata chunk) as [text | e]; simpl;
    [lia|].
  destruct (attempt <? retries - 1); simpl; [|lia].
  match goal with |- context [retry_loop _ _ _ _ _ _ _ _ ?w'] =>
    specialize (IH w') end.
  simpl in IH. lia.
Qed.

Lemma retry_loop_succeeds (n m attempt : nat) (metadata chunk : pyval)
  (text : str) (w : world) :
  (attempt + n <= 9)%nat ->
  (forall k, (k < n)%nat ->
             exists e, bedrock (invocations w + k)%nat metadata chunk = Raise e) ->
  bedrock (invocations w + n)%nat metadata chunk = Ok text ->
  retry_loop bedrock uniform (map Z.of_nat (seq attempt (n + S m)))
             metadata chunk 10 2 30 w
  = (mkWorld (invocations w + n + 1) (draws w + n)
             (trace w ++ failed_attempts metadata chunk attempt (draws w) n
              ++ [Invoke metadata chunk]),
     Some (Ok text)).
Proof.
  revert attempt w; induction n as [|n IH]; intros attempt w Ha Hfail Hok.
  - cbn [Nat.add seq map retry_loop invoke_model failed_attempts app].
    rewrite Nat.add_0_r in Hok. rewrite Hok.
    f_equal. f_equal; lia.
  - cbn [Nat.add seq map retry_loop invoke_model failed_attempts].
    destruct (Hfail 0%nat ltac:(lia)) as [e He].
    rewrite Nat.add_0_r in He. rewrite He.
    replace (Z.of_nat attempt <? 10 - 1) with true
      by (symmetry; apply Z.ltb_lt; lia).
    unfold random_uniform, time_sleep; cbn [invocations draws trace].
    rewrite IH.
    + cbn [invocations draws trace]. unfold wait_time.
      f_equal. f_equal; [lia | lia |].
      rewrite <- !app_assoc. reflexivity.
    + lia.
    + cbn [invocations]. intros k Hk.
      destruct (Hfail (S k) ltac:(lia)) as [e' He'].
      exists e'. rewrite <- He'. f_equal. lia.
    + cbn [invocations]. rewrite <- Hok. f_equal. lia.
Qed.

Lemma retry_loop_exhausted (n attempt : nat) (metadata chunk : pyval)
  (errors : nat -> exn) (w : world) :
  (attempt + S n = 10)%nat ->
  (forall k, (k <= n)%nat ->
             bedrock (invocations w + k)%nat metadata chunk = Raise (errors k)) ->
  retry_loop bedrock uniform (map Z.of_nat (seq attempt (n + 1)))
             metadata chunk 10 2 30 w
  = (mkWorld (invocations w + n + 1) (draws w + n)
             (trace w ++ failed_attempts metadata chunk attempt (draws w) n
              ++ [Invoke metadata chunk]),
     Some (Raise (errors n))).
Proof.
  revert attempt errors w; induction n as [|n IH]; intros attempt errors w Ha Hfail.
  - cbn [Nat.add seq map retry_loop invoke_model failed_attempts app].
    rewrite <- (Nat.add_0_r (invocations w)) at 1.
    rewrite (Hfail 0%nat ltac:(lia)).
    replace (Z.of_nat attempt <? 10 - 1) with false
      by (symmetry; apply Z.ltb_ge; lia).
    f_equal. f_equal; lia.
  - cbn [Nat.add seq map retry_loop invoke_model failed_attempts].
    rewrite <- (Nat.add_0_r (invocations w)) at 1.
    rewrite (Hfail 0%nat ltac:(lia)).
    replace (Z.of_nat attempt <? 10 - 1) with true
      by (symmetry; apply Z.ltb_lt; lia).
    unfold random_uniform, time_sleep; cbn [invocations draws trace].
    rewrite (IH (S attempt) (fun k => errors (S k))).
    + cbn [invocations draws trace]. unfold wait_time.
      f_equal. f_equal; [lia | lia |].
      rewrite <- !app_assoc. reflexivity.
    + lia.
    + cbn [invocations]. intros k Hk.
      rewrite <- (Hfail (S k) ltac:(lia)). f_equal. lia.
Qed.

(** With [retries=10] the loop always leaves by [return] or [raise]. *)
Lemma retry_loop_returns (n attempt : nat) (metadata chunk : pyval) (w : world) :
  (attempt + S n = 10)%nat ->
  snd (retry_loop bedrock uniform (map Z.of_nat (seq attempt (n + 1)))
                  metadata chunk 10 2 30 w) <> None.
Proof.
  revert attempt w; induction n as [|n IH]; intros attempt w Ha;
    cbn [Nat.add seq map retry_loop invoke_model];
    destruct (bedrock (invocations w) metadata chunk) as [text | e];
    try discriminate.
  - replace (Z.of_nat attempt <? 10 - 1) with false
      by (symmetry; apply Z.ltb_ge; lia).
    discriminate.
  - replace (Z.of_nat attempt <? 10 - 1) with true
      by (symmetry; apply Z.ltb_lt; lia).
    unfold random_uniform, time_sleep. apply IH. lia.
Qed.

Lemma retry_default_returns (metadata chunk : pyval) (w : world) :
  snd (invoke_model_with_retry_args bedrock uniform metadata chunk 10 2 w)
  <> None.
Proof. apply (retry_loop_returns 9 0). reflexivity. Qed.

Lemma invoke_model_with_retry_unfold (metadata chunk : pyval) (w w' : world)
  (r : result str) :
  retry_loop bedrock uniform (map Z.of_nat (seq 0 10)) metadata chunk 10 2 30 w
  = (w', Some r) ->
  invoke_model_with_retry bedrock uniform metadata chunk w = (w', r).
Proof.
  intros H. unfold invoke_model_with_retry, invoke_model_with_retry_args.
  change (range 10) with (map Z.of_nat (seq 0 10)). rewrite H. reflexivity.
Qed.

(** C8. [invoke_model_with_retry] calls the gateway at most 10 times.
    When the first [n] attempts fail ([n <= 9]) and the next succeeds, it
    makes exactly [n + 1] calls, sleeps [30 * 2^k + jitter] after the
    failed attempt [k] and returns the text; failing twice and then
    succeeding is exactly 3 calls with waits [30 + jitter] and
    [60 + jitter].  When all 10 attempts fail it raises the exception of
    the last attempt, after 10 calls and 9 waits. *)
Theorem retry_policy (metadata chunk : pyval) (w : world) :
  (invocations (fst (invoke_model_with_retry bedrock uniform metadata chunk w))
   <= invocations w + 10)%nat
  /\ (forall (n : nat) (text : str),
        (n <= 9)%nat ->
        (forall k, (k < n)%nat ->
                   exists e,
                     bedrock (invocations w + k)%nat metadata chunk = Raise e) ->
        bedrock (invocations w + n)%nat metadata chunk = Ok text ->
        invoke_model_with_retry bedrock uniform metadata chunk w
        = (mkWorld (invocations w + n + 1) (draws w + n)
                   (trace w
                    ++ failed_attempts metadata chunk 0 (draws w) n
                    ++ [Invoke metadata chunk]),
           Ok text))
  /\ (forall (e0 e1 : exn) (text : str),
        bedrock (invocations w) metadata chunk = Raise e0 ->
        bedrock (invocations w + 1)%nat metadata chunk = Raise e1 ->
        bedrock (invocations w + 2)%nat metadata chunk = Ok text ->
        invoke_model_with_retry bedrock uniform metadata chunk w
        = (mkWorld (invocations w + 3) (draws w + 2)
                   (trace w
                    ++ [Invoke metadata chunk;
                        Sleep (inject_Z 30 + uniform (draws w))%Q;
                        Invoke metadata chunk;
                        Sleep (inject_Z 60 + uniform (draws w + 1))%Q;
                        Invoke metadata chunk]),
           Ok text))
  /\ (forall errors : nat -> exn,
        (forall k, (k < 10)%nat ->
                   bedrock (invocations w + k)%nat metadata chunk
                   = Raise (errors k)) ->
        invoke_model_with_retry bedrock uniform metadata chunk w
        = (mkWorld (invocations w + 10) (draws w + 9)
                   (trace w
                    ++ failed_attempts metadata chunk 0 (draws w) 9
                    ++ [Invoke metadata chunk]),
           Raise (errors 9%nat))).
Proof.
  assert (forall (n : nat) (text : str),
        (n <= 9)%nat ->
        (forall k, (k < n)%nat ->
                   exists e,
                     bedrock (invocations w + k)%nat metadata chunk = Raise e) ->
        bedrock (invocations w + n)%nat metadata chunk = Ok text ->
        invoke_model_with_retry bedrock uniform metadata chunk w
        = (mkWorld (invocations w + n + 1) (draws w + n)
                   (trace w
                    ++ failed_attempts metadata chunk 0 (draws w) n
                    ++ [Invoke metadata chunk]),
           Ok text)) as Succeeds.
  { intros n text Hn Hfail Hok.
    apply invoke_model_with_retry_unfold.
    replace 10%nat with (n + S (9 - n))%nat at 1 by lia.
    apply retry_loop_succeeds; [lia | exact Hfail | exact Hok]. }
  split; [|split; [exact Succeeds | split]].
  - unfold invoke_model_with_retry, invoke_model_with_retry_args.
    pose proof (retry_loop_invocations (range 10) metadata chunk 10 2 30 w) as L.
    destruct (retry_loop bedrock uniform (range 10) metadata chunk 10 2 30 w)
      as [w' [r|]]; simpl in *; lia.
  - intros e0 e1 text H0 H1 H2.
    rewrite (Succeeds 2%nat text); [| lia | | exact H2].
    + cbn [failed_attempts app]. unfold wait_time.
      replace (draws w + 0)%nat with (draws w) by lia.
      replace (S (draws w)) with (draws w + 1)%nat by lia.
      replace (invocations w + 2 + 1)%nat with (invocations w + 3)%nat by lia.
      reflexivity.
    + intros k Hk. destruct k as [|[|k]]; [| | lia].
      * exists e0. rewrite Nat.add_0_r. exact H0.
      * exists e1. exact H1.
  - intros errors Hfail.
    apply invoke_model_with_retry_unfold.
    change (seq 0 10) with (seq 0 (9 + 1)).
    rewrite (retry_loop_exhausted 9 0 metadata chunk errors w);
      [| reflexivity | intros k Hk; apply Hfail; lia].
    f_equal. f_equal; lia.
Qed.

End Retry.

(** A gateway that fails on its first two calls and echoes the chunk
    from then on. *)
Definition text_of (v : pyval) : str :=
  match v with
  | PyStr s => s
  | PyList l => join l
  end.

Definition fails_twice : nat -> pyval -> pyval -> result str :=
  fun k _ chunk =>
    if (k <? 2)%nat then Raise (Exception (N.of_nat k)) else Ok (text_of chunk).

Definition fresh_world : world := mkWorld 0 0 [].

Lemma retry_policy_witness :
  invoke_model_with_retry fails_twice (fun _ => 7 # 1)
                          (PyStr (py "m")) (PyStr (py "c")) fresh_world
  = (mkWorld 3 2
       [Invoke (PyStr (py "m")) (PyStr (py "c"));
        Sleep (inject_Z 30 + (7 # 1))%Q;
        Invoke (PyStr (py "m")) (PyStr (py "c"));
        Sleep (inject_Z 60 + (7 # 1))%Q;
        Invoke (PyStr (py "m")) (PyStr (py "c"))],
     Ok (py "c")).
Proof.
  destruct (retry_policy fails_twice (fun _ => 7 # 1)
              (PyStr (py "m")) (PyStr (py "c")) fresh_world)
    as (_ & _ & T & _).
  apply (T (Exception 0) (Exception 1) (py "c")); reflexivity.
Defined.

(** ** The Reduction Driver: batches *)

Lemma slice_from (A : Type) (l : list A) (a b : Z) :
  0 <= a <= b ->
  skipn (Z.to_nat a) l = slice l a b ++ skipn (Z.to_nat b) l.
Proof.
  intros H. unfold slice.
  replace (Z.to_nat b) with (Z.to_nat (b - a) + Z.to_nat a)%nat by lia.
  rewrite <- skipn_skipn. symmetry. apply firstn_skipn.
Qed.

Lemma skipn_len (A : Type) (l : list A) : skipn (Z.to_nat (len l)) l = [].
Proof. unfold len. rewrite Nat2Z.id. apply skipn_all. Qed.

Lemma slice_length (A : Type) (l : list A) (a b : Z) :
  0 <= a <= b -> b <= len l -> len (slice l a b) = b - a.
Proof.
  intros Ha Hb. unfold slice, len in *.
  rewrite length_firstn, length_skipn. lia.
Qed.

(** *** The thread pool *)

(** An upper bound of the number of steps that a thread has left. *)
Definition work (t : thread) : nat :=
  match t with
  | Pending _ _ => 31
  | Calling _ _ attempts => 3 * length attempts + 1
  | Drawing _ _ _ rest => 3 * length rest + 3
  | Sleeping _ _ _ rest => 3 * length rest + 2
  | Finished _ => 0
  end.

Lemma first_live_none (pool : list thread) :
  first_live pool = None -> Forall (fun t => live t = false) pool.
Proof.
  induction pool as [|t pool IH]; cbn [first_live]; intros H; [constructor|].
  destruct (live t) eqn:L; [discriminate|].
  destruct (first_live pool); [discriminate|].
  constructor; [exact L | apply IH; reflexivity].
Qed.

Lemma first_live_some (pool : list thread) (i : nat) :
  first_live pool = Some i -> is_live i pool = true.
Proof.
  revert i; induction pool as [|t pool IH]; cbn [first_live]; intros i H;
    [discriminate|].
  destruct (live t) eqn:L.
  - injection H as <-. exact L.
  - destruct (first_live pool) as [j|]; [|discriminate].
    injection H as <-. exact (IH j eq_refl).
Qed.

Lemma is_live_split (i : nat) (pool : list thread) :
  is_live i pool = true ->
  exists before t after,
    pool = before ++ t :: after /\ length before = i /\ live t = true.
Proof.
  unfold is_live. intros H.
  destruct (nth_error pool i) as [t|] eqn:E; [|discriminate].
  apply nth_error_split in E as (before & after & -> & L).
  exists before, t, after. repeat split; assumption.
Qed.

Lemma collected_done (pool : list thread) :
  Forall (fun t => live t = false) pool -> exists r, collected pool = Some r.
Proof.
  intros F; induction F as [|t pool L _ [r IH]]; cbn [collected]; [eauto|].
  destruct t as [| | | |[text|e]]; try discriminate L; [|eauto].
  rewrite IH. destruct r; eauto.
Qed.

Section Pool.

Variable bedrock : nat -> pyval -> pyval -> result str.
Variable uniform : nat -> Q.
Variable schedule : world -> choice.

Lemma advance_at_split (before : list thread) (t : thread)
  (after : list thread) (w : world) :
  advance_at bedrock uniform (length before) (before ++ t :: after) w
  = (fst (advance bedrock uniform t w),
     before ++ snd (advance bedrock uniform t w) :: after).
Proof.
  induction before as [|b before IH]; cbn [length app advance_at].
  - destruct (advance bedrock uniform t w). reflexivity.
  - rewrite IH. reflexivity.
Qed.

Lemma next_some (pool : list thread) (w : world) (i : nat) :
  next schedule pool w = Some i -> is_live i pool = true.
Proof.
  unfold next. destruct (schedule w) as [j|].
  - destruct (is_live j pool) eqn:L.
    + intros H. injection H as <-. exact L.
    + apply first_live_some.
  - destruct (cancellable pool); [discriminate | apply first_live_some].
Qed.

Lemma next_none (pool : list thread) (w : world) :
  next schedule pool w = None ->
  Forall (fun t => live t = false) pool \/ cancellable pool = true.
Proof.
  unfold next. destruct (schedule w) as [j|].
  - destruct (is_live j pool); [discriminate|].
    intros H. left. apply first_live_none. exact H.
  - destruct (cancellable pool); [right; reflexivity|].
    intros H. left. apply first_live_none. exact H.
Qed.

(** What holds of a pool and is kept by every step of every thread
    holds of the pool when it is left, whatever the schedule. *)
Lemma run_pool_invariant (I : list thread -> world -> Prop) :
  (forall before t after w,
     live t = true -> I (before ++ t :: after) w ->
     I (before ++ snd (advance bedrock uniform t w) :: after)
       (fst (advance bedrock uniform t w))) ->
  forall (fuel : nat) (pool : list thread) (w w' : world)
         (r : result (list str)),
    I pool w ->
    run_pool bedrock uniform schedule fuel pool w = Some (w', r) ->
    exists pool',
      I pool' w'
      /\ collected pool' = Some r
      /\ (Forall (fun t => live t = false) pool' \/ cancellable pool' = true).
Proof.
  intros Step fuel; induction fuel as [|fuel IH]; intros pool w w' r HI H;
    cbn [run_pool] in H;
    destruct (next schedule pool w) as [i|] eqn:N.
  - discriminate H.
  - destruct (collected pool) as [r0|] eqn:C; [|discriminate H].
    injection H as <- <-. exists pool.
    split; [exact HI|]. split; [exact C | exact (next_none pool w N)].
  - apply next_some, is_live_split in N as (before & t & after & -> & <- & L).
    rewrite advance_at_split in H.
    exact (IH _ _ _ _ (Step before t after w L HI) H).
  - destruct (collected pool) as [r0|] eqn:C; [|discriminate H].
    injection H as <- <-. exists pool.
    split; [exact HI|]. split; [exact C | exact (next_none pool w N)].
Qed.

Lemma advance_work (t : thread) (w : world) :
  live t = true ->
  (work (snd (advance bedrock uniform t w)) < work t)%nat.
Proof.
  assert (forall metadata chunk attempts,
             (work (snd (call bedrock metadata chunk attempts w))
              < 3 * length attempts + 1)%nat) as C.
  { intros metadata chunk [|attempt rest]; cbn [call invoke_model];
      [cbn; lia|].
    destruct (bedrock (invocations w) metadata chunk); [cbn; lia|].
    destruct (attempt <? 10 - 1); cbn [snd work length]; lia. }
  destruct t as [m c | m c attempts | m c attempt rest | m c wt rest | r];
    intros L; try discriminate L; cbn [advance].
  - exact (C m c (range 10)).
  - exact (C m c attempts).
  - cbn [random_uniform snd work]. lia.
  - cbn [snd work]. lia.
Qed.

Lemma work_split (before : list thread) (t : thread) (after : list thread) :
  list_sum (map work (before ++ t :: after))
  = (list_sum (map work before) + (work t + list_sum (map work after)))%nat.
Proof. rewrite map_app, list_sum_app. reflexivity. Qed.

(** The pool is left before the fuel is spent. *)
Lemma run_pool_returns (fuel : nat) (pool : list thread) (w : world) :
  (list_sum (map work pool) <= fuel)%nat ->
  exists w' r, run_pool bedrock uniform schedule fuel pool w = Some (w', r).
Proof.
  revert pool w; induction fuel as [|fuel IH]; intros pool w B;
    cbn [run_pool];
    destruct (next schedule pool w) as [i|] eqn:N.
  - apply next_some, is_live_split in N as (before & t & after & -> & _ & L).
    pose proof (advance_work t w L) as A.
    rewrite work_split in B. exfalso. lia.
  - apply next_none in N as [Done | Can].
    + destruct (collected_done pool Done) as [r ->]. eauto.
    + unfold cancellable in Can.
      destruct (collected pool) as [[texts|e]|]; try discriminate Can. eauto.
  - apply next_some, is_live_split in N as (before & t & after & -> & <- & L).
    rewrite advance_at_split. apply IH.
    pose proof (advance_work t w L) as A.
    rewrite work_split in *. lia.
  - apply next_none in N as [Done | Can].
    + destruct (collected_done pool Done) as [r ->]. eauto.
    + unfold cancellable in Can.
      destruct (collected pool) as [[texts|e]|]; try discriminate Can. eauto.
Qed.

Lemma work_submitted (batch : list (pyval * pyval)) :
  list_sum (map work (submitted batch)) = (31 * length batch)%nat.
Proof.
  induction batch as [|unit batch IH]; [reflexivity|].
  change (submitted (unit :: batch))
    with ([] ++ Pending (fst unit) (snd unit) :: submitted batch).
  rewrite work_split, IH. change (list_sum (map work [])) with 0%nat.
  cbn [work length]. lia.
Qed.

(** Whatever the gateway and the scheduler do, the [with] block is
    left. *)
Lemma run_batch_returns (batch : list (pyval * pyval)) (w : world) :
  exists w' r, run_batch bedrock uniform schedule batch w = Some (w', r).
Proof.
  unfold run_batch. apply run_pool_returns.
  rewrite (work_submitted batch). lia.
Qed.

Lemma run_batch_invariant (I : list thread -> world -> Prop)
  (batch : list (pyval * pyval)) (w w' : world) (r : result (list str)) :
  (forall before t after w,
     live t = true -> I (before ++ t :: after) w ->
     I (before ++ snd (advance bedrock uniform t w) :: after)
       (fst (advance bedrock uniform t w))) ->
  I (submitted batch) w ->
  run_batch bedrock uniform schedule batch w = Some (w', r) ->
  exists pool',
    I pool' w'
    /\ collected pool' = Some r
    /\ (Forall (fun t => live t = false) pool' \/ cancellable pool' = true).
Proof.
  intros Step Start H.
  exact (run_pool_invariant I Step _ _ _ _ _ Start H).
Qed.

End Pool.

(** *** One call alone in the pool *)

Section Alone.

Variable bedrock : nat -> pyval -> pyval -> result str.
Variable uniform : nat -> Q.
Variable schedule : world -> choice.

Lemma next_alone (t : thread) (w : world) :
  next schedule [t] w = if live t then Some O else None.
Proof.
  unfold next, is_live, cancellable, quiet.
  destruct (schedule w) as [[|[|i]]|]; destruct t as [| | | |[text|e]];
    reflexivity.
Qed.

(** The steps of a thread that runs alone are the iterations of the
    loop of [invoke_model_with_retry]. *)
Lemma run_pool_alone (attempts : list Z) (metadata chunk : pyval)
  (fuel : nat) (w : world) :
  (3 * length attempts + 1 <= fuel)%nat ->
  run_pool bedrock uniform schedule fuel [Calling metadata chunk attempts] w
  = match retry_loop bedrock uniform attempts metadata chunk 10 2 30 w with
    | (w', Some (Ok text)) => Some (w', Ok [text])
    | (w', Some (Raise e)) => Some (w', Raise e)
    | (w', None) => Some (w', Raise none_returned)
    end.
Proof.
  revert fuel w; induction attempts as [|attempt rest IH]; intros fuel w F.
  - destruct fuel as [|fuel]; [cbn in F; lia|].
    cbn [run_pool]. rewrite next_alone. cbn [live advance_at advance call].
    destruct fuel; cbn [run_pool retry_loop]; rewrite next_alone; reflexivity.
  - cbn [length] in F.
    destruct fuel as [|[|[|fuel]]]; try lia.
    cbn [run_pool]. rewrite next_alone.
    cbn [live advance_at advance call retry_loop].
    destruct (invoke_model bedrock metadata chunk w) as [w1 [text|e]].
    + cbn [run_pool]. rewrite next_alone. reflexivity.
    + destruct (attempt <? 10 - 1).
      * cbn [run_pool]. rewrite next_alone. cbn [live advance_at advance].
        destruct (random_uniform uniform w1) as [w2 u].
        cbn [run_pool]. rewrite next_alone. cbn [live advance_at advance].
        apply IH. lia.
      * cbn [run_pool]. rewrite next_alone. reflexivity.
Qed.

(** A batch of one unit is one call of [invoke_model_with_retry],
    whatever the scheduler does. *)
Lemma run_batch_alone (metadata chunk : pyval) (w : world) :
  run_batch bedrock uniform schedule [(metadata, chunk)] w
  = match invoke_model_with_retry bedrock uniform metadata chunk w with
    | (w', Ok text) => Some (w', Ok [text])
    | (w', Raise e) => Some (w', Raise e)
    end.
Proof.
  unfold run_batch.
  transitivity (run_pool bedrock uniform schedule 31
                         [Calling metadata chunk (range 10)] w).
  - cbn [length submitted map fst snd Nat.mul Nat.add run_pool].
    rewrite !next_alone. reflexivity.
  - rewrite run_pool_alone
      by (change (length (range 10)) with 10%nat; lia).
    unfold invoke_model_with_retry, invoke_model_with_retry_args.
    destruct (retry_loop bedrock uniform (range 10) metadata chunk 10 2 30 w)
      as [w' [[text|e]|]]; reflexivity.
Qed.

End Alone.

(** *** What a step does to the world *)

Section Steps.

Variable bedrock : nat -> pyval -> pyval -> result str.
Variable uniform : nat -> Q.

Lemma call_invocations (metadata chunk : pyval) (attempts : list Z)
  (w : world) :
  (invocations w <= invocations (fst (call bedrock metadata chunk attempts w)))%nat.
Proof.
  destruct attempts as [|attempt rest]; cbn [call invoke_model]; [cbn; lia|].
  destruct (bedrock (invocations w) metadata chunk); [cbn; lia|].
  destruct (attempt <? 10 - 1); cbn; lia.
Qed.

Lemma advance_invocations (t : thread) (w : world) :
  (invocations w <= invocations (fst (advance bedrock uniform t w)))%nat.
Proof.
  destruct t as [m c | m c attempts | m c attempt rest | m c wt rest | r];
    cbn [advance]; try apply call_invocations; cbn; lia.
Qed.

(** An invariant that speaks of every thread by itself. *)
Lemma threads_step {X : Type} (J : X -> pyval * pyval -> thread -> Prop)
  (batch : list (pyval * pyval)) (before : list thread) (t t' : thread)
  (after : list thread) (w w' : X) :
  Forall2 (J w) batch (before ++ t :: after) ->
  (forall unit s, J w unit s -> J w' unit s) ->
  (forall unit, J w unit t -> J w' unit t') ->
  Forall2 (J w') batch (before ++ t' :: after).
Proof.
  intros F Keep Step.
  apply Forall2_app_inv_r in F as (b1 & b2 & F1 & F2 & ->).
  inversion F2 as [|unit ? b3 ? Ht F3]; subst.
  apply Forall2_app.
  - eapply Forall2_impl; [|exact F1]. intros u s. apply Keep.
  - constructor; [apply Step; exact Ht|].
    eapply Forall2_impl; [|exact F3]. intros u s. apply Keep.
Qed.

End Steps.

(** *** A gateway that answers *)

(** The attempts that are left after [n] failed ones. *)
Definition attempts_from (n : nat) : list Z := map Z.of_nat (seq n (10 - n)).

Lemma attempts_from_cons (n : nat) :
  (n < 10)%nat -> attempts_from n = Z.of_nat n :: attempts_from (S n).
Proof.
  intros H. unfold attempts_from.
  replace (10 - n)%nat with (S (10 - S n)) by lia. reflexivity.
Qed.

Section Batches.

Variable bedrock : nat -> pyval -> pyval -> result str.
Variable uniform : nat -> Q.
Variable schedule : world -> choice.

(** Every answer of the gateway is related to the arguments of the call
    by [P], and the gateway does not fail a unit ten times: of any ten
    calls with the same arguments one is answered.  The calls of
    [invoke_model_with_retry] for a unit are then never used up,
    whichever calls of other threads come in between. *)
Definition answers (P : pyval -> pyval -> str -> Prop) : Prop :=
  (forall k metadata chunk text,
     bedrock k metadata chunk = Ok text -> P metadata chunk text)
  /\ (forall metadata chunk (calls : list nat),
        NoDup calls -> length calls = 10%nat ->
        exists k text, In k calls /\ bedrock k metadata chunk = Ok text).

Definition answered (P : pyval -> pyval -> str -> Prop)
  (units : list (pyval * pyval)) (texts : list str) : Prop :=
  Forall2 (fun unit text => P (fst unit) (snd unit) text) units texts.

(** The calls that a thread has made so far, all of them failed. *)
Definition tried (w : world) (metadata chunk : pyval) (calls : list nat)
  : Prop :=
  NoDup calls
  /\ forall k, In k calls ->
               (k < invocations w)%nat
               /\ exists e, bedrock k metadata chunk = Raise e.

Definition retrying (w : world) (metadata chunk : pyval) (rest : list Z)
  : Prop :=
  exists calls,
    tried w metadata chunk calls
    /\ (length calls < 10)%nat
    /\ rest = attempts_from (length calls).

Definition on_track (P : pyval -> pyval -> str -> Prop) (w : world)
  (unit : pyval * pyval) (t : thread) : Prop :=
  match t with
  | Pending metadata chunk => (metadata, chunk) = unit
  | Calling metadata chunk rest
  | Drawing metadata chunk _ rest
  | Sleeping metadata chunk _ rest =>
      (metadata, chunk) = unit /\ retrying w metadata chunk rest
  | Finished r => exists text, r = Ok text /\ P (fst unit) (snd unit) text
  end.

Lemma tried_later (w w' : world) (metadata chunk : pyval) (calls : list nat) :
  (invocations w <= invocations w')%nat ->
  tried w metadata chunk calls -> tried w' metadata chunk calls.
Proof.
  intros L [N T]. split; [exact N|].
  intros k I. destruct (T k I) as [B E]. split; [lia | exact E].
Qed.

Lemma on_track_later (P : pyval -> pyval -> str -> Prop) (w w' : world)
  (unit : pyval * pyval) (t : thread) :
  (invocations w <= invocations w')%nat ->
  on_track P w unit t -> on_track P w' unit t.
Proof.
  intros L.
  destruct t as [m c | m c rest | m c a rest | m c wt rest | r];
    cbn [on_track]; try exact (fun H => H);
    intros [E (calls & T & B & R)]; (split; [exact E|]);
    exists calls; (split; [exact (tried_later w w' m c calls L T)|]);
    split; assumption.
Qed.

Lemma on_track_call (P : pyval -> pyval -> str -> Prop) (w : world)
  (metadata chunk : pyval) (rest : list Z) :
  answers P ->
  retrying w metadata chunk rest ->
  on_track P (fst (call bedrock metadata chunk rest w)) (metadata, chunk)
           (snd (call bedrock metadata chunk rest w)).
Proof.
  intros [Good Alive] (calls & [N T] & B & ->).
  rewrite (attempts_from_cons _ B). cbn [call invoke_model].
  destruct (bedrock (invocations w) metadata chunk) as [text|e] eqn:E.
  - cbn [fst snd on_track]. exists text. split; [reflexivity|].
    exact (Good _ _ _ _ E).
  - assert (tried (mkWorld (S (invocations w)) (draws w)
                           (trace w ++ [Invoke metadata chunk]))
                  metadata chunk (invocations w :: calls)) as T'.
    { split.
      - constructor; [|exact N]. intros I. destruct (T _ I) as [L _]. lia.
      - intros k [<- | I]; cbn [invocations].
        + split; [lia | eauto].
        + destruct (T k I) as [L X]. split; [lia | exact X]. }
    destruct (Z.of_nat (length calls) <? 10 - 1) eqn:A.
    + apply Z.ltb_lt in A. cbn [fst snd on_track]. split; [reflexivity|].
      exists (invocations w :: calls). split; [exact T'|].
      cbn [length]. split; [lia | reflexivity].
    + apply Z.ltb_ge in A. exfalso.
      destruct (Alive metadata chunk (invocations w :: calls))
        as (k & text & I & X).
      * exact (proj1 T').
      * cbn [length]. lia.
      * destruct (proj2 T' k I) as [_ [e' X']]. congruence.
Qed.

Lemma on_track_advance (P : pyval -> pyval -> str -> Prop) (w : world)
  (unit : pyval * pyval) (t : thread) :
  answers P -> live t = true ->
  on_track P w unit t ->
  on_track P (fst (advance bedrock uniform t w)) unit
           (snd (advance bedrock uniform t w)).
Proof.
  intros A L.
  destruct t as [m c | m c rest | m c a rest | m c wt rest | r];
    try discriminate L; cbn [on_track advance].
  - intros <-. apply on_track_call; [exact A|].
    exists []. split; [|split; [cbn; lia | reflexivity]].
    split; [constructor | intros k []].
  - intros [<- R]. apply on_track_call; assumption.
  - intros [<- R]. cbn [random_uniform fst snd on_track].
    split; [reflexivity|]. destruct R as (calls & T & B & E).
    exists calls. split; [|split; assumption].
    apply (tried_later w); [cbn; lia | exact T].
  - intros [<- R]. cbn [fst snd on_track].
    split; [reflexivity|]. destruct R as (calls & T & B & E).
    exists calls. split; [|split; assumption].
    apply (tried_later w); [cbn; lia | exact T].
Qed.

Lemma on_track_submitted (P : pyval -> pyval -> str -> Prop)
  (batch : list (pyval * pyval)) (w : world) :
  Forall2 (on_track P w) batch (submitted batch).
Proof.
  induction batch as [|[m c] batch IH]; constructor; [reflexivity | exact IH].
Qed.

Lemma on_track_collected (P : pyval -> pyval -> str -> Prop) (w : world)
  (batch : list (pyval * pyval)) (pool : list thread) (r : result (list str)) :
  Forall2 (on_track P w) batch pool -> collected pool = Some r ->
  exists texts, r = Ok texts /\ answered P batch texts.
Proof.
  intros F; revert r; induction F as [|unit t batch pool Ht _ IH]; intros r C;
    cbn [collected] in C.
  - injection C as <-. exists []. split; [reflexivity | constructor].
  - destruct t as [| | | |[text|e]]; try discriminate C.
    + destruct Ht as (text' & E & Hp). injection E as <-.
      destruct (collected pool) as [r'|]; [|discriminate C].
      destruct (IH r' eq_refl) as (texts & -> & Hts).
      injection C as <-. exists (text :: texts).
      split; [reflexivity | constructor; assumption].
    + destruct Ht as (text' & E & _). discriminate E.
Qed.

(** With a gateway that answers, every call of the batch returns a
    text, whatever the scheduler does. *)
Lemma run_batch_answers (P : pyval -> pyval -> str -> Prop)
  (batch : list (pyval * pyval)) (w : world) :
  answers P ->
  exists w' texts,
    run_batch bedrock uniform schedule batch w = Some (w', Ok texts)
    /\ answered P batch texts.
Proof.
  intros A.
  destruct (run_batch_returns bedrock uniform schedule batch w)
    as (w' & r & H).
  destruct (run_batch_invariant bedrock uniform schedule
              (fun pool w => Forall2 (on_track P w) batch pool)
              batch w w' r) as (pool' & F & C & _).
  - intros before t after w0 L F.
    apply (threads_step (on_track P) batch before t _ after w0 _ F).
    + intros unit s. apply on_track_later, advance_invocations.
    + intros unit. apply on_track_advance; assumption.
  - apply on_track_submitted.
  - exact H.
  - destruct (on_track_collected P w' batch pool' r F C) as (texts & -> & Ans).
    exists w', texts. split; assumption.
Qed.

(** So does a call of [invoke_model_with_retry] outside a pool. *)
Lemma invoke_answers (P : pyval -> pyval -> str -> Prop)
  (metadata chunk : pyval) (w : world) :
  answers P ->
  exists w' text,
    invoke_model_with_retry bedrock uniform metadata chunk w = (w', Ok text)
    /\ P metadata chunk text.
Proof.
  intros A.
  destruct (run_batch_answers P [(metadata, chunk)] w A)
    as (w' & texts & H & Ans).
  rewrite run_batch_alone in H.
  destruct (invoke_model_with_retry bedrock uniform metadata chunk w)
    as [w1 [text|e]]; [|discriminate H].
  injection H as <- <-. exists w1, text. split; [reflexivity|].
  inversion Ans; subst. assumption.
Qed.

Lemma batches_loop_answers (P : pyval -> pyval -> str -> Prop)
  (context_chunks : list (pyval * pyval)) :
  answers P ->
  forall (fuel : nat) (batch_start : Z) (results : list str) (w : world),
    0 <= batch_start <= len context_chunks ->
    (Z.to_nat (len context_chunks - batch_start) <= fuel)%nat ->
    exists w' texts,
      batches_loop bedrock uniform schedule fuel context_chunks
                   BATCH_SIZE TIME_WINDOW batch_start results w
      = Some (w', Ok (results ++ texts))
      /\ answered P (skipn (Z.to_nat batch_start) context_chunks) texts.
Proof.
  intros HP fuel; induction fuel as [|fuel IH];
    intros batch_start results w Hs Hf.
  - assert (batch_start = len context_chunks) as -> by lia.
    simpl. rewrite Z.ltb_irrefl. exists w, [].
    rewrite app_nil_r, skipn_len. split; [reflexivity | constructor].
  - cbn [batches_loop].
    destruct (batch_start <? len context_chunks) eqn:E.
    + apply Z.ltb_lt in E.
      set (batch_end := Z.min (batch_start + BATCH_SIZE) (len context_chunks)).
      assert (batch_start < batch_end <= len context_chunks) as Hb
        by (unfold batch_end, BATCH_SIZE; lia).
      destruct (run_batch_answers P (slice context_chunks batch_start batch_end)
                                  w HP) as (w1 & texts1 & -> & H1).
      match goal with
      | |- context [batches_loop _ _ _ _ _ _ _ _ _ ?w2] =>
          destruct (IH batch_end (results ++ texts1) w2 ltac:(lia) ltac:(lia))
            as (w' & texts2 & -> & H2)
      end.
      exists w', (texts1 ++ texts2). rewrite app_assoc.
      split; [reflexivity|].
      rewrite (slice_from _ context_chunks batch_start batch_end) by lia.
      apply Forall2_app; assumption.
    + apply Z.ltb_ge in E.
      assert (batch_start = len context_chunks) as -> by lia.
      exists w, []. rewrite app_nil_r, skipn_len.
      split; [reflexivity | constructor].
Qed.

Lemma process_in_batches_answers (P : pyval -> pyval -> str -> Prop)
  (context_chunks : list (pyval * pyval)) (w : world) :
  answers P ->
  exists w' texts,
    process_in_batches bedrock uniform schedule context_chunks
                       BATCH_SIZE TIME_WINDOW w
    = Some (w', Ok texts)
    /\ answered P context_chunks texts.
Proof.
  intros HP. unfold process_in_batches.
  destruct (batches_loop_answers P context_chunks HP (length context_chunks)
                                 0 [] w) as (w' & texts & H & Ht).
  - pose proof (len_nonneg context_chunks). lia.
  - unfold len. lia.
  - exists w', texts. split; assumption.
Qed.

(** Whatever the gateway and the scheduler do, [process_in_batches]
    comes back: with eight chunks to a batch the loop runs out of
    chunks before it runs out of fuel. *)
Lemma batches_loop_returns (context_chunks : list (pyval * pyval))
  (fuel : nat) (batch_start : Z) (results : list str) (w : world) :
  0 <= batch_start <= len context_chunks ->
  (Z.to_nat (len context_chunks - batch_start) <= fuel)%nat ->
  batches_loop bedrock uniform schedule fuel context_chunks
               BATCH_SIZE TIME_WINDOW batch_start results w <> None.
Proof.
  revert batch_start results w; induction fuel as [|fuel IH];
    intros batch_start results w Hs Hf.
  - assert (batch_start = len context_chunks) as -> by lia.
    simpl. rewrite Z.ltb_irrefl. discriminate.
  - cbn [batches_loop].
    destruct (batch_start <? len context_chunks) eqn:E; [|discriminate].
    apply Z.ltb_lt in E.
    set (batch_end := Z.min (batch_start + BATCH_SIZE) (len context_chunks)).
    assert (batch_start < batch_end <= len context_chunks) as Hb
      by (unfold batch_end, BATCH_SIZE; lia).
    destruct (run_batch_returns bedrock uniform schedule
                (slice context_chunks batch_start batch_end) w)
      as (w1 & [texts|e] & ->); [|discriminate].
    apply IH; lia.
Qed.

Lemma process_in_batches_returns (context_chunks : list (pyval * pyval))
  (w : world) :
  process_in_batches bedrock uniform schedule context_chunks
                     BATCH_SIZE TIME_WINDOW w
  <> None.
Proof.
  unfold process_in_batches. apply batches_loop_returns.
  - pose proof (len_nonneg context_chunks). lia.
  - unfold len. lia.
Qed.

End Batches.

(** ** The empty corpus *)

Lemma scan_totals_nonempty (fs : filesystem) (file_paths : list path)
  (tc tw tc' tw' : Z) :
  scan_totals fs file_paths tc tw = Ok (tc', tw') ->
  tc' <> tc \/ tw' <> tw ->
  exists p text, In p file_paths /\ fs p = Ok text /\ text <> [].
Proof.
  revert tc tw; induction file_paths as [|p rest IH]; intros tc tw H D; simpl in H.
  - injection H as -> ->. tauto.
  - destruct (fs p) as [content | e] eqn:R; [|discriminate].
    destruct content as [|c content].
    + change (len (@nil char)) with 0 in H.
      change (len (split [])) with 0 in H. rewrite !Z.add_0_r in H.
      destruct (IH tc tw H D) as (q & text & I & Rq & NE).
      exists q, text. split; [right; exact I | split; assumption].
    + exists p, (c :: content). split; [left; reflexivity|].
      split; [exact R | discriminate].
Qed.

Lemma process_file_nonempty (fs : filesystem) (file_path : path) (text : str) :
  fs file_path = Ok text -> text <> [] -> fst (process_file fs file_path) <> [].
Proof.
  intros R NE. unfold process_file. rewrite R. cbn [fst].
  destruct (readlines text) as [|line rest] eqn:L.
  - apply readlines_nil in L. congruence.
  - rewrite chunk_lines_greedy.
    destruct (greedy_from_cons chars_of words_of [] (line :: rest))
      as (more & tail & ->).
    discriminate.
Qed.

Lemma process_files_flat (fs : filesystem) (file_paths : list path) :
  process_files fs file_paths =
  (concat (map fst (map (process_file fs) file_paths)),
   concat (map snd (map (process_file fs) file_paths))).
Proof.
  induction file_paths as [|p rest IH]; simpl; [reflexivity|].
  rewrite IH. destruct (process_file fs p). reflexivity.
Qed.

Lemma concat_not_nil (A : Type) (x : list A) (l : list (list A)) :
  In x l -> x <> [] -> concat l <> [].
Proof.
  induction l as [|y l IH]; intros I NE; [destruct I|].
  simpl. destruct I as [-> | I].
  - destruct x; [congruence | discriminate].
  - intros H. apply app_eq_nil in H as [_ H]. exact (IH I NE H).
Qed.

Lemma combine_chunks_not_nil (all_chunks : list (str * str)) :
  all_chunks <> [] -> combine_chunks all_chunks <> [].
Proof.
  destruct all_chunks as [|unit rest]; [congruence|]. intros _.
  rewrite combine_chunks_greedy.
  destruct (greedy_from_cons unit_chars unit_words [] (unit :: rest))
    as (more & tail & ->).
  discriminate.
Qed.

(** On a file system that does not change between the pre-scan and the
    chunking, the parallel mode comes with at least one bundle. *)
Lemma parallel_has_bundles (fs : filesystem) (file_paths : list path)
  (bundles : list (list str * list str)) (lg : log) :
  read_files_with_chunking fs fs file_paths = Ok (bundles, parallel, lg) ->
  bundles <> [].
Proof.
  unfold read_files_with_chunking.
  destruct (scan_totals fs file_paths 0 0) as [[tc tw] | e] eqn:S;
    [|discriminate].
  destruct (select_processing_type_spec tc tw) as [_ P].
  destruct (select_processing_type tc tw) eqn:M.
  - destruct (process_files fs file_paths). discriminate.
  - intros H. injection H as <- _.
    assert (tc <> 0 \/ tw <> 0) as D.
    { pose proof MAX_CHARS_nonneg. pose proof MAX_WORDS_nonneg.
      destruct P as [P _]. specialize (P eq_refl). lia. }
    destruct (scan_totals_nonempty fs file_paths 0 0 tc tw S D)
      as (p & text & I & R & NE).
    apply combine_chunks_not_nil.
    apply (concat_not_nil _ (fst (process_file fs p))).
    + apply in_map. apply in_map. exact I.
    + exact (process_file_nonempty fs p text R NE).
Qed.

Section EmptyRuns.

Variable bedrock : nat -> pyval -> pyval -> result str.
Variable uniform : nat -> Q.
Variable str_of_list : list str -> str.
Variable schedule : world -> choice.

(** Were the parallel branch entered with no bundle, its loop would go
    round with nothing to send and never see exactly one result. *)
Lemma parallel_empty_never_returns (fuel : nat) (w : world) :
  ask_claude_batch bedrock uniform str_of_list schedule fuel [] parallel w = None.
Proof.
  unfold ask_claude_batch. cbn.
  induction fuel as [|fuel IH]; [reflexivity|]. cbn. exact IH.
Qed.

Lemma sequential_empty (fuel : nat) (w : world) :
  ask_claude_batch bedrock uniform str_of_list schedule fuel [] sequential w
  = Some (w, Ok []).
Proof. reflexivity. Qed.

End EmptyRuns.

(** C10. With no file at all the mode is sequential and there is no
    bundle; whenever a run over an unchanging file system ends with no
    bundle its mode is sequential, so that the parallel mode always
    comes with at least one bundle; and the sequential branch of
    [ask_claude_batch] over no bundle leaves the world as it was, with
    no gateway call, and returns the empty string. *)
Theorem empty_corpus_is_sequential :
  (forall scan fs : filesystem,
     read_files_with_chunking scan fs [] = Ok ([], sequential, []))
  /\ (forall (fs : filesystem) (file_paths : list path)
             (bundles : list (list str * list str))
             (mode : processing_type) (lg : log),
        read_files_with_chunking fs fs file_paths = Ok (bundles, mode, lg) ->
        bundles = [] -> mode = sequential)
  /\ (forall (fs : filesystem) (file_paths : list path)
             (bundles : list (list str * list str)) (lg : log),
        read_files_with_chunking fs fs file_paths = Ok (bundles, parallel, lg) ->
        bundles <> [])
  /\ (forall bedrock uniform str_of_list schedule (fuel : nat) (w : world),
        ask_claude_batch bedrock uniform str_of_list schedule fuel [] sequential w
        = Some (w, Ok [])).
Proof.
  split; [reflexivity|]. split; [|split].
  - intros fs file_paths bundles mode lg H E.
    destruct mode; [reflexivity|].
    exfalso. exact (parallel_has_bundles fs file_paths bundles lg H E).
  - exact parallel_has_bundles.
  - intros. apply sequential_empty.
Qed.

(** A corpus of one file with no text. *)
Definition empty_file : filesystem := fun _ => Ok [].

Lemma empty_corpus_is_sequential_witness :
  exists bundles mode lg,
    read_files_with_chunking empty_file empty_file [py "empty.txt"]
    = Ok (bundles, mode, lg)
    /\ bundles = [] /\ mode = sequential.
Proof.
  destruct empty_corpus_is_sequential as (_ & E & _ & _).
  eexists _, _, _. split; [reflexivity|]. split; [reflexivity|].
  eapply (E empty_file [py "empty.txt"]); reflexivity.
Defined.

(** A corpus of one file of 1200000 characters, more than three times
    the character budget, is processed in parallel mode. *)
Definition large_file : filesystem :=
  fun _ => Ok (repeat 120%N (N.to_nat 1200000)).

Lemma large_corpus_is_parallel :
  match read_files_with_chunking large_file large_file [py "large.txt"] with
  | Ok (bundles, mode, _) => mode = parallel /\ length bundles = 2%nat
  | Raise _ => False
  end.
Proof. vm_compute. split; reflexivity. Qed.

(** ** The Reduction Driver: the reduction loop *)

(** *** One cycle *)

Lemma emitted_length (groups : list (list str)) :
  (length (emitted groups) <= length groups)%nat.
Proof.
  unfold emitted. destruct (join (last groups [])); [|lia].
  destruct groups as [|g gs]; [simpl; lia|].
  rewrite (app_removelast_last [] (l := g :: gs)) at 2 by discriminate.
  rewrite length_app. lia.
Qed.

(** When the first result fits the budget, a cycle does not make more
    bundles than it was given results. *)
Lemma combine_results_no_more (results : list str) :
  first_fits chars_of words_of results ->
  (length (combine_results results) <= length results)%nat.
Proof.
  intros F. rewrite (combine_results_greedy_pack results F), length_map.
  etransitivity; [apply emitted_length|].
  destruct results as [|r rest]; [simpl; lia|].
  apply greedy_from_length.
Qed.

(** A packing with as many bundles as units has split every pair of
    neighbours. *)
Lemma greedy_from_all_split {A : Type} (chars words : A -> Z)
  (units : list A) (u0 : A) :
  length (greedy_from chars words [u0] units) = S (length units) ->
  forall before u v after,
    u0 :: units = before ++ u :: v :: after ->
    fits chars words [u; v] = false.
Proof.
  revert u0; induction units as [|u1 rest IH]; intros u0 L before u v after E.
  - destruct before as [|b [|b' before]]; discriminate E.
  - cbn [greedy_from app] in L.
    destruct (fits chars words [u0; u1]) eqn:F.
    + pose proof (greedy_from_length chars words [u0; u1] rest).
      simpl in L. lia.
    + simpl in L. injection L as L.
      destruct before as [|b before].
      * injection E as <- <- _. exact F.
      * injection E as _ E. exact (IH u1 L before u v after E).
Qed.

(** Two neighbours among the results fit the budget together. *)
Definition some_pair_fits (results : list str) : Prop :=
  exists before u v after,
    results = before ++ u :: v :: after
    /\ fits chars_of words_of [u; v] = true.

Lemma combine_results_strictly_fewer (results : list str) :
  first_fits chars_of words_of results ->
  some_pair_fits results ->
  (length (combine_results results) < length results)%nat.
Proof.
  intros F (before & u & v & after & E & P).
  pose proof (combine_results_no_more results F) as LE.
  rewrite (combine_results_greedy_pack results F), length_map in *.
  pose proof (emitted_length (greedy_pack chars_of words_of results)) as EL.
  destruct results as [|r rest]; [destruct before; discriminate E|].
  cbn [greedy_pack] in *.
  pose proof (greedy_from_length chars_of words_of [r] rest) as GL.
  destruct (Nat.eq_dec (length (greedy_from chars_of words_of [r] rest))
                       (S (length rest))) as [Full | NotFull].
  - rewrite (greedy_from_all_split _ _ rest r Full before u v after E) in P.
    discriminate P.
  - simpl length in *. lia.
Qed.

(** No two neighbours among the results fit the budget together. *)
Definition no_pair_fits (results : list str) : Prop :=
  forall before u v after,
    results = before ++ u :: v :: after ->
    fits chars_of words_of [u; v] = false.

Lemma no_pair_fits_tail (r : str) (rest : list str) :
  no_pair_fits (r :: rest) -> no_pair_fits rest.
Proof.
  intros H before u v after E. apply (H (r :: before) u v after).
  rewrite E. reflexivity.
Qed.

(** Where no two neighbours fit together, the packing leaves every
    unit alone. *)
Lemma greedy_from_singletons (units : list str) (u0 : str) :
  no_pair_fits (u0 :: units) ->
  greedy_from chars_of words_of [u0] units = map (fun u => [u]) (u0 :: units).
Proof.
  revert u0; induction units as [|u1 rest IH]; intros u0 H; [reflexivity|].
  cbn [greedy_from app].
  rewrite (H [] u0 u1 rest eq_refl).
  rewrite (IH u1 (no_pair_fits_tail _ _ H)). reflexivity.
Qed.

Lemma fits_with_empty (u : str) :
  fits chars_of words_of [u; []] = fits chars_of words_of [u].
Proof.
  unfold fits. cbn [total]. unfold chars_of, words_of.
  rewrite words_nil. change (len (@nil char)) with 0.
  rewrite !Z.add_0_r. reflexivity.
Qed.

Lemma last_of_unmergeable (results : list str) :
  Forall (fun r => fits chars_of words_of [r] = true) results ->
  no_pair_fits results -> (2 <= length results)%nat ->
  last results [] <> [].
Proof.
  induction results as [|r [|v [|v' rest]] IH]; intros F N L;
    try (cbn in L; lia).
  - cbn [last]. intros ->.
    pose proof (N [] r [] [] eq_refl) as X. rewrite fits_with_empty in X.
    inversion F; subst. congruence.
  - change (last (r :: v :: v' :: rest) []) with (last (v :: v' :: rest) []).
    apply IH.
    + inversion F; assumption.
    + exact (no_pair_fits_tail _ _ N).
    + cbn [length]. lia.
Qed.

Lemma last_singletons (results : list str) :
  last (map (fun u : str => [u]) results) [] =
  match results with
  | [] => []
  | _ :: _ => [last results []]
  end.
Proof.
  induction results as [|r [|v rest] IH]; [reflexivity | reflexivity|].
  change (last (map (fun u : str => [u]) (r :: v :: rest)) [])
    with (last (map (fun u : str => [u]) (v :: rest)) []).
  rewrite IH. reflexivity.
Qed.

(** Two results or more that fit the budget one by one and never two
    neighbours together come back as they are, one bundle each. *)
Lemma combine_results_unreduced (results : list str) :
  Forall (fun r => fits chars_of words_of [r] = true) results ->
  no_pair_fits results -> (2 <= length results)%nat ->
  combine_results results
  = map (fun r => (merge_instruction, r)) results.
Proof.
  intros F N L.
  pose proof (last_of_unmergeable results F N L) as NE.
  destruct results as [|r rest]; [cbn in L; lia|].
  rewrite combine_results_greedy_pack by (inversion F; assumption).
  cbn [greedy_pack]. rewrite (greedy_from_singletons rest r N).
  unfold emitted. rewrite last_singletons.
  unfold join at 1. cbn [concat]. rewrite app_nil_r.
  destruct (last (r :: rest) []) as [|c s] eqn:E; [congruence|].
  rewrite map_map. apply map_ext. intros u.
  unfold merged, join. cbn [concat]. rewrite app_nil_r. reflexivity.
Qed.

(** *** A counterexample to termination

    Two results of 200000 characters each fit the budget one by one but
    not together, and a gateway that answers every bundle with the
    bundle's own text keeps them that way. *)

Definition half_budget : str := repeat 120%N (N.to_nat 200000).

Definition two_halves : list (list str * list str) :=
  [([py "### File: a"], [half_budget]);
   ([py "### File: b"], [half_budget])].

Definition echo : nat -> pyval -> pyval -> result str :=
  fun _ _ chunk => Ok (text_of chunk).

Lemma half_budget_size :
  len half_budget = 200000 /\ len (split half_budget) = 1.
Proof.
  unfold half_budget. rewrite len_repeat. split; [lia|].
  replace (N.to_nat 200000) with (S (N.to_nat 199999)) by lia.
  apply words_repeat. reflexivity.
Qed.

Lemma combine_results_two_halves :
  combine_results [half_budget; half_budget]
  = [(merge_instruction, half_budget); (merge_instruction, half_budget)].
Proof.
  destruct half_budget_size as [HC HW]. destruct budget_values as [MC MW].
  rewrite combine_results_greedy.
  do 2 pack_step. cbn [greedy_from].
  unfold emitted. cbn [last]. unfold join. cbn [concat].
  rewrite app_nil_r.
  destruct half_budget as [|c s] eqn:E; [rewrite len_nil in HC; lia|].
  cbn [map merged]. unfold merged, join. cbn [concat].
  rewrite !app_nil_r. reflexivity.
Qed.

Section Echo.

Variable uniform : nat -> Q.
Variable str_of_list : list str -> str.
Variable schedule : world -> choice.

Lemma echo_answers :
  answers echo (fun _ chunk text => text = text_of chunk).
Proof.
  split.
  - intros k metadata chunk text H. injection H as <-. reflexivity.
  - intros metadata chunk [|k calls] _ L; [discriminate L|].
    exists k, (text_of chunk). split; [left; reflexivity | reflexivity].
Qed.

Lemma echo_round (w : world) :
  exists w',
    process_in_batches echo uniform schedule
      (map as_strs [(merge_instruction, half_budget);
                    (merge_instruction, half_budget)])
      BATCH_SIZE TIME_WINDOW w
    = Some (w', Ok [half_budget; half_budget]).
Proof.
  destruct (process_in_batches_answers echo uniform schedule _
              (map as_strs [(merge_instruction, half_budget);
                            (merge_instruction, half_budget)]) w echo_answers)
    as (w' & texts & H & A).
  exists w'. rewrite H.
  inversion A as [|? t1 ? ts1 H1 A1]; subst.
  inversion A1 as [|? t2 ? ts2 H2 A2]; subst.
  inversion A2; subst. reflexivity.
Qed.

Lemma echo_loop_never_returns (fuel : nat) (w : world) :
  reduce_loop echo uniform schedule fuel
              [(merge_instruction, half_budget);
               (merge_instruction, half_budget)] w = None.
Proof.
  revert w; induction fuel as [|fuel IH]; intros w; [reflexivity|].
  cbn [reduce_loop]. destruct (echo_round w) as (w' & ->).
  rewrite combine_results_two_halves. apply IH.
Qed.

Lemma echo_first_round (w : world) :
  exists w',
    process_in_batches echo uniform schedule (map as_lists two_halves)
                       BATCH_SIZE TIME_WINDOW w
    = Some (w', Ok [half_budget; half_budget]).
Proof.
  destruct (process_in_batches_answers echo uniform schedule _
              (map as_lists two_halves) w echo_answers)
    as (w' & texts & H & A).
  exists w'. rewrite H.
  inversion A as [|? t1 ? ts1 H1 A1]; subst.
  inversion A1 as [|? t2 ? ts2 H2 A2]; subst.
  inversion A2; subst.
  cbn [as_lists fst snd text_of]. unfold join. cbn [concat].
  rewrite !app_nil_r. reflexivity.
Qed.

Lemma echo_never_returns (fuel : nat) (w : world) :
  ask_claude_batch echo uniform str_of_list schedule fuel two_halves parallel w = None.
Proof.
  unfold ask_claude_batch. destruct (echo_first_round w) as (w' & ->).
  rewrite combine_results_two_halves. apply echo_loop_never_returns.
Qed.

End Echo.

(** C1, as stated, fails: every bundle and every result fits the budget,
    a cycle over the two results gives two bundles again, and the loop
    is still running after any number of rounds. *)
Lemma reduction_loop_can_run_forever :
  Forall (fun bundle => within_budget (join (snd bundle))) two_halves
  /\ (forall metadata chunk k, echo k metadata chunk = Ok (text_of chunk))
  /\ length (combine_results [half_budget; half_budget]) = 2%nat
  /\ (forall uniform str_of_list schedule fuel w,
        ask_claude_batch echo uniform str_of_list schedule fuel two_halves parallel w
        = None).
Proof.
  destruct half_budget_size as [HC HW]. destruct budget_values as [MC MW].
  split; [|split; [reflexivity | split]].
  - unfold two_halves, within_budget.
    repeat constructor; cbn [snd]; unfold join; cbn [concat];
      rewrite app_nil_r; lia.
  - rewrite combine_results_two_halves. reflexivity.
  - apply echo_never_returns.
Qed.

(** *** Termination *)

(** A text that is not empty and at most half the budget. *)
Definition half_sized (text : str) : Prop :=
  text <> [] /\ 2 * len text <= MAX_CHARS /\ 2 * len (split text) <= MAX_WORDS.

Lemma half_sized_pair_fits (u v : str) :
  half_sized u -> half_sized v -> fits chars_of words_of [u; v] = true.
Proof.
  intros (_ & Uc & Uw) (_ & Vc & Vw). apply fits_spec.
  cbn [total]. unfold chars_of, words_of. lia.
Qed.

Lemma half_sized_fits (u : str) :
  half_sized u -> fits chars_of words_of [u] = true.
Proof.
  intros (_ & Uc & Uw). apply fits_spec. cbn [total].
  unfold chars_of, words_of.
  pose proof (len_nonneg u). pose proof (len_nonneg (split u)). lia.
Qed.

Lemma combine_results_instruction (results : list str) :
  Forall (fun bundle => fst bundle = merge_instruction)
         (combine_results results).
Proof.
  rewrite combine_results_greedy. apply Forall_forall.
  intros bundle I. apply in_map_iff in I as (g & <- & _). reflexivity.
Qed.

Lemma combine_results_half_sized (results : list str) :
  results <> [] -> Forall half_sized results ->
  (1 <= length (combine_results results) <= length results)%nat
  /\ ((2 <= length results)%nat ->
      (length (combine_results results) < length results)%nat).
Proof.
  intros NE F. destruct results as [|r rest]; [congruence|].
  inversion F as [|? ? Hr Hrest]; subst.
  assert (first_fits chars_of words_of (r :: rest)) as FF
    by exact (half_sized_fits r Hr).
  split; [split|].
  - pose proof (combine_results_join (r :: rest)) as J.
    destruct (combine_results (r :: rest)); [|simpl; lia].
    destruct Hr as (Hne & _). destruct r; [congruence | discriminate J].
  - apply combine_results_no_more. exact FF.
  - intros L. apply combine_results_strictly_fewer; [exact FF|].
    destruct rest as [|r' rest']; [simpl in L; lia|].
    inversion Hrest as [|? ? Hr' _]; subst.
    exists [], r, r', rest'. split; [reflexivity|].
    apply half_sized_pair_fits; assumption.
Qed.

Lemma answered_texts (P : str -> Prop) (units : list (pyval * pyval))
  (texts : list str) :
  answered (fun _ _ text => P text) units texts ->
  length texts = length units /\ Forall P texts.
Proof.
  intros A; induction A as [|u t us ts Ht _ [IHl IHf]]; simpl.
  - split; [reflexivity | constructor].
  - split; [congruence | constructor; assumption].
Qed.

Lemma combine_results_single (results : list str) (bundle : str * str) :
  combine_results results = [bundle] ->
  bundle = (merge_instruction, join results).
Proof.
  intros E. pose proof (combine_results_instruction results) as I.
  pose proof (combine_results_join results) as J. rewrite E in *.
  inversion I as [|? ? Hm _]; subst. destruct bundle as [m c].
  cbn [fst snd map] in *. unfold join at 1 in J. cbn [concat] in J.
  rewrite app_nil_r in J. subst. reflexivity.
Qed.

Section Reduction.

Variable bedrock : nat -> pyval -> pyval -> result str.
Variable uniform : nat -> Q.
Variable schedule : world -> choice.

(** The rounds of [while len(combined_results) != 1], each of them a
    dispatch of the bundles made of the results of the one before:
    [rounds n results w results' w'] when [n] rounds lead from the
    results [results] and the world [w] to the results [results'] and
    the world [w']. *)
Inductive rounds : nat -> list str -> world -> list str -> world -> Prop :=
| rounds_none (results : list str) (w : world) :
    rounds 0 results w results w
| rounds_more (n : nat) (results results1 results' : list str)
              (w w1 w' : world) :
    length (combine_results results) <> 1%nat ->
    process_in_batches bedrock uniform schedule
                       (map as_strs (combine_results results))
                       BATCH_SIZE TIME_WINDOW w
    = Some (w1, Ok results1) ->
    rounds n results1 w1 results' w' ->
    rounds (S n) results w results' w'.

Lemma reduce_loop_one (fuel : nat) (metadata chunk : str) (w : world) :
  reduce_loop bedrock uniform schedule fuel [(metadata, chunk)] w
  = Some (invoke_model_with_retry bedrock uniform (PyStr metadata)
                                  (PyStr chunk) w).
Proof. destruct fuel; reflexivity. Qed.

(** The loop follows the rounds and ends with the final call on the one
    bundle that is left. *)
Lemma reduce_loop_rounds (n : nat) (results results' : list str)
  (w w' : world) (fuel : nat) :
  rounds n results w results' w' ->
  combine_results results' = [(merge_instruction, join results')] ->
  (n <= fuel)%nat ->
  reduce_loop bedrock uniform schedule fuel (combine_results results) w
  = Some (invoke_model_with_retry bedrock uniform (PyStr merge_instruction)
                                  (PyStr (join results')) w').
Proof.
  intros R One; revert fuel;
    induction R as [results w | n results results1 results' w w1 w' G D _ IH];
    intros fuel F.
  - rewrite One. apply reduce_loop_one.
  - destruct fuel as [|fuel]; [lia|].
    destruct (combine_results results) as [|[m c] [|b tail]] eqn:E;
      cbn [length] in G; try congruence;
      cbn [reduce_loop]; rewrite D; apply IH; try exact One; lia.
Qed.

(** Every answer of the gateway is a text that is not empty and at most
    half the budget, and no unit is failed ten times. *)
Hypothesis gateway_ok : answers bedrock (fun _ _ text => half_sized text).

Lemma rounds_terminate (k : nat) (results : list str) (w : world) :
  (length results <= k)%nat ->
  results <> [] -> Forall half_sized results ->
  exists n results' w',
    rounds n results w results' w'
    /\ (n < length results)%nat
    /\ combine_results results' = [(merge_instruction, join results')].
Proof.
  revert results w; induction k as [|k IH]; intros results w K NE F.
  - destruct results; [congruence | cbn in K; lia].
  - destruct (combine_results_half_sized results NE F) as [[K1 Kn] Klt].
    destruct (Nat.eq_dec (length (combine_results results)) 1) as [One | More].
    + exists 0%nat, results, w. split; [constructor|].
      split; [destruct results; [congruence | cbn; lia]|].
      destruct (combine_results results) as [|bundle [|b tail]] eqn:E;
        try discriminate One.
      rewrite (combine_results_single results bundle E). reflexivity.
    + destruct (process_in_batches_answers bedrock uniform schedule _
                  (map as_strs (combine_results results)) w gateway_ok)
        as (w1 & results1 & D & A).
      apply answered_texts in A as [Len Good]. rewrite length_map in Len.
      destruct (IH results1 w1) as (n & results' & w' & R & Lt & One).
      * assert (2 <= length results)%nat as L2 by lia.
        specialize (Klt L2). lia.
      * destruct results1; [cbn in Len; lia | discriminate].
      * exact Good.
      * exists (S n), results', w'.
        split; [exact (rounds_more n results results1 results' w w1 w' More D R)|].
        split; [lia | exact One].
Qed.

End Reduction.

(** C1, amended.  When the first result fits the budget a cycle never
    gives more bundles than results, and it gives strictly fewer as
    soon as two neighbouring results fit the budget together; two
    results or more that fit the budget one by one and never two
    neighbours together come back one bundle each, as many as they
    were.  With a gateway whose every answer is a non-empty text of at
    most half the budget and that does not fail a unit ten times, and
    whatever the order in which the threads of a batch run, the parallel
    branch of [ask_claude_batch] over a non-empty bundle list dispatches
    the bundles, goes through fewer rounds of the loop than there were
    bundles, is then left with exactly one bundle, the instruction to
    merge with the results of the last dispatch put end to end, and
    returns the answer of one final call of the gateway on that
    bundle. *)
Theorem reduction_terminates :
  (forall results : list str,
     first_fits chars_of words_of results ->
     (length (combine_results results) <= length results)%nat)
  /\ (forall results : list str,
        first_fits chars_of words_of results ->
        some_pair_fits results ->
        (length (combine_results results) < length results)%nat)
  /\ (forall results : list str,
        Forall (fun r => fits chars_of words_of [r] = true) results ->
        no_pair_fits results ->
        (2 <= length results)%nat ->
        combine_results results
        = map (fun r => (merge_instruction, r)) results
        /\ length (combine_results results) = length results)
  /\ (forall bedrock uniform str_of_list schedule,
        answers bedrock (fun _ _ text => half_sized text) ->
        forall (context_chunks : list (list str * list str))
               (fuel : nat) (w : world),
          context_chunks <> [] ->
          (length context_chunks <= fuel)%nat ->
          exists (results : list str) (w0 : world) (n : nat)
                 (last_results : list str) (w1 w' : world) (document : str),
            process_in_batches bedrock uniform schedule
                               (map as_lists context_chunks)
                               BATCH_SIZE TIME_WINDOW w
            = Some (w0, Ok results)
            /\ length results = length context_chunks
            /\ rounds bedrock uniform schedule n results w0 last_results w1
            /\ (n < length context_chunks)%nat
            /\ combine_results last_results
               = [(merge_instruction, join last_results)]
            /\ invoke_model_with_retry bedrock uniform
                 (PyStr merge_instruction) (PyStr (join last_results)) w1
               = (w', Ok document)
            /\ ask_claude_batch bedrock uniform str_of_list schedule fuel
                                context_chunks parallel w
               = Some (w', Ok document)).
Proof.
  split; [exact combine_results_no_more|].
  split; [exact combine_results_strictly_fewer|].
  split.
  - intros results F N L.
    rewrite (combine_results_unreduced results F N L).
    split; [reflexivity | apply length_map].
  - intros bedrock uniform str_of_list schedule G context_chunks fuel w NE L.
    destruct (process_in_batches_answers bedrock uniform schedule _
                (map as_lists context_chunks) w G) as (w0 & results & D & A).
    apply answered_texts in A as [Len Good]. rewrite length_map in Len.
    destruct (rounds_terminate bedrock uniform schedule G (length results)
                               results w0 (le_n _))
      as (n & last_results & w1 & R & Lt & One).
    { destruct results; [|discriminate].
      destruct context_chunks; [congruence | discriminate Len]. }
    { exact Good. }
    destruct (invoke_answers bedrock uniform schedule _
                (PyStr merge_instruction) (PyStr (join last_results)) w1 G)
      as (w' & document & Final & _).
    exists results, w0, n, last_results, w1, w', document.
    split; [exact D|]. split; [exact Len|]. split; [exact R|].
    split; [lia|]. split; [exact One|]. split; [exact Final|].
    unfold ask_claude_batch. rewrite D.
    rewrite (reduce_loop_rounds bedrock uniform schedule n results
               last_results w0 w1 fuel R One) by lia.
    rewrite Final. reflexivity.
Qed.

(** A gateway that answers every call with the same short text. *)
Definition summarizer : nat -> pyval -> pyval -> result str :=
  fun _ _ _ => Ok (py "# Documentation").

Definition three_bundles : list (list str * list str) :=
  [([py "### File: a"], [py "import os"]);
   ([py "### File: b"], [py "x = 1"]);
   ([py "### File: c"], [py "y = 2"])].

(** A scheduler that takes the threads of a pool of three from the last
    to the first. *)
Definition last_first : world -> choice :=
  fun w => Advance (2 - Nat.modulo (invocations w) 3).

Lemma reduction_terminates_witness :
  exists w' document,
    ask_claude_batch summarizer (fun _ => 7 # 1) (fun _ => []) last_first 3
                     three_bundles parallel fresh_world
    = Some (w', Ok document).
Proof.
  destruct reduction_terminates as (_ & _ & _ & T).
  destruct (T summarizer (fun _ => 7 # 1) (fun _ => []) last_first) with
    (context_chunks := three_bundles) (fuel := 3%nat) (w := fresh_world)
    as (results & w0 & n & last_results & w1 & w' & document & H).
  - split.
    + intros k metadata chunk text E. injection E as <-.
      split; [discriminate|]. split; vm_compute; discriminate.
    + intros metadata chunk [|k calls] _ L; [discriminate L|].
      exists k, (py "# Documentation"). split; [left|]; reflexivity.
  - discriminate.
  - simpl. lia.
  - exists w', document. apply H.
Defined.

(** * Further properties *)

(** ** The Segmenter, continued *)

Lemma maximal_nth {A : Type} (chars words : A -> Z) (groups : list (list A))
  (i : nat) (g : list A) (u : A) (rest : list A) :
  maximal chars words groups ->
  nth_error groups i = Some g ->
  nth_error groups (S i) = Some (u :: rest) ->
  fits chars words (g ++ [u]) = false.
Proof.
  revert i; induction groups as [|g0 gs IH]; intros i M Hi Hn.
  - destruct i; discriminate Hi.
  - destruct M as [M0 M]. destruct i as [|i].
    + injection Hi as ->. destruct gs as [|g1 gs']; [discriminate Hn|].
      injection Hn as ->. exact M0.
    + exact (IH i M Hi Hn).
Qed.

Lemma greedy_from_tail_nonempty {A : Type} (chars words : A -> Z)
  (bundle units : list A) (i : nat) (g : list A) :
  nth_error (greedy_from chars words bundle units) (S i) = Some g -> g <> [].
Proof.
  revert bundle i; induction units as [|u rest IH]; intros bundle i H.
  - destruct i; discriminate H.
  - cbn [greedy_from] in H. destruct (fits chars words (bundle ++ [u])).
    + exact (IH _ i H).
    + cbn [nth_error] in H.
      pose proof (greedy_from_nonempty chars words [u] rest ltac:(discriminate))
        as NE.
      rewrite Forall_forall in NE. apply NE.
      exact (nth_error_In _ _ H).
Qed.

(** The groups of lines behind the chunks of a file. *)
Definition chunk_groups (lines : list str) : list (list str) :=
  match lines with
  | [] => []
  | _ :: _ => greedy_from chars_of words_of [] lines
  end.

Lemma chunk_lines_groups (file_path : path) (lines : list str) :
  chunk_lines file_path lines = numbered file_path 0 (chunk_groups lines).
Proof.
  destruct lines as [|line rest]; [reflexivity|]. apply chunk_lines_greedy.
Qed.

Lemma chunk_groups_concat (lines : list str) :
  concat (chunk_groups lines) = lines.
Proof.
  destruct lines as [|line rest]; [reflexivity|].
  apply (greedy_from_concat chars_of words_of []).
Qed.

(** X1. [process_file] closes a chunk only on overflow: behind the
    chunks are groups of consecutive lines, and whenever a group is
    followed by another, the next group starts with a line whose
    characters or words, added to those of the group, exceed the
    effective budget. *)
Theorem process_file_closes_on_overflow (fs : filesystem) (file_path : path) :
  exists groups : list (list str),
    map snd (fst (process_file fs file_path)) = map join groups
    /\ concat groups = lines_of fs file_path
    /\ forall (i : nat) (group next : list str),
         nth_error groups i = Some group ->
         nth_error groups (S i) = Some next ->
         exists line rest,
           next = line :: rest
           /\ (total chars_of group + len line > MAX_CHARS
               \/ total words_of group + len (split line) > MAX_WORDS).
Proof.
  unfold process_file, lines_of.
  destruct (fs file_path) as [text | e]; cbn [fst].
  - exists (chunk_groups (readlines text)).
    rewrite chunk_lines_groups, numbered_texts.
    split; [reflexivity|]. split; [apply chunk_groups_concat|].
    intros i group next Hi Hn.
    destruct (readlines text) as [|l ls] eqn:L; [destruct i; discriminate Hi|].
    cbn [chunk_groups] in *.
    pose proof (greedy_from_tail_nonempty _ _ _ _ _ _ Hn) as NE.
    destruct next as [|line rest]; [congruence|].
    exists line, rest. split; [reflexivity|].
    pose proof (maximal_nth chars_of words_of _ i group line rest
                  (greedy_from_maximal chars_of words_of [] (l :: ls)) Hi Hn)
      as F.
    apply fits_false in F. rewrite !total_snoc in F. exact F.
  - exists []. split; [reflexivity|]. split; [reflexivity|].
    intros i group next Hi. destruct i; discriminate Hi.
Qed.

(** X2. A non-empty file whose text is within the effective budget is
    returned as one chunk numbered 1, and the log records one chunk. *)
Theorem process_file_one_chunk_when_fits (fs : filesystem) (file_path : path)
  (text : str) :
  fs file_path = Ok text -> text <> [] -> within_budget text ->
  process_file fs file_path =
  ([(chunk_metadata file_path 1, text)],
   [(INFO, Processing_file file_path); (INFO, File_processed file_path 1)]).
Proof.
  intros R NE W.
  pose proof (process_file_single_chunk fs file_path text R NE W) as S.
  unfold process_file in *. rewrite R in *. cbn [fst] in S.
  rewrite S. reflexivity.
Qed.

Lemma process_file_one_chunk_when_fits_witness :
  process_file two_line_file (py "notes.txt") =
  ([(chunk_metadata (py "notes.txt") 1,
     py "alpha beta" ++ [newline] ++ py "gamma")],
   [(INFO, Processing_file (py "notes.txt"));
    (INFO, File_processed (py "notes.txt") 1)]).
Proof.
  apply (process_file_one_chunk_when_fits two_line_file (py "notes.txt")).
  - reflexivity.
  - discriminate.
  - split; vm_compute; discriminate.
Defined.

Lemma numbered_nth (file_path : path) (groups : list (list str)) (n : Z)
  (i : nat) (chunk : str * str) :
  nth_error (numbered file_path n groups) i = Some chunk ->
  fst chunk = chunk_metadata file_path (n + Z.of_nat i + 1).
Proof.
  revert n i; induction groups as [|g gs IH]; intros n i H.
  - destruct i; discriminate H.
  - destruct i as [|i]; cbn [numbered nth_error] in H.
    + injection H as <-. cbn [fst]. f_equal. lia.
    + rewrite (IH _ _ H). f_equal. lia.
Qed.

(** X3. The chunks of a file are numbered from 1 in order: the chunk
    at position [i] (from 0) carries the metadata
    ["### File: <path>\n### Chunk: <i+1>\n"]. *)
Theorem process_file_numbering (fs : filesystem) (file_path : path)
  (i : nat) (chunk : str * str) :
  nth_error (fst (process_file fs file_path)) i = Some chunk ->
  fst chunk = chunk_metadata file_path (Z.of_nat i + 1).
Proof.
  unfold process_file. destruct (fs file_path) as [text | e]; cbn [fst].
  - rewrite chunk_lines_groups. intros H.
    rewrite (numbered_nth _ _ _ _ _ H). f_equal.
  - destruct i; discriminate.
Qed.

Lemma process_file_numbering_witness :
  nth_error (fst (process_file two_line_file (py "notes.txt"))) 0
  = Some (chunk_metadata (py "notes.txt") 1,
          py "alpha beta" ++ [newline] ++ py "gamma")
  /\ fst (chunk_metadata (py "notes.txt") 1,
          py "alpha beta" ++ [newline] ++ py "gamma")
     = chunk_metadata (py "notes.txt") (Z.of_nat 0 + 1).
Proof.
  assert (nth_error (fst (process_file two_line_file (py "notes.txt"))) 0
          = Some (chunk_metadata (py "notes.txt") 1,
                  py "alpha beta" ++ [newline] ++ py "gamma")) as E
    by reflexivity.
  split; [exact E|].
  exact (process_file_numbering two_line_file (py "notes.txt") 0 _ E).
Defined.

(** ** The Pipeline Controller, continued *)

Lemma process_files_app (fs : filesystem) (before after : list path) :
  process_files fs (before ++ after) =
  (fst (process_files fs before) ++ fst (process_files fs after),
   snd (process_files fs before) ++ snd (process_files fs after)).
Proof.
  induction before as [|p before IH]; cbn [app process_files].
  - destruct (process_files fs after). reflexivity.
  - rewrite IH. destruct (process_file fs p) as [chunks lg].
    destruct (process_files fs before) as [cb lb].
    destruct (process_files fs after) as [ca la].
    cbn [fst snd]. rewrite !app_assoc. reflexivity.
Qed.

(** X4. A file that cannot be read while the files are chunked gives
    no chunk, wherever it stands in the list: the chunks are those of
    the files before it followed by those of the files after it, and
    the log holds its error record between theirs. *)
Theorem process_files_skips_unreadable (fs : filesystem)
  (before : list path) (file_path : path) (after : list path) (e : exn) :
  fs file_path = Raise e ->
  process_files fs (before ++ file_path :: after) =
  (fst (process_files fs before) ++ fst (process_files fs after),
   snd (process_files fs before)
   ++ [(INFO, Processing_file file_path);
       (ERROR, Error_reading_file file_path e)]
   ++ snd (process_files fs after)).
Proof.
  intros R. rewrite process_files_app. cbn [process_files].
  rewrite (process_file_read_error fs file_path e R).
  destruct (process_files fs after) as [ca la]. reflexivity.
Qed.

Lemma process_files_skips_unreadable_witness :
  process_files one_unreadable ([py "a.txt"] ++ py "locked.txt" :: [py "b.txt"])
  = (fst (process_files one_unreadable [py "a.txt"])
     ++ fst (process_files one_unreadable [py "b.txt"]),
     snd (process_files one_unreadable [py "a.txt"])
     ++ [(INFO, Processing_file (py "locked.txt"));
         (ERROR, Error_reading_file (py "locked.txt") (Exception 13))]
     ++ snd (process_files one_unreadable [py "b.txt"])).
Proof.
  apply (process_files_skips_unreadable one_unreadable). reflexivity.
Defined.

(** X5. The pre-scan of [read_files_with_chunking] has no handler: when
    the files before it can be read and a file cannot, the function
    raises that file's exception, and [main] ends with it before any
    gateway call. *)
Theorem prescan_read_error_is_fatal (scan fs : filesystem)
  (before : list path) (file_path : path) (rest : list path) (e : exn) :
  Forall (fun p => exists c, scan p = Ok c) before ->
  scan file_path = Raise e ->
  read_files_with_chunking scan fs (before ++ file_path :: rest) = Raise e
  /\ forall bedrock uniform str_of_list schedule fuel w,
       main bedrock uniform str_of_list schedule fuel scan fs
            (before ++ file_path :: rest) w
       = Some (w, Raise e).
Proof.
  intros F R.
  pose proof (prescan_read_error_aborts scan fs before file_path rest e F R)
    as A.
  split; [exact A|]. intros. unfold main. rewrite A. reflexivity.
Qed.

Lemma prescan_read_error_is_fatal_witness :
  read_files_with_chunking one_unreadable one_unreadable
    ([py "a.txt"] ++ py "locked.txt" :: [py "b.txt"])
  = Raise (Exception 13).
Proof.
  apply (prescan_read_error_is_fatal one_unreadable one_unreadable
           [py "a.txt"] (py "locked.txt") [py "b.txt"] (Exception 13)).
  - constructor; [eexists; reflexivity | constructor].
  - reflexivity.
Defined.

Lemma chunk_lines_join (file_path : path) (lines : list str) :
  join (map snd (chunk_lines file_path lines)) = join lines.
Proof.
  rewrite chunk_lines_groups, numbered_texts, join_map_join,
    chunk_groups_concat.
  reflexivity.
Qed.

Lemma combine_chunks_contents (all_chunks : list (str * str)) :
  concat (map fst (combine_chunks all_chunks)) = map fst all_chunks
  /\ concat (map snd (combine_chunks all_chunks)) = map snd all_chunks.
Proof.
  destruct all_chunks as [|unit rest]; [split; reflexivity|].
  rewrite combine_chunks_greedy.
  destruct (concat_bundles (greedy_from unit_chars unit_words [] (unit :: rest)))
    as [-> ->].
  rewrite (greedy_from_concat unit_chars unit_words []). split; reflexivity.
Qed.

Lemma all_chunks_join (fs : filesystem) (file_paths : list path)
  (contents : list str) :
  Forall2 (fun p c => fs p = Ok c) file_paths contents ->
  join (map snd (concat (map fst (map (process_file fs) file_paths))))
  = join contents.
Proof.
  intros F; induction F as [|p c ps cs Hp _ IH]; [reflexivity|].
  cbn [map concat]. rewrite map_app. unfold join in *.
  rewrite concat_app, IH. cbn [concat]. f_equal.
  unfold process_file. rewrite Hp. cbn [fst].
  pose proof (chunk_lines_join p (readlines c)) as J.
  pose proof (join_readlines c) as L. unfold join in J, L.
  rewrite J. exact L.
Qed.

(** X6. Chunking and bundling together lose nothing: when every file
    can be read, the chunk texts of all the bundles that
    [read_files_with_chunking] returns, put end to end, are the texts of
    the files put end to end in the order of [file_paths], in either
    mode. *)
Theorem read_files_with_chunking_lossless (scan fs : filesystem)
  (file_paths : list path) (scanned contents : list str) :
  Forall2 (fun p c => scan p = Ok c) file_paths scanned ->
  Forall2 (fun p c => fs p = Ok c) file_paths contents ->
  exists bundles mode lg,
    read_files_with_chunking scan fs file_paths = Ok (bundles, mode, lg)
    /\ join (concat (map snd bundles)) = join contents.
Proof.
  intros Fs Fc. unfold read_files_with_chunking.
  rewrite (scan_totals_sum scan file_paths scanned 0 0 Fs).
  rewrite process_files_flat.
  set (mode := select_processing_type _ _).
  exists (combine_chunks
            (concat (map fst (map (process_file fs) file_paths)))),
         mode,
         (concat (map snd (map (process_file fs) file_paths))).
  split; [destruct mode; reflexivity|].
  destruct (combine_chunks_contents
              (concat (map fst (map (process_file fs) file_paths))))
    as [_ ->].
  exact (all_chunks_join fs file_paths contents Fc).
Qed.

Lemma read_files_with_chunking_lossless_witness :
  exists bundles mode lg,
    read_files_with_chunking small_corpus small_corpus [py "a.py"; py "b.py"]
    = Ok (bundles, mode, lg)
    /\ join (concat (map snd bundles))
       = join [py "import os" ++ [newline];
               py "x = 1" ++ [newline] ++ py "y = 2" ++ [newline]].
Proof.
  apply (read_files_with_chunking_lossless small_corpus small_corpus
           [py "a.py"; py "b.py"]
           [py "import os" ++ [newline];
            py "x = 1" ++ [newline] ++ py "y = 2" ++ [newline]]);
    repeat constructor.
Defined.

(** ** The Aggregator, continued *)

Lemma combine_bundle_of (group : list (str * str)) :
  combine (fst (bundle_of group)) (snd (bundle_of group)) = group.
Proof.
  unfold bundle_of. cbn [fst snd].
  induction group as [|[m c] g IH]; [reflexivity|].
  cbn [map combine fst snd]. rewrite IH. reflexivity.
Qed.

(** X7. [combine_chunks] keeps every metadata entry with its chunk: in
    each bundle the two lists have the same length, and pairing them up
    again, bundle after bundle, gives back the input pairs in order. *)
Theorem combine_chunks_keeps_pairs (all_chunks : list (str * str)) :
  Forall (fun bundle => length (fst bundle) = length (snd bundle))
         (combine_chunks all_chunks)
  /\ concat (map (fun bundle => combine (fst bundle) (snd bundle))
                 (combine_chunks all_chunks))
     = all_chunks.
Proof.
  destruct all_chunks as [|unit rest]; [split; [constructor | reflexivity]|].
  rewrite combine_chunks_greedy.
  set (gs := greedy_from unit_chars unit_words [] (unit :: rest)).
  split.
  - apply Forall_forall. intros bundle I.
    apply in_map_iff in I as (g & <- & _).
    unfold bundle_of. cbn [fst snd]. rewrite !length_map. reflexivity.
  - rewrite map_map.
    rewrite (map_ext _ (fun g => g) combine_bundle_of), map_id.
    apply (greedy_from_concat unit_chars unit_words []).
Qed.

Lemma greedy_from_closes_on_overflow {A : Type} (chars words : A -> Z)
  (bundle units : list A) (i : nat) (group next : list A) :
  nth_error (greedy_from chars words bundle units) i = Some group ->
  nth_error (greedy_from chars words bundle units) (S i) = Some next ->
  exists u rest,
    next = u :: rest
    /\ (total chars group + chars u > MAX_CHARS
        \/ total words group + words u > MAX_WORDS).
Proof.
  intros Hi Hn.
  pose proof (greedy_from_tail_nonempty _ _ _ _ _ _ Hn) as NE.
  destruct next as [|u rest]; [congruence|].
  exists u, rest. split; [reflexivity|].
  pose proof (maximal_nth chars words _ i group u rest
                (greedy_from_maximal chars words bundle units) Hi Hn) as F.
  apply fits_false in F. rewrite !total_snoc in F. exact F.
Qed.

(** X8. [combine_chunks] closes a bundle only on overflow: the bundles
    are those of consecutive groups of the input pairs, and whenever a
    group is followed by another, the next group starts with a pair
    whose chunk, added to the group, exceeds the effective character or
    word budget. *)
Theorem combine_chunks_closes_on_overflow (all_chunks : list (str * str)) :
  exists groups : list (list (str * str)),
    combine_chunks all_chunks = map bundle_of groups
    /\ concat groups = all_chunks
    /\ forall (i : nat) (group next : list (str * str)),
         nth_error groups i = Some group ->
         nth_error groups (S i) = Some next ->
         exists unit rest,
           next = unit :: rest
           /\ (total unit_chars group + len (snd unit) > MAX_CHARS
               \/ total unit_words group + len (split (snd unit))
                  > MAX_WORDS).
Proof.
  destruct all_chunks as [|unit rest].
  - exists []. split; [reflexivity|]. split; [reflexivity|].
    intros i group next Hi. destruct i; discriminate Hi.
  - exists (greedy_from unit_chars unit_words [] (unit :: rest)).
    split; [apply combine_chunks_greedy|].
    split; [apply (greedy_from_concat unit_chars unit_words [])|].
    intros i group next Hi Hn.
    exact (greedy_from_closes_on_overflow unit_chars unit_words _ _ i
             group next Hi Hn).
Qed.

Lemma bundles_nonempty (groups : list (list (str * str))) :
  Forall (fun g => g <> []) groups ->
  Forall (fun bundle => snd bundle <> []) (map bundle_of groups).
Proof.
  intros F. apply Forall_forall. intros bundle I.
  apply in_map_iff in I as (g & <- & Ig).
  rewrite Forall_forall in F. specialize (F g Ig).
  destruct g; [congruence | discriminate].
Qed.

(** X9. [combine_chunks] emits a bundle with no chunk in one case only:
    when the first pair alone exceeds the budget, the first bundle is
    empty and the bundles after it, of which there is at least one, are
    not; otherwise no bundle is empty. *)
Theorem combine_chunks_empty_bundle (unit : str * str)
  (rest : list (str * str)) :
  if fits unit_chars unit_words [unit]
  then Forall (fun bundle => snd bundle <> [])
              (combine_chunks (unit :: rest))
  else exists others,
         combine_chunks (unit :: rest) = ([], []) :: others
         /\ others <> []
         /\ Forall (fun bundle => snd bundle <> []) others.
Proof.
  pose proof (greedy_from_nonempty unit_chars unit_words [unit] rest
                ltac:(discriminate)) as NE.
  pose proof (greedy_from_not_nil unit_chars unit_words [unit] rest) as NN.
  destruct (fits unit_chars unit_words [unit]) eqn:F.
  - rewrite combine_chunks_greedy, greedy_from_nil, F.
    apply bundles_nonempty. exact NE.
  - rewrite (combine_chunks_oversize_first unit rest F).
    eexists. split; [reflexivity|]. split.
    + cbn [greedy_pack].
      destruct (greedy_from unit_chars unit_words [unit] rest);
        [congruence | discriminate].
    + apply bundles_nonempty. exact NE.
Qed.

Lemma emitted_incl (groups : list (list str)) (g : list str) :
  In g (emitted groups) -> In g groups.
Proof.
  unfold emitted. destruct (join (last groups [])); [|tauto].
  intros I. destruct groups as [|g0 gs]; [destruct I|].
  rewrite (app_removelast_last [] (l := g0 :: gs)) by discriminate.
  apply in_or_app. left. exact I.
Qed.

(** X10. Every bundle of [combine_results] carries the fixed merge
    instruction, and its merged text is within the effective character
    and word budget unless it is one of the results, unmerged, that
    alone violates the budget. *)
Theorem combine_results_texts_within_budget (results : list str) :
  Forall (fun bundle =>
            fst bundle = merge_instruction
            /\ (within_budget (snd bundle)
                \/ (In (snd bundle) results /\ violates_alone (snd bundle))))
         (combine_results results).
Proof.
  rewrite combine_results_greedy.
  set (gs := greedy_from chars_of words_of [] results).
  assert (concat gs = results) as C
    by apply (greedy_from_concat chars_of words_of []).
  assert (Forall (acceptable chars_of words_of) gs) as A
    by (apply greedy_from_acceptable; left; apply fits_nil).
  apply Forall_forall. intros bundle I.
  apply in_map_iff in I as (g & <- & Ig). apply emitted_incl in Ig.
  split; [reflexivity|]. cbn [merged snd].
  rewrite Forall_forall in A.
  destruct (acceptable_text g (A g Ig)) as [W | (line & -> & J & V)].
  - left. exact W.
  - right. rewrite J. split; [|exact V].
    rewrite <- C. apply in_concat. exists [line].
    split; [exact Ig | left; reflexivity].
Qed.
(** ** The Reduction Driver, continued: batches *)

(** The calls of the gateway that a thread may still make. *)
Definition calls_left (t : thread) : nat :=
  match t with
  | Pending _ _ => 10
  | Calling _ _ attempts => length attempts
  | Drawing _ _ _ rest | Sleeping _ _ _ rest => length rest
  | Finished _ => 0
  end.

Lemma calls_left_split (before : list thread) (t : thread)
  (after : list thread) :
  list_sum (map calls_left (before ++ t :: after))
  = (list_sum (map calls_left before)
     + (calls_left t + list_sum (map calls_left after)))%nat.
Proof. rewrite map_app, list_sum_app. reflexivity. Qed.

Lemma calls_left_submitted (batch : list (pyval * pyval)) :
  list_sum (map calls_left (submitted batch)) = (10 * length batch)%nat.
Proof.
  induction batch as [|unit batch IH]; [reflexivity|].
  change (submitted (unit :: batch))
    with ([] ++ Pending (fst unit) (snd unit) :: submitted batch).
  rewrite calls_left_split, IH.
  change (list_sum (map calls_left [])) with 0%nat.
  cbn [calls_left length]. lia.
Qed.

Section BatchBounds.

Variable bedrock : nat -> pyval -> pyval -> result str.
Variable uniform : nat -> Q.
Variable schedule : world -> choice.

(** A step makes a call only if the thread had one left. *)
Lemma advance_calls (t : thread) (w : world) :
  (invocations (fst (advance bedrock uniform t w))
   + calls_left (snd (advance bedrock uniform t w))
   <= invocations w + calls_left t)%nat.
Proof.
  assert (forall metadata chunk attempts,
             (invocations (fst (call bedrock metadata chunk attempts w))
              + calls_left (snd (call bedrock metadata chunk attempts w))
              <= invocations w + length attempts)%nat) as C.
  { intros metadata chunk [|attempt rest]; cbn [call invoke_model];
      [cbn; lia|].
    destruct (bedrock (invocations w) metadata chunk); [cbn; lia|].
    destruct (attempt <? 10 - 1); cbn; lia. }
  destruct t as [m c | m c attempts | m c attempt rest | m c wt rest | r];
    cbn [advance].
  - exact (C m c (range 10)).
  - exact (C m c attempts).
  - cbn. lia.
  - cbn. lia.
  - cbn. lia.
Qed.

Lemma run_batch_calls (batch : list (pyval * pyval)) (w w' : world)
  (r : result (list str)) :
  run_batch bedrock uniform schedule batch w = Some (w', r) ->
  (invocations w' <= invocations w + 10 * length batch)%nat.
Proof.
  intros H.
  destruct (run_batch_invariant bedrock uniform schedule
              (fun pool w1 =>
                 (invocations w1 + list_sum (map calls_left pool)
                  <= invocations w + 10 * length batch)%nat)
              batch w w' r) as (pool' & B & _).
  - intros before t after w1 L B.
    pose proof (advance_calls t w1) as A.
    rewrite calls_left_split in *. lia.
  - rewrite calls_left_submitted. lia.
  - exact H.
  - lia.
Qed.

Lemma batches_loop_calls (context_chunks : list (pyval * pyval)) (fuel : nat)
  (batch_start : Z) (results : list str) (w : world) :
  0 <= batch_start <= len context_chunks ->
  (Z.to_nat (len context_chunks - batch_start) <= fuel)%nat ->
  exists w' r,
    batches_loop bedrock uniform schedule fuel context_chunks
                 BATCH_SIZE TIME_WINDOW batch_start results w = Some (w', r)
    /\ Z.of_nat (invocations w')
       <= Z.of_nat (invocations w) + 10 * (len context_chunks - batch_start).
Proof.
  revert batch_start results w; induction fuel as [|fuel IH];
    intros batch_start results w Hs Hf.
  - assert (batch_start = len context_chunks) as -> by lia.
    cbn [batches_loop]. rewrite Z.ltb_irrefl.
    eexists _, _. split; [reflexivity | lia].
  - cbn [batches_loop].
    destruct (batch_start <? len context_chunks) eqn:E;
      [|eexists _, _; split; [reflexivity | lia]].
    apply Z.ltb_lt in E.
    set (batch_end := Z.min (batch_start + BATCH_SIZE) (len context_chunks)).
    assert (batch_start < batch_end <= len context_chunks) as Hb
      by (unfold batch_end, BATCH_SIZE; lia).
    pose proof (slice_length _ context_chunks batch_start batch_end
                  ltac:(lia) ltac:(lia)) as SL. unfold len in SL.
    destruct (run_batch_returns bedrock uniform schedule
                (slice context_chunks batch_start batch_end) w)
      as (w1 & r1 & R).
    pose proof (run_batch_calls _ _ _ _ R) as L1. rewrite R.
    destruct r1 as [texts | e].
    + match goal with
      | |- context [batches_loop _ _ _ _ _ _ _ _ ?rs ?w2] =>
          destruct (IH batch_end rs w2 ltac:(lia) ltac:(lia))
            as (w' & r & -> & L2);
            assert (invocations w2 = invocations w1) as Einv
              by (destruct (batch_end <? len context_chunks); reflexivity)
      end.
      exists w', r. split; [reflexivity|]. rewrite Einv in L2. lia.
    + exists w1, (Raise e). split; [reflexivity|]. lia.
Qed.

(** X11. Whatever the gateway does, and in whatever order the threads
    of a batch run, [process_in_batches] with batches of 8 comes back:
    one iteration per chunk is more than the loop needs, and it has
    then made at most 10 gateway calls per chunk. *)
Theorem process_in_batches_call_bound (context_chunks : list (pyval * pyval))
  (w : world) :
  exists w' r,
    process_in_batches bedrock uniform schedule context_chunks
                       BATCH_SIZE TIME_WINDOW w
    = Some (w', r)
    /\ (invocations w' <= invocations w + 10 * length context_chunks)%nat.
Proof.
  unfold process_in_batches.
  destruct (batches_loop_calls context_chunks (length context_chunks) 0 [] w)
    as (w' & r & H & L).
  - pose proof (len_nonneg context_chunks). lia.
  - unfold len. lia.
  - exists w', r. split; [exact H|]. unfold len in L. lia.
Qed.

End BatchBounds.

(** *** A gateway that never fails *)

(** The calls and the sleeps of a trace, in order. *)
Fixpoint invokes (events : list event) : list (pyval * pyval) :=
  match events with
  | [] => []
  | Invoke metadata chunk :: rest => (metadata, chunk) :: invokes rest
  | Sleep _ :: rest => invokes rest
  end.

Fixpoint sleeps (events : list event) : list Q :=
  match events with
  | [] => []
  | Invoke _ _ :: rest => sleeps rest
  | Sleep seconds :: rest => seconds :: sleeps rest
  end.

Lemma invokes_app (a b : list event) : invokes (a ++ b) = invokes a ++ invokes b.
Proof.
  induction a as [|[m c | s] a IH]; cbn [app invokes]; [reflexivity | |];
    rewrite IH; reflexivity.
Qed.

Lemma sleeps_app (a b : list event) : sleeps (a ++ b) = sleeps a ++ sleeps b.
Proof.
  induction a as [|[m c | s] a IH]; cbn [app sleeps]; [reflexivity | |];
    rewrite IH; reflexivity.
Qed.

Definition invoke_of (unit : pyval * pyval) : event :=
  Invoke (fst unit) (snd unit).

Lemma invokes_sent (sent : list (pyval * pyval)) :
  invokes (map invoke_of sent) = sent /\ sleeps (map invoke_of sent) = [].
Proof.
  induction sent as [|[m c] sent [I S]]; [split; reflexivity|].
  cbn [map invoke_of invokes sleeps fst snd]. rewrite I, S.
  split; reflexivity.
Qed.

(** The units of a batch whose call is done. *)
Fixpoint done_units (batch : list (pyval * pyval)) (pool : list thread)
  : list (pyval * pyval) :=
  match batch, pool with
  | unit :: batch', t :: pool' =>
      if live t then done_units batch' pool'
      else unit :: done_units batch' pool'
  | _, _ => []
  end.

Lemma done_units_split (b1 : list (pyval * pyval)) (unit : pyval * pyval)
  (b2 : list (pyval * pyval)) (before : list thread) (t : thread)
  (after : list thread) :
  length b1 = length before ->
  done_units (b1 ++ unit :: b2) (before ++ t :: after)
  = done_units b1 before
    ++ (if live t then [] else [unit]) ++ done_units b2 after.
Proof.
  revert before; induction b1 as [|u b1 IH]; intros [|s before] L;
    try discriminate L.
  - cbn [app done_units]. destruct (live t); reflexivity.
  - injection L as L. cbn [app done_units]. rewrite (IH before L).
    destruct (live s); reflexivity.
Qed.

Section Healthy.

Variable bedrock : nat -> pyval -> pyval -> result str.
Variable uniform : nat -> Q.
Variable schedule : world -> choice.

(** [text] is the answer of one of the calls [sent], numbered from
    [first], and that call was made for [unit]. *)
Definition served (first : nat) (sent : list (pyval * pyval))
  (unit : pyval * pyval) (text : str) : Prop :=
  exists j,
    nth_error sent j = Some unit
    /\ bedrock (first + j) (fst unit) (snd unit) = Ok text.

Lemma served_more (first : nat) (sent more : list (pyval * pyval))
  (unit : pyval * pyval) (text : str) :
  served first sent unit text -> served first (sent ++ more) unit text.
Proof.
  intros (j & N & B). exists j. split; [|exact B].
  rewrite nth_error_app1; [exact N|].
  apply nth_error_Some. rewrite N. discriminate.
Qed.

Lemma served_later (first : nat) (sent more : list (pyval * pyval))
  (unit : pyval * pyval) (text : str) :
  served (first + length sent) more unit text ->
  served first (sent ++ more) unit text.
Proof.
  intros (j & N & B). exists (length sent + j)%nat. split.
  - rewrite nth_error_app2 by lia.
    replace (length sent + j - length sent)%nat with j by lia. exact N.
  - rewrite <- B. f_equal. lia.
Qed.

(** No call of the gateway raises. *)
Hypothesis healthy : forall k metadata chunk,
    exists text, bedrock k metadata chunk = Ok text.

Lemma invoke_healthy (metadata chunk : pyval) (w : world) :
  exists text,
    bedrock (invocations w) metadata chunk = Ok text
    /\ invoke_model_with_retry bedrock uniform metadata chunk w
       = (mkWorld (S (invocations w)) (draws w)
                  (trace w ++ [Invoke metadata chunk]),
          Ok text).
Proof.
  destruct (healthy (invocations w) metadata chunk) as [text H].
  exists text. split; [exact H|].
  apply invoke_model_with_retry_unfold.
  change (seq 0 10) with (seq 0 (0 + S 9)).
  rewrite (retry_loop_succeeds bedrock uniform 0 9 0 metadata chunk text w);
    [ | lia | intros k Hk; lia | rewrite Nat.add_0_r; exact H].
  cbn [failed_attempts app]. f_equal. f_equal; lia.
Qed.

(** In a pool, a call is pending or has been answered at once. *)
Definition in_hand (first : nat) (sent : list (pyval * pyval))
  (unit : pyval * pyval) (t : thread) : Prop :=
  t = Pending (fst unit) (snd unit)
  \/ exists text, t = Finished (Ok text) /\ served first sent unit text.

Definition healthy_pool (w0 : world) (batch : list (pyval * pyval))
  (pool : list thread) (w : world) : Prop :=
  exists sent,
    w = mkWorld (invocations w0 + length sent) (draws w0)
                (trace w0 ++ map invoke_of sent)
    /\ Forall2 (in_hand (invocations w0) sent) batch pool
    /\ Permutation sent (done_units batch pool).

Lemma in_hand_submitted (first : nat) (batch : list (pyval * pyval)) :
  Forall2 (in_hand first []) batch (submitted batch)
  /\ done_units batch (submitted batch) = [].
Proof.
  induction batch as [|unit batch [IH D]]; [split; [constructor | reflexivity]|].
  split; [constructor; [left; reflexivity | exact IH]|].
  cbn [submitted map done_units live]. exact D.
Qed.

Lemma healthy_pool_step (w0 : world) (batch : list (pyval * pyval))
  (before : list thread) (t : thread) (after : list thread) (w : world) :
  live t = true ->
  healthy_pool w0 batch (before ++ t :: after) w ->
  healthy_pool w0 batch
               (before ++ snd (advance bedrock uniform t w) :: after)
               (fst (advance bedrock uniform t w)).
Proof.
  intros L (sent & -> & F & P).
  pose proof F as F0.
  apply Forall2_app_inv_r in F0 as (b1 & b2 & F1 & F2 & ->).
  inversion F2 as [|unit ? b3 ? Ht F3]; subst.
  destruct Ht as [-> | (text & -> & _)]; [|discriminate L].
  cbn [advance]. change (range 10) with (0 :: map Z.of_nat (seq 1 9)).
  cbn [call invoke_model invocations draws trace].
  destruct (healthy (invocations w0 + length sent)%nat (fst unit) (snd unit))
    as [text B].
  rewrite B. cbn [fst snd].
  exists (sent ++ [unit]). split; [|split].
  - rewrite length_app, map_app, <- app_assoc. cbn [length map].
    f_equal. lia.
  - apply (threads_step (in_hand (invocations w0)) (b1 ++ unit :: b3) before
                        (Pending (fst unit) (snd unit)) _ after sent _ F).
    + intros u s [-> | (tx & -> & S)]; [left; reflexivity|].
      right. exists tx. split; [reflexivity | apply served_more; exact S].
    + intros u [E | (tx & E & _)]; [|discriminate E].
      injection E as E1 E2.
      assert (u = unit) as -> by (destruct u, unit; cbn in *; congruence).
      right. exists text. split; [reflexivity|].
      exists (length sent). split.
      * rewrite nth_error_app2 by lia. rewrite Nat.sub_diag. reflexivity.
      * exact B.
  - rewrite (done_units_split b1 unit b3 before _ after (Forall2_length F1)).
    rewrite (done_units_split b1 unit b3 before _ after (Forall2_length F1))
      in P.
    cbn [live app] in *.
    apply Permutation_trans with (unit :: sent);
      [apply Permutation_sym, Permutation_cons_append|].
    apply Permutation_cons_app. exact P.
Qed.

Lemma in_hand_collected (first : nat) (sent batch : list (pyval * pyval))
  (pool : list thread) (r : result (list str)) :
  Forall2 (in_hand first sent) batch pool -> collected pool = Some r ->
  exists texts,
    r = Ok texts
    /\ Forall2 (served first sent) batch texts
    /\ done_units batch pool = batch.
Proof.
  intros F; revert r; induction F as [|unit t batch pool Ht _ IH]; intros r C;
    cbn [collected] in C.
  - injection C as <-. exists []. repeat split. constructor.
  - destruct Ht as [-> | (text & -> & S)]; [discriminate C|].
    destruct (collected pool) as [r'|]; [|discriminate C].
    destruct (IH r' eq_refl) as (texts & -> & Hts & D).
    injection C as <-. exists (text :: texts).
    split; [reflexivity|]. split; [constructor; assumption|].
    cbn [done_units live]. rewrite D. reflexivity.
Qed.

(** With a gateway that never fails every call of the batch is
    answered at its first attempt: one call for each unit, in the order
    that the scheduler chooses. *)
Lemma run_batch_healthy (batch : list (pyval * pyval)) (w : world) :
  exists sent texts,
    run_batch bedrock uniform schedule batch w
    = Some (mkWorld (invocations w + length batch) (draws w)
                    (trace w ++ map invoke_of sent),
            Ok texts)
    /\ Permutation sent batch
    /\ Forall2 (served (invocations w) sent) batch texts.
Proof.
  destruct (run_batch_returns bedrock uniform schedule batch w)
    as (w' & r & H).
  destruct (run_batch_invariant bedrock uniform schedule
              (healthy_pool w batch) batch w w' r)
    as (pool' & (sent & -> & F & P) & C & _).
  - intros before t after w1. apply healthy_pool_step.
  - exists []. destruct (in_hand_submitted (invocations w) batch) as [F D].
    rewrite D. split; [|split; [exact F | constructor]].
    destruct w as [i d tr]. cbn [invocations draws trace length map].
    rewrite app_nil_r. f_equal. lia.
  - exact H.
  - destruct (in_hand_collected _ _ _ _ _ F C) as (texts & -> & S & D).
    rewrite D in P. exists sent, texts.
    rewrite H, (Permutation_length P). repeat split; assumption.
Qed.

Lemma batches_loop_healthy (context_chunks : list (pyval * pyval))
  (fuel : nat) (batch_start : Z) (results : list str) (w : world) :
  0 <= batch_start <= len context_chunks ->
  (Z.to_nat (len context_chunks - batch_start) <= fuel)%nat ->
  exists w' texts events,
    batches_loop bedrock uniform schedule fuel context_chunks
                 BATCH_SIZE TIME_WINDOW batch_start results w
    = Some (w', Ok (results ++ texts))
    /\ Forall2 (served (invocations w) (invokes events))
               (skipn (Z.to_nat batch_start) context_chunks) texts
    /\ Permutation (invokes events)
                   (skipn (Z.to_nat batch_start) context_chunks)
    /\ Z.of_nat (invocations w')
       = Z.of_nat (invocations w) + (len context_chunks - batch_start)
    /\ draws w' = draws w
    /\ trace w' = trace w ++ events
    /\ sleeps events
       = repeat (inject_Z 60)
                (Z.to_nat ((len context_chunks - batch_start - 1) / 8)).
Proof.
  revert batch_start results w; induction fuel as [|fuel IH];
    intros batch_start results w Hs Hf.
  - assert (batch_start = len context_chunks) as -> by lia.
    cbn [batches_loop]. rewrite Z.ltb_irrefl.
    exists w, [], []. rewrite !app_nil_r, skipn_len.
    replace (len context_chunks - len context_chunks - 1) with (-1) by lia.
    repeat split; first [constructor | lia].
  - cbn [batches_loop].
    destruct (batch_start <? len context_chunks) eqn:E.
    + apply Z.ltb_lt in E.
      set (batch_end := Z.min (batch_start + BATCH_SIZE) (len context_chunks)).
      assert (batch_start < batch_end <= len context_chunks) as Hb
        by (unfold batch_end, BATCH_SIZE; lia).
      pose proof (slice_length _ context_chunks batch_start batch_end
                    ltac:(lia) ltac:(lia)) as SL.
      destruct (run_batch_healthy (slice context_chunks batch_start batch_end) w)
        as (sent & texts1 & -> & P1 & S1).
      destruct (invokes_sent sent) as [IC SC].
      pose proof (Permutation_length P1) as PL.
      match goal with
      | |- context [batches_loop _ _ _ _ _ _ _ _ ?rs ?w2] =>
          destruct (IH batch_end rs w2 ltac:(lia) ltac:(lia))
            as (w' & texts2 & events2 & -> & S2 & P2 & I2 & D2 & T2 & SL2)
      end.
      exists w', (texts1 ++ texts2).
      exists (map invoke_of sent
              ++ (if batch_end <? len context_chunks
                  then [Sleep (inject_Z TIME_WINDOW)] else [])
              ++ events2).
      rewrite app_assoc.
      split; [reflexivity|].
      rewrite (slice_from _ context_chunks batch_start batch_end) by lia.
      unfold len in SL.
      assert (invokes (map invoke_of sent
                       ++ (if batch_end <? len context_chunks
                           then [Sleep (inject_Z TIME_WINDOW)] else [])
                       ++ events2)
              = sent ++ invokes events2) as IV.
      { rewrite !invokes_app, IC.
        destruct (batch_end <? len context_chunks); reflexivity. }
      rewrite IV.
      assert (invocations
                (if batch_end <? len context_chunks
                 then time_sleep (inject_Z TIME_WINDOW)
                        (mkWorld
                           (invocations w
                            + length (slice context_chunks batch_start
                                            batch_end))
                           (draws w) (trace w ++ map invoke_of sent))
                 else
                   mkWorld
                     (invocations w
                      + length (slice context_chunks batch_start batch_end))
                     (draws w) (trace w ++ map invoke_of sent))
              = (invocations w + length sent)%nat) as EI
        by (rewrite PL; destruct (batch_end <? len context_chunks);
            reflexivity).
      rewrite EI in S2, I2.
      split.
      { apply Forall2_app.
        - eapply Forall2_impl; [|exact S1].
          intros u t. apply served_more.
        - eapply Forall2_impl; [|exact S2].
          intros u t. apply served_later. }
      split; [apply Permutation_app; assumption|].
      destruct (batch_end <? len context_chunks) eqn:EB;
        [apply Z.ltb_lt in EB | apply Z.ltb_ge in EB];
        unfold time_sleep in *; cbn [invocations draws trace] in *.
      * split; [lia|]. split; [exact D2|].
        split; [rewrite T2, <- !app_assoc; reflexivity|].
        rewrite !sleeps_app, SC, SL2.
        assert (batch_end = batch_start + 8) as EB8
          by (unfold batch_end, BATCH_SIZE in *; lia).
        cbn [sleeps app]. unfold TIME_WINDOW.
        replace (Z.to_nat ((len context_chunks - batch_start - 1) / 8))
          with (S (Z.to_nat ((len context_chunks - batch_end - 1) / 8)));
          [reflexivity|].
        rewrite EB8.
        replace (len context_chunks - batch_start - 1)
          with ((len context_chunks - (batch_start + 8) - 1) + 1 * 8) by lia.
        rewrite Z.div_add by lia.
        assert (0 <= (len context_chunks - (batch_start + 8) - 1) / 8)
          by (apply Z.div_pos; lia).
        lia.
      * split; [lia|]. split; [exact D2|].
        split; [rewrite T2, <- !app_assoc; reflexivity|].
        rewrite !sleeps_app, SC, SL2.
        assert (batch_end = len context_chunks) by lia.
        cbn [sleeps app].
        replace ((len context_chunks - batch_end - 1) / 8) with (-1)
          by (replace (len context_chunks - batch_end - 1) with (-1) by lia;
              reflexivity).
        replace ((len context_chunks - batch_start - 1) / 8) with 0;
          [reflexivity|].
        symmetry. apply Z.div_small.
        unfold batch_end, BATCH_SIZE in *. lia.
    + apply Z.ltb_ge in E.
      assert (batch_start = len context_chunks) as -> by lia.
      exists w, [], []. rewrite !app_nil_r, skipn_len.
      replace (len context_chunks - len context_chunks - 1) with (-1) by lia.
      repeat split; first [constructor | lia].
Qed.

End Healthy.
Lemma process_in_batches_served
  (bedrock : nat -> pyval -> pyval -> result str) (uniform : nat -> Q)
  (schedule : world -> choice)
  (context_chunks : list (pyval * pyval)) (w : world) :
  (forall k metadata chunk, exists text, bedrock k metadata chunk = Ok text) ->
  exists w' texts events,
    process_in_batches bedrock uniform schedule context_chunks
                       BATCH_SIZE TIME_WINDOW w
    = Some (w', Ok texts)
    /\ Forall2 (served bedrock (invocations w) (invokes events))
               context_chunks texts
    /\ Permutation (invokes events) context_chunks
    /\ invocations w' = (invocations w + length context_chunks)%nat
    /\ draws w' = draws w
    /\ trace w' = trace w ++ events
    /\ sleeps events
       = repeat (inject_Z 60) (Z.to_nat ((len context_chunks - 1) / 8)).
Proof.
  intros healthy. unfold process_in_batches.
  destruct (batches_loop_healthy bedrock uniform schedule healthy
              context_chunks (length context_chunks) 0 [] w)
    as (w' & texts & events & H & S & P & I & D & T & SL).
  - pose proof (len_nonneg context_chunks). lia.
  - unfold len. lia.
  - cbn [Z.to_nat skipn app] in *. rewrite Z.sub_0_r in *.
    exists w', texts, events. unfold len in I.
    repeat (split; [first [assumption | lia]|]). exact SL.
Qed.

(** X12. With a gateway that never raises, and in whatever order the
    threads of a batch run, [process_in_batches] returns one text per
    chunk, in the order of the chunks, the text at a position being the
    answer of a call that was made for the chunk at that position; the
    calls it makes are the chunks, each once, in some order; it draws no
    jitter, and sleeps [TIME_WINDOW = 60] seconds once after every batch
    of 8 that is not the last: [(n - 1) / 8] times for [n] chunks. *)
Theorem process_in_batches_healthy
  (bedrock : nat -> pyval -> pyval -> result str) (uniform : nat -> Q)
  (schedule : world -> choice)
  (context_chunks : list (pyval * pyval)) (w : world) :
  (forall k metadata chunk, exists text, bedrock k metadata chunk = Ok text) ->
  exists w' texts events,
    process_in_batches bedrock uniform schedule context_chunks
                       BATCH_SIZE TIME_WINDOW w
    = Some (w', Ok texts)
    /\ length texts = length context_chunks
    /\ (forall i unit,
          nth_error context_chunks i = Some unit ->
          exists text j,
            nth_error texts i = Some text
            /\ nth_error (invokes events) j = Some unit
            /\ bedrock (invocations w + j)%nat (fst unit) (snd unit) = Ok text)
    /\ Permutation (invokes events) context_chunks
    /\ invocations w' = (invocations w + length context_chunks)%nat
    /\ draws w' = draws w
    /\ trace w' = trace w ++ events
    /\ sleeps events
       = repeat (inject_Z 60) (Z.to_nat ((len context_chunks - 1) / 8)).
Proof.
  intros healthy.
  destruct (process_in_batches_served bedrock uniform schedule
              context_chunks w healthy)
    as (w' & texts & events & H & S & P & I & D & T & SL).
  exists w', texts, events.
  split; [exact H|].
  split; [symmetry; exact (Forall2_length S)|].
  split; [|repeat (split; [assumption|]); exact SL].
  clear -S. induction S as [|u t units texts (j & N & B) _ IH];
    intros i unit Hi.
  - destruct i; discriminate Hi.
  - destruct i as [|i]; cbn [nth_error] in *.
    + injection Hi as <-. exists t, j. repeat split; assumption.
    + exact (IH i unit Hi).
Qed.

Definition nine_chunks : list (pyval * pyval) :=
  repeat (PyStr (py "### File: a"), PyStr (py "import os")) 9.

Lemma process_in_batches_healthy_witness :
  exists (w' : world) (texts : list str) (events : list event),
    process_in_batches summarizer (fun _ => 7 # 1) last_first nine_chunks
                       BATCH_SIZE TIME_WINDOW fresh_world
    = Some (w', Ok texts)
    /\ length texts = 9%nat
    /\ trace w' = trace fresh_world ++ events
    /\ sleeps events = [inject_Z 60].
Proof.
  destruct (process_in_batches_healthy summarizer (fun _ => 7 # 1) last_first
              nine_chunks fresh_world)
    as (w' & texts & events & H & L & _ & _ & _ & _ & T & S).
  - intros k metadata chunk. eexists. reflexivity.
  - exists w', texts, events. repeat split; assumption.
Defined.

(** *** One round *)

Lemma total_scaled (size : str -> Z) (texts : list str) (n bound : Z) :
  0 <= bound -> len texts <= n ->
  Forall (fun t => 0 <= size t /\ n * size t <= bound) texts ->
  total size texts <= bound.
Proof.
  intros Hb Hn F.
  assert (n * total size texts <= len texts * bound /\ 0 <= total size texts)
    as [S P].
  { clear Hn. induction F as [|t ts [H0 Ht] _ [IH IP]]; cbn [total].
    - unfold len. cbn [length]. lia.
    - unfold len in *. cbn [length]. lia. }
  pose proof (len_nonneg texts) as L0.
  destruct (Z.eq_dec (len texts) 0) as [Z0 | NZ].
  - apply len_zero_nil in Z0. subst texts. exact Hb.
  - assert (n * total size texts <= n * bound) as M by nia.
    apply (Z.mul_le_mono_pos_l _ _ n); [lia | exact M].
Qed.

Lemma combine_results_one_bundle (texts : list str) :
  fits chars_of words_of texts = true -> join texts <> [] ->
  combine_results texts = [(merge_instruction, join texts)].
Proof.
  intros F NE. rewrite combine_results_greedy.
  rewrite (greedy_from_fits chars_of words_of) with (bundle := []);
    [ | intros u; apply len_nonneg | intros u; apply len_nonneg | exact F].
  unfold emitted. cbn [app last].
  destruct (join texts) eqn:E; [congruence|].
  cbn [map merged]. unfold merged. rewrite E. reflexivity.
Qed.

(** X13. When the gateway never raises and each of its answers is a
    non-empty text small enough for as many answers as there are bundles
    to fit the budget together, the parallel branch needs one round
    only, whatever the fuel and the order in which the threads run: the
    dispatch returns, in the order of the bundles, for each bundle the
    answer of a call made for it; these answers make one bundle, the
    instruction to merge with the answers put end to end in that order;
    and the document is the answer of the one call that follows, on
    that bundle. *)
Theorem one_round_when_answers_fit
  (bedrock : nat -> pyval -> pyval -> result str) (uniform : nat -> Q)
  (str_of_list : list str -> str) (schedule : world -> choice)
  (context_chunks : list (list str * list str)) (fuel : nat) (w : world) :
  context_chunks <> [] ->
  (forall k metadata chunk,
     exists text,
       bedrock k metadata chunk = Ok text
       /\ text <> []
       /\ len context_chunks * len text <= MAX_CHARS
       /\ len context_chunks * len (split text) <= MAX_WORDS) ->
  exists w1 texts events document,
    process_in_batches bedrock uniform schedule (map as_lists context_chunks)
                       BATCH_SIZE TIME_WINDOW w
    = Some (w1, Ok texts)
    /\ trace w1 = trace w ++ events
    /\ Forall2 (served bedrock (invocations w) (invokes events))
               (map as_lists context_chunks) texts
    /\ combine_results texts = [(merge_instruction, join texts)]
    /\ bedrock (invocations w + length context_chunks)%nat
               (PyStr merge_instruction) (PyStr (join texts))
       = Ok document
    /\ ask_claude_batch bedrock uniform str_of_list schedule fuel
                        context_chunks parallel w
       = Some (mkWorld (invocations w + length context_chunks + 1) (draws w)
                       (trace w1
                        ++ [Invoke (PyStr merge_instruction)
                                   (PyStr (join texts))]),
               Ok document).
Proof.
  intros NE H.
  assert (forall k metadata chunk, exists text,
             bedrock k metadata chunk = Ok text) as healthy.
  { intros k m c. destruct (H k m c) as (t & Ht & _). eauto. }
  destruct (process_in_batches_served bedrock uniform schedule
              (map as_lists context_chunks) w healthy)
    as (w1 & texts & events & D & S & _ & I & Dr & T & _).
  pose proof (Forall2_length S) as L. rewrite length_map in L, I.
  assert (Forall (fun t => t <> []
                           /\ len context_chunks * len t <= MAX_CHARS
                           /\ len context_chunks * len (split t) <= MAX_WORDS)
                 texts) as G.
  { clear -S H. induction S as [|u t units texts (j & _ & B) _ IH];
      constructor; [|exact IH].
    destruct (H (invocations w + j)%nat (fst u) (snd u)) as (t' & B' & Good).
    pose proof (eq_trans (eq_sym B) B') as E. injection E as ->.
    exact Good. }
  assert (fits chars_of words_of texts = true) as F.
  { apply fits_spec. split.
    - apply (total_scaled chars_of texts (len context_chunks));
        [apply MAX_CHARS_nonneg | unfold len; lia|].
      eapply Forall_impl; [|exact G]. intros t (_ & Hc & _).
      split; [apply len_nonneg | exact Hc].
    - apply (total_scaled words_of texts (len context_chunks));
        [apply MAX_WORDS_nonneg | unfold len; lia|].
      eapply Forall_impl; [|exact G]. intros t (_ & _ & Hw).
      split; [apply len_nonneg | exact Hw]. }
  assert (join texts <> []) as J.
  { destruct texts as [|t ts];
      [destruct context_chunks; [congruence | discriminate L]|].
    inversion G as [|? ? (Hne & _) _]; subst.
    unfold join. cbn [concat]. destruct t; [congruence | discriminate]. }
  pose proof (combine_results_one_bundle texts F J) as One.
  destruct (invoke_healthy bedrock uniform healthy
              (PyStr merge_instruction) (PyStr (join texts)) w1)
    as (document & Hb & Final).
  rewrite I in Hb.
  exists w1, texts, events, document.
  split; [exact D|]. split; [exact T|]. split; [exact S|].
  split; [exact One|]. split; [exact Hb|].
  unfold ask_claude_batch. rewrite D, One, reduce_loop_one, Final.
  rewrite I, Dr. do 3 f_equal. lia.
Qed.

Lemma one_round_when_answers_fit_witness :
  exists (document : str),
    ask_claude_batch summarizer (fun _ => 7 # 1) (fun _ => []) last_first 0
                     three_bundles parallel fresh_world
    = Some (mkWorld 4 0
              (map invoke_of (map as_lists (rev three_bundles))
               ++ [Invoke (PyStr merge_instruction)
                          (PyStr (py "# Documentation" ++ py "# Documentation"
                                  ++ py "# Documentation"))]),
            Ok document).
Proof.
  destruct (one_round_when_answers_fit summarizer (fun _ => 7 # 1)
              (fun _ => []) last_first three_bundles 0 fresh_world)
    as (w1 & texts & events & document & D & T & _ & _ & _ & A).
  - discriminate.
  - intros k metadata chunk. eexists. split; [reflexivity|].
    split; [discriminate|]. split; vm_compute; discriminate.
  - exists document. rewrite A. clear A.
    vm_compute in D. injection D as <- <-. reflexivity.
Defined.

(** *** Answers with no text *)

Lemma combine_results_all_empty (texts : list str) :
  Forall (fun t => t = []) texts -> combine_results texts = [].
Proof.
  intros F.
  assert (texts = repeat [] (length texts)) as E.
  { induction F as [|t ts Ht _ IH]; [reflexivity|].
    subst t. cbn [length repeat]. f_equal. exact IH. }
  assert (join texts = []) as J by (rewrite E; apply join_repeat_nil).
  assert (fits chars_of words_of texts = true) as Fit.
  { apply fits_spec.
    pose proof (len_join texts) as Lc. pose proof (words_join_le texts) as Lw.
    rewrite J in Lc. rewrite len_nil in Lc.
    assert (total words_of texts = 0) as W0.
    { clear -F. induction F as [|t ts Ht _ IH]; [reflexivity|].
      subst t. cbn [total]. rewrite IH. reflexivity. }
    pose proof MAX_CHARS_nonneg. pose proof MAX_WORDS_nonneg. lia. }
  rewrite combine_results_greedy.
  rewrite (greedy_from_fits chars_of words_of) with (bundle := []);
    [ | intros u; apply len_nonneg | intros u; apply len_nonneg | exact Fit].
  unfold emitted. cbn [app last]. rewrite J. reflexivity.
Qed.

(** X14. When every answer of the gateway is the empty string, and no
    unit is failed ten times, the parallel branch of [ask_claude_batch]
    never returns, whatever the order in which the threads run: the
    empty answers merge into no bundle at all, and the loop waits for
    exactly one bundle with nothing left to send. *)
Theorem empty_answers_never_return
  (bedrock : nat -> pyval -> pyval -> result str) (uniform : nat -> Q)
  (str_of_list : list str -> str) (schedule : world -> choice)
  (context_chunks : list (list str * list str)) (fuel : nat) (w : world) :
  answers bedrock (fun _ _ text => text = []) ->
  ask_claude_batch bedrock uniform str_of_list schedule fuel context_chunks
                   parallel w
  = None.
Proof.
  intros A. unfold ask_claude_batch.
  destruct (process_in_batches_answers bedrock uniform schedule _
              (map as_lists context_chunks) w A) as (w1 & texts & -> & Ans).
  apply answered_texts in Ans as [_ E].
  rewrite (combine_results_all_empty texts E).
  clear -A. revert w1. induction fuel as [|fuel IH]; intros w1; [reflexivity|].
  cbn [reduce_loop map].
  destruct (process_in_batches_answers bedrock uniform schedule _ [] w1 A)
    as (w2 & texts & -> & Ans).
  inversion Ans; subst. apply IH.
Qed.

(** A gateway that answers every call with the empty string. *)
Definition mute : nat -> pyval -> pyval -> result str := fun _ _ _ => Ok [].

Lemma empty_answers_never_return_witness :
  ask_claude_batch mute (fun _ => 7 # 1) (fun _ => []) last_first 5
                   three_bundles parallel fresh_world
  = None.
Proof.
  apply empty_answers_never_return. split.
  - intros k metadata chunk text E. injection E as <-. reflexivity.
  - intros metadata chunk [|k calls] _ L; [discriminate L|].
    exists k, []. split; [left|]; reflexivity.
Defined.
(** *** The sequential relay *)

Section Relay.

Variable bedrock : nat -> pyval -> pyval -> result str.
Variable uniform : nat -> Q.
Variable str_of_list : list str -> str.

(** The two arguments of the call that the sequential branch makes for
    a bundle, given the text returned for the bundle before it. *)
Definition relay_metadata (previous : str) (metadata : list str) : pyval :=
  PyStr (py "### Previous Context:" ++ [newline] ++ previous
         ++ [newline; newline] ++ py "### Current Context:" ++ [newline]
         ++ str_of_list metadata).

Definition relay_chunk (chunk : list str) : pyval := PyStr (str_of_list chunk).

Lemma sequential_loop_app (first second : list (list str * list str))
  (context : str) (w : world) :
  sequential_loop bedrock uniform str_of_list (first ++ second) context w
  = match sequential_loop bedrock uniform str_of_list first context w with
    | (w1, Ok context1) =>
        sequential_loop bedrock uniform str_of_list second context1 w1
    | (w1, Raise e) => (w1, Raise e)
    end.
Proof.
  revert context w; induction first as [|[metadata chunk] first IH];
    intros context w; [reflexivity|].
  cbn [app sequential_loop].
  destruct (invoke_model_with_retry bedrock uniform _ _ w) as [w1 [text|e]];
    [apply IH | reflexivity].
Qed.

(** X16. The sequential branch is a relay: running it over two lists
    of bundles one after the other is running it over the first and,
    unless that raised, over the second from the text the first
    returned; so the text returned for a list that ends with a bundle is
    the answer to one call for that bundle, whose metadata carries the
    text returned for the bundles before it, and an exception stops the
    relay where it is raised. *)
Theorem sequential_relay (first second : list (list str * list str))
  (metadata chunk : list str) (context : str) (w : world) :
  sequential_loop bedrock uniform str_of_list (first ++ second) context w
  = match sequential_loop bedrock uniform str_of_list first context w with
    | (w1, Ok context1) =>
        sequential_loop bedrock uniform str_of_list second context1 w1
    | (w1, Raise e) => (w1, Raise e)
    end
  /\ sequential_loop bedrock uniform str_of_list (first ++ [(metadata, chunk)])
                     context w
     = match sequential_loop bedrock uniform str_of_list first context w with
       | (w1, Ok previous) =>
           invoke_model_with_retry bedrock uniform
             (relay_metadata previous metadata) (relay_chunk chunk) w1
       | (w1, Raise e) => (w1, Raise e)
       end.
Proof.
  split; [apply sequential_loop_app|].
  rewrite sequential_loop_app.
  destruct (sequential_loop bedrock uniform str_of_list first context w)
    as [w1 [previous|e]]; [|reflexivity].
  cbn [sequential_loop]. unfold relay_metadata, relay_chunk.
  destruct (invoke_model_with_retry bedrock uniform _ _ w1) as [w2 [text|e]];
    reflexivity.
Qed.

(** X17. With a gateway that never raises, the sequential branch makes
    exactly one call per bundle and neither draws a jitter nor sleeps. *)
Theorem sequential_healthy (context_chunks : list (list str * list str))
  (context : str) (w : world) :
  (forall k metadata chunk, exists text, bedrock k metadata chunk = Ok text) ->
  exists w' document events,
    sequential_loop bedrock uniform str_of_list context_chunks context w
    = (w', Ok document)
    /\ invocations w' = (invocations w + length context_chunks)%nat
    /\ draws w' = draws w
    /\ trace w' = trace w ++ events
    /\ sleeps events = []
    /\ length (invokes events) = length context_chunks.
Proof.
  intros healthy. revert context w.
  induction context_chunks as [|[metadata chunk] rest IH]; intros context w.
  - exists w, context, []. cbn [sequential_loop length].
    rewrite app_nil_r, Nat.add_0_r. repeat split; reflexivity.
  - cbn [sequential_loop].
    match goal with
    | |- context [invoke_model_with_retry _ _ ?m ?c w] =>
        destruct (invoke_healthy bedrock uniform healthy m c w)
          as (text & _ & ->);
          set (call := Invoke m c)
    end.
    match goal with
    | |- context [sequential_loop _ _ _ rest text ?w1] =>
        destruct (IH text w1) as (w' & document & events & -> & I & D & T & S & C)
    end.
    cbn [invocations draws trace] in *.
    exists w', document, (call :: events).
    split; [reflexivity|]. split; [cbn [length]; lia|]. split; [exact D|].
    split; [rewrite T, <- app_assoc; reflexivity|].
    unfold call. cbn [sleeps invokes length]. split; [exact S | congruence].
Qed.

End Relay.

Lemma sequential_healthy_witness :
  exists (w' : world) (document : str) (events : list event),
    sequential_loop summarizer (fun _ => 7 # 1) (fun _ => []) three_bundles
                    [] fresh_world
    = (w', Ok document)
    /\ invocations w' = 3%nat
    /\ sleeps events = [].
Proof.
  destruct (sequential_healthy summarizer (fun _ => 7 # 1) (fun _ => [])
              three_bundles [] fresh_world)
    as (w' & document & events & H & I & _ & _ & S & _).
  - intros k metadata chunk. eexists. reflexivity.
  - exists w', document, events. repeat split; assumption.
Defined.

(** *** A gateway that always fails *)

Lemma invokes_failed_attempts (uniform : nat -> Q) (metadata chunk : pyval)
  (attempt draw n : nat) :
  invokes (failed_attempts uniform metadata chunk attempt draw n)
  = repeat (metadata, chunk) n.
Proof.
  revert attempt draw; induction n as [|n IH]; intros attempt draw;
    [reflexivity|].
  cbn [failed_attempts invokes repeat]. rewrite IH. reflexivity.
Qed.

(** The calls in [calls], given by their positions among the calls of a
    run, were made for [unit], and they are different calls. *)
Definition made (sent : list (pyval * pyval)) (unit : pyval * pyval)
  (calls : list nat) : Prop :=
  NoDup calls
  /\ (length calls <= length sent)%nat
  /\ Forall (fun i => nth_error sent i = Some unit) calls.

Lemma made_more (sent more : list (pyval * pyval)) (unit : pyval * pyval)
  (calls : list nat) :
  made sent unit calls -> made (sent ++ more) unit calls.
Proof.
  intros (N & L & F). split; [exact N|]. split; [rewrite length_app; lia|].
  eapply Forall_impl; [|exact F]. intros i H.
  rewrite nth_error_app1; [exact H|].
  apply nth_error_Some. rewrite H. discriminate.
Qed.

Lemma made_bound (sent : list (pyval * pyval)) (unit : pyval * pyval)
  (calls : list nat) :
  made sent unit calls -> Forall (fun i => (i < length sent)%nat) calls.
Proof.
  intros (_ & _ & F). eapply Forall_impl; [|exact F]. intros i H.
  apply nth_error_Some. rewrite H. discriminate.
Qed.

Lemma made_next (sent : list (pyval * pyval)) (unit : pyval * pyval)
  (calls : list nat) :
  made sent unit calls -> made (sent ++ [unit]) unit (length sent :: calls).
Proof.
  intros M. pose proof (made_bound _ _ _ M) as B.
  destruct (made_more sent [unit] unit calls M) as (N & L & F).
  split; [|split].
  - constructor; [|exact N]. intros I.
    rewrite Forall_forall in B. specialize (B _ I). lia.
  - rewrite length_app in *. cbn [length] in *. destruct M as (_ & L0 & _).
    lia.
  - constructor; [|exact F].
    rewrite nth_error_app2 by lia. rewrite Nat.sub_diag. reflexivity.
Qed.

Section Down.

Variable bedrock : nat -> pyval -> pyval -> result str.
Variable uniform : nat -> Q.
Variable str_of_list : list str -> str.
Variable schedule : world -> choice.
Variable errors : nat -> exn.

Hypothesis down : forall k metadata chunk,
    bedrock k metadata chunk = Raise (errors k).

Lemma invoke_down (metadata chunk : pyval) (w : world) :
  invoke_model_with_retry bedrock uniform metadata chunk w
  = (mkWorld (invocations w + 10) (draws w + 9)
             (trace w
              ++ failed_attempts uniform metadata chunk 0 (draws w) 9
              ++ [Invoke metadata chunk]),
     Raise (errors (invocations w + 9)%nat)).
Proof.
  apply invoke_model_with_retry_unfold.
  change (seq 0 10) with (seq 0 (9 + 1)).
  rewrite (retry_loop_exhausted bedrock uniform 9 0 metadata chunk
             (fun k => errors (invocations w + k)%nat) w);
    [ | reflexivity | intros k Hk; apply down].
  f_equal. f_equal; lia.
Qed.

(** The events that a step adds to the trace, and the calls among
    them. *)
Lemma advance_trace (t : thread) (w : world) :
  exists events,
    trace (fst (advance bedrock uniform t w)) = trace w ++ events
    /\ invocations (fst (advance bedrock uniform t w))
       = (invocations w + length (invokes events))%nat.
Proof.
  assert (forall metadata chunk attempts,
             exists events,
               trace (fst (call bedrock metadata chunk attempts w))
               = trace w ++ events
               /\ invocations (fst (call bedrock metadata chunk attempts w))
                  = (invocations w + length (invokes events))%nat) as C.
  { intros metadata chunk [|attempt rest]; cbn [call invoke_model].
    - exists []. cbn. rewrite app_nil_r. split; [reflexivity | lia].
    - exists [Invoke metadata chunk].
      destruct (bedrock (invocations w) metadata chunk);
        [|destruct (attempt <? 10 - 1)]; cbn; split;
        first [reflexivity | lia]. }
  destruct t as [m c | m c attempts | m c attempt rest | m c wt rest | r];
    cbn [advance].
  - exact (C m c (range 10)).
  - exact (C m c attempts).
  - exists []. cbn. rewrite app_nil_r. split; [reflexivity | lia].
  - exists [Sleep wt]. cbn. split; [reflexivity | lia].
  - exists []. cbn. rewrite app_nil_r. split; [reflexivity | lia].
Qed.

(** Where the call for the first unit of a batch stands, when [sent]
    are the calls made so far: it is pending, or it has failed fewer
    than ten times, or it has failed ten times and raised the exception
    of the tenth. *)
Definition failing (first : nat) (unit : pyval * pyval)
  (sent : list (pyval * pyval)) (t : thread) : Prop :=
  match t with
  | Pending metadata chunk => (metadata, chunk) = unit
  | Calling metadata chunk rest
  | Drawing metadata chunk _ rest
  | Sleeping metadata chunk _ rest =>
      (metadata, chunk) = unit
      /\ exists calls,
           made sent unit calls
           /\ (length calls < 10)%nat
           /\ rest = attempts_from (length calls)
  | Finished r =>
      exists j earlier,
        r = Raise (errors (first + j)%nat)
        /\ made sent unit (j :: earlier)
        /\ length earlier = 9%nat
        /\ Forall (fun i => (i < j)%nat) earlier
  end.

Definition down_pool (w0 : world) (unit : pyval * pyval)
  (pool : list thread) (w : world) : Prop :=
  exists events,
    trace w = trace w0 ++ events
    /\ invocations w = (invocations w0 + length (invokes events))%nat
    /\ match pool with
       | [] => False
       | t :: _ => failing (invocations w0) unit (invokes events) t
       end.

Lemma failing_more (first : nat) (unit : pyval * pyval)
  (sent more : list (pyval * pyval)) (t : thread) :
  failing first unit sent t -> failing first unit (sent ++ more) t.
Proof.
  destruct t as [m c | m c rest | m c a rest | m c wt rest | r];
    cbn [failing]; try exact (fun H => H).
  - intros [E (calls & M & B & R)]. split; [exact E|].
    exists calls. split; [apply made_more; exact M | split; assumption].
  - intros [E (calls & M & B & R)]. split; [exact E|].
    exists calls. split; [apply made_more; exact M | split; assumption].
  - intros [E (calls & M & B & R)]. split; [exact E|].
    exists calls. split; [apply made_more; exact M | split; assumption].
  - intros (j & earlier & E & M & L & F). exists j, earlier.
    split; [exact E|]. split; [apply made_more; exact M | split; assumption].
Qed.

Lemma failing_call (w0 w : world) (metadata chunk : pyval)
  (events : list event) (calls : list nat) :
  trace w = trace w0 ++ events ->
  invocations w = (invocations w0 + length (invokes events))%nat ->
  made (invokes events) (metadata, chunk) calls ->
  (length calls < 10)%nat ->
  down_pool w0 (metadata, chunk)
    [snd (call bedrock metadata chunk (attempts_from (length calls)) w)]
    (fst (call bedrock metadata chunk (attempts_from (length calls)) w)).
Proof.
  intros T I M B.
  rewrite (attempts_from_cons _ B). cbn [call invoke_model].
  rewrite down.
  pose proof (made_next _ _ _ M) as M'.
  exists (events ++ [Invoke metadata chunk]).
  assert (invokes (events ++ [Invoke metadata chunk])
          = invokes events ++ [(metadata, chunk)]) as IV
    by (rewrite invokes_app; reflexivity).
  destruct (Z.of_nat (length calls) <? 10 - 1) eqn:A;
    [apply Z.ltb_lt in A | apply Z.ltb_ge in A];
    cbn [fst snd trace invocations]; rewrite IV, length_app; cbn [length];
    (split; [rewrite T, app_assoc; reflexivity|]); (split; [lia|]);
    cbn [failing].
  - split; [reflexivity|]. exists (length (invokes events) :: calls).
    split; [exact M'|]. cbn [length]. split; [lia | reflexivity].
  - exists (length (invokes events)), calls.
    split; [rewrite I; reflexivity|]. split; [exact M'|].
    split; [lia|]. exact (made_bound _ _ _ M).
Qed.

Lemma down_pool_head (w0 : world) (unit : pyval * pyval) (t : thread)
  (w : world) :
  live t = true ->
  down_pool w0 unit [t] w ->
  down_pool w0 unit [snd (advance bedrock uniform t w)]
            (fst (advance bedrock uniform t w)).
Proof.
  intros L (events & T & I & F).
  destruct t as [m c | m c rest | m c a rest | m c wt rest | r];
    try discriminate L; cbn [failing advance] in *.
  - subst unit. apply (failing_call w0 w m c events []); try assumption.
    + split; [constructor | split; [cbn; lia | constructor]].
    + cbn. lia.
  - destruct F as [<- (calls & M & B & ->)].
    apply (failing_call w0 w m c events calls); assumption.
  - exists events. cbn [random_uniform fst snd trace invocations failing].
    split; [exact T|]. split; [exact I | exact F].
  - exists (events ++ [Sleep wt]).
    cbn [time_sleep fst snd trace invocations failing].
    rewrite invokes_app. cbn [invokes]. rewrite app_nil_r.
    split; [rewrite T, app_assoc; reflexivity|]. split; [exact I | exact F].
Qed.

Lemma down_pool_step (w0 : world) (unit : pyval * pyval)
  (before : list thread) (t : thread) (after : list thread) (w : world) :
  live t = true ->
  down_pool w0 unit (before ++ t :: after) w ->
  down_pool w0 unit (before ++ snd (advance bedrock uniform t w) :: after)
            (fst (advance bedrock uniform t w)).
Proof.
  intros L D. destruct before as [|h before]; cbn [app] in *.
  - destruct (down_pool_head w0 unit t w L) as (events & T & I & F).
    + destruct D as (events & T & I & F). exists events. auto.
    + exists events. auto.
  - destruct D as (events & T & I & F).
    destruct (advance_trace t w) as (new & T' & I').
    exists (events ++ new). rewrite invokes_app, length_app.
    split; [rewrite T', T, app_assoc; reflexivity|].
    split; [lia|]. apply failing_more. exact F.
Qed.

(** The batch raises the exception of the tenth call that was made for
    its first unit, whatever the scheduler does. *)
Lemma run_batch_down (unit : pyval * pyval) (more : list (pyval * pyval))
  (w : world) :
  exists w' events j earlier,
    run_batch bedrock uniform schedule (unit :: more) w
    = Some (w', Raise (errors (invocations w + j)%nat))
    /\ trace w' = trace w ++ events
    /\ invocations w' = (invocations w + length (invokes events))%nat
    /\ made (invokes events) unit (j :: earlier)
    /\ length earlier = 9%nat
    /\ Forall (fun i => (i < j)%nat) earlier
    /\ (length (invokes events) <= 10 * length (unit :: more))%nat.
Proof.
  destruct (run_batch_returns bedrock uniform schedule (unit :: more) w)
    as (w' & r & H).
  pose proof (run_batch_calls bedrock uniform schedule _ _ _ _ H) as Bound.
  destruct (run_batch_invariant bedrock uniform schedule
              (down_pool w unit) (unit :: more) w w' r)
    as (pool' & (events & T & I & F) & C & _).
  - intros before t after w1. apply down_pool_step.
  - exists []. rewrite app_nil_r. cbn [invokes length submitted map failing].
    split; [reflexivity|]. split; [lia|]. destruct unit; reflexivity.
  - exact H.
  - destruct pool' as [|t pool']; [destruct F|].
    destruct t as [m c | m c rest | m c a rest | m c wt rest | [text|e]];
      try discriminate C; cbn [failing] in F.
    + destruct F as (j & earlier & E & _). discriminate E.
    + destruct F as (j & earlier & E & M & L & Lt).
      cbn [collected] in C. injection C as <-. injection E as ->.
      exists w', events, j, earlier. rewrite H.
      repeat (split; [first [reflexivity | assumption]|]). lia.
Qed.

Lemma parallel_down (unit : pyval * pyval) (rest : list (pyval * pyval))
  (w : world) :
  exists w' events j earlier,
    process_in_batches bedrock uniform schedule (unit :: rest)
                       BATCH_SIZE TIME_WINDOW w
    = Some (w', Raise (errors (invocations w + j)%nat))
    /\ trace w' = trace w ++ events
    /\ invocations w' = (invocations w + length (invokes events))%nat
    /\ made (invokes events) unit (j :: earlier)
    /\ length earlier = 9%nat
    /\ Forall (fun i => (i < j)%nat) earlier
    /\ (length (invokes events) <= 80)%nat.
Proof.
  unfold process_in_batches. cbn [length batches_loop].
  assert ((0 <? len (unit :: rest)) = true) as ->
    by (apply Z.ltb_lt; rewrite len_cons; pose proof (len_nonneg rest); lia).
  pose proof (slice_length _ (unit :: rest) 0
                (Z.min (0 + BATCH_SIZE) (len (unit :: rest)))) as SL.
  assert (exists more,
             slice (unit :: rest) 0
                   (Z.min (0 + BATCH_SIZE) (len (unit :: rest)))
             = unit :: more) as [more E].
  { unfold slice. cbn [Z.to_nat skipn].
    rewrite len_cons. pose proof (len_nonneg rest).
    destruct (Z.to_nat (Z.min (0 + BATCH_SIZE) (1 + len rest) - 0)) eqn:E;
      [unfold BATCH_SIZE in E; lia|].
    cbn [firstn]. eauto. }
  rewrite E in *.
  destruct (run_batch_down unit more w)
    as (w' & events & j & earlier & -> & T & I & M & L & Lt & B).
  exists w', events, j, earlier.
  repeat (split; [first [reflexivity | assumption]|]).
  rewrite len_cons in SL. pose proof (len_nonneg rest).
  unfold BATCH_SIZE, len in SL. cbn [length] in *. lia.
Qed.

End Down.

(** The arguments of the first call for the first bundle, in either
    mode. *)
Definition first_call (str_of_list : list str -> str)
  (PROCESSING_TYPE : processing_type) (metadata chunk : list str)
  : pyval * pyval :=
  match PROCESSING_TYPE with
  | sequential =>
      (relay_metadata str_of_list [] metadata, relay_chunk str_of_list chunk)
  | parallel => as_lists (metadata, chunk)
  end.

(** X15. When every call of the gateway raises, [ask_claude_batch] over
    a non-empty bundle list raises in both modes, and in parallel mode
    whatever the order in which the threads run: the exception is that
    of a call made for the first bundle, after nine other calls made
    for it, its tenth attempt.  In sequential mode these are the only
    calls, 10 in all, and no later bundle is sent; in parallel mode the
    first batch alone is dispatched, with at most 80 calls. *)
Theorem gateway_down_is_fatal
  (bedrock : nat -> pyval -> pyval -> result str) (uniform : nat -> Q)
  (str_of_list : list str -> str) (schedule : world -> choice)
  (errors : nat -> exn)
  (metadata chunk : list str) (rest : list (list str * list str))
  (PROCESSING_TYPE : processing_type) (fuel : nat) (w : world) :
  (forall k metadata chunk, bedrock k metadata chunk = Raise (errors k)) ->
  exists w' events j earlier,
    ask_claude_batch bedrock uniform str_of_list schedule fuel
                     ((metadata, chunk) :: rest) PROCESSING_TYPE w
    = Some (w', Raise (errors (invocations w + j)%nat))
    /\ trace w' = trace w ++ events
    /\ invocations w' = (invocations w + length (invokes events))%nat
    /\ nth_error (invokes events) j
       = Some (first_call str_of_list PROCESSING_TYPE metadata chunk)
    /\ length earlier = 9%nat
    /\ NoDup earlier
    /\ Forall (fun i =>
                 (i < j)%nat
                 /\ nth_error (invokes events) i
                    = Some (first_call str_of_list PROCESSING_TYPE
                                       metadata chunk))
              earlier
    /\ (PROCESSING_TYPE = sequential -> length (invokes events) = 10%nat)
    /\ (PROCESSING_TYPE = parallel -> (length (invokes events) <= 80)%nat).
Proof.
  intros down. unfold ask_claude_batch. destruct PROCESSING_TYPE.
  - cbn [sequential_loop first_call].
    fold (relay_metadata str_of_list [] metadata).
    fold (relay_chunk str_of_list chunk).
    rewrite (invoke_down bedrock uniform errors down).
    set (m := relay_metadata str_of_list [] metadata).
    set (c := relay_chunk str_of_list chunk).
    eexists _, _, 9%nat, (seq 0 9). split; [reflexivity|].
    cbn [trace invocations].
    rewrite invokes_app, invokes_failed_attempts.
    split; [reflexivity|]. split; [reflexivity|]. split; [reflexivity|].
    split; [reflexivity|]. split; [apply seq_NoDup|].
    split; [|split; [reflexivity | discriminate]].
    apply Forall_forall. intros i Hi. apply in_seq in Hi.
    split; [lia|].
    do 9 (destruct i as [|i]; [reflexivity|]). lia.
  - cbn [map first_call].
    destruct (parallel_down bedrock uniform schedule errors down
                            (as_lists (metadata, chunk)) (map as_lists rest) w)
      as (w' & events & j & earlier & -> & T & I & (N & _ & F) & L & Lt & B).
    exists w', events, j, earlier.
    split; [reflexivity|]. split; [exact T|]. split; [exact I|].
    inversion F as [|? ? Hj Hearlier]; subst.
    inversion N as [|? ? _ Nearlier]; subst.
    split; [exact Hj|]. split; [exact L|]. split; [exact Nearlier|].
    split; [|split; [discriminate | intros _; exact B]].
    apply Forall_forall. intros i Hi.
    rewrite Forall_forall in Lt, Hearlier. auto.
Qed.

(** A gateway whose every call raises. *)
Definition unreachable : nat -> pyval -> pyval -> result str :=
  fun k _ _ => Raise (Exception (N.of_nat k)).

(** A scheduler that lets the first thread make its ten attempts and
    then has the main thread cancel what is pending. *)
Definition first_then_cancel : world -> choice :=
  fun w => if (invocations w <? 10)%nat then Advance 0 else Cancel.

Lemma gateway_down_is_fatal_witness :
  exists w',
    ask_claude_batch unreachable (fun _ => 7 # 1) (fun _ => [])
                     first_then_cancel 3 three_bundles parallel fresh_world
    = Some (w', Raise (Exception 9))
    /\ invocations w' = 10%nat.
Proof.
  destruct (gateway_down_is_fatal unreachable (fun _ => 7 # 1) (fun _ => [])
              first_then_cancel (fun k => Exception (N.of_nat k))
              [py "### File: a"] [py "import os"]
              [([py "### File: b"], [py "x = 1"]);
               ([py "### File: c"], [py "y = 2"])]
              parallel 3 fresh_world)
    as (w' & events & j & earlier & H & _).
  - reflexivity.
  - exists w'. change three_bundles
      with [([py "### File: a"], [py "import os"]);
            ([py "### File: b"], [py "x = 1"]);
            ([py "### File: c"], [py "y = 2"])].
    revert H. vm_compute. intros H. injection H as <- _. split; reflexivity.
Defined.

(** ** The Model Gateway, continued *)

(** *** The prompt of [invoke_model] *)

(** [f"{x}"] for an argument of [invoke_model]: a string as it is, a
    list through [str]. *)
Definition formatted (str_of_list : list str -> str) (v : pyval) : str :=
  match v with
  | PyStr s => s
  | PyList l => str_of_list l
  end.

(** The eight spaces that indent the lines of the f-string. *)
Definition indent : str := py "        ".

(** The f-string [prompt] of [invoke_model]. *)
Definition prompt (str_of_list : list str -> str) (metadata chunk : pyval)
  : str :=
  [newline] ++ indent ++ INSTRUCTION_PROMPT ++ [newline]
  ++ [newline]
  ++ indent ++ py "### Context:" ++ [newline]
  ++ indent ++ formatted str_of_list metadata ++ [newline]
  ++ indent ++ formatted str_of_list chunk ++ [newline]
  ++ indent.

Lemma nwords_app_sep (inword : bool) (a b : str) (c : char) :
  isspace c = true ->
  nwords inword (a ++ c :: b) = (nwords inword a + nwords false b)%nat.
Proof.
  intros Hc; revert inword; induction a as [|x a IH]; intros inword;
    cbn [app nwords].
  - rewrite Hc. destruct inword; lia.
  - destruct (isspace x); rewrite IH; lia.
Qed.

Lemma words_app_sep (a b : str) (c : char) :
  isspace c = true ->
  len (split (a ++ c :: b)) = len (split a) + len (split b).
Proof.
  intros Hc. rewrite !words_nwords, (nwords_app_sep false a b c Hc). lia.
Qed.

Lemma words_space (b : str) (c : char) :
  isspace c = true -> len (split (c :: b)) = len (split b).
Proof. intros Hc. rewrite !words_nwords. cbn [nwords]. rewrite Hc. lia. Qed.

Lemma words_indent (b : str) : len (split (indent ++ b)) = len (split b).
Proof.
  unfold indent. cbn [py app N_of_ascii].
  rewrite !words_space by reflexivity. reflexivity.
Qed.

Lemma template_size (instruction m c : str) :
  len ([newline] ++ indent ++ instruction ++ [newline]
       ++ [newline]
       ++ indent ++ py "### Context:" ++ [newline]
       ++ indent ++ m ++ [newline]
       ++ indent ++ c ++ [newline]
       ++ indent)
  = len instruction + len m + len c + 58
  /\ len (split ([newline] ++ indent ++ instruction ++ [newline]
                 ++ [newline]
                 ++ indent ++ py "### Context:" ++ [newline]
                 ++ indent ++ m ++ [newline]
                 ++ indent ++ c ++ [newline]
                 ++ indent))
     = len (split instruction) + len (split m) + len (split c) + 2.
Proof.
  split.
  - rewrite !len_app.
    change (len indent) with 8. change (len [newline]) with 1.
    change (len (py "### Context:")) with 12. lia.
  - cbn [app].
    rewrite words_space by reflexivity.
    rewrite words_indent.
    rewrite (words_app_sep instruction _ newline) by reflexivity.
    rewrite words_space by reflexivity.
    rewrite words_indent.
    rewrite (words_app_sep (py "### Context:") _ newline) by reflexivity.
    rewrite words_indent.
    rewrite (words_app_sep m _ newline) by reflexivity.
    rewrite words_indent.
    rewrite (words_app_sep c _ newline) by reflexivity.
    change (len (split (py "### Context:"))) with 2.
    change (len (split indent)) with 0. lia.
Qed.

(** X18. The prompt that [invoke_model] sends is the instruction, the
    metadata and the chunk plus 58 characters of template, and its words
    are theirs plus the two of ["### Context:"]: the template and the
    metadata come on top of what the budget counts. *)
Theorem prompt_size (str_of_list : list str -> str) (metadata chunk : pyval) :
  len (prompt str_of_list metadata chunk)
  = INSTRUCTION_CHARS + len (formatted str_of_list metadata)
    + len (formatted str_of_list chunk) + 58
  /\ len (split (prompt str_of_list metadata chunk))
     = INSTRUCTION_WORDS + len (split (formatted str_of_list metadata))
       + len (split (formatted str_of_list chunk)) + 2.
Proof.
  assert (len INSTRUCTION_PROMPT = INSTRUCTION_CHARS) as LI
    by (vm_compute; reflexivity).
  assert (len (split INSTRUCTION_PROMPT) = INSTRUCTION_WORDS) as WI
    by (vm_compute; reflexivity).
  unfold prompt. rewrite <- LI, <- WI. apply template_size.
Qed.

(** *** How long a call can wait *)

(** The seconds slept in a trace. *)
Definition slept (events : list event) : Q :=
  fold_right Qplus 0%Q (sleeps events).

(** The most that the retry loop can sleep over the attempts still to
    come, when no jitter exceeds 10 seconds: after every failed attempt
    but the tenth, [30 * 2 ** attempt + 10]. *)
Fixpoint wait_budget (attempts : list Z) : Q :=
  match attempts with
  | [] => 0
  | attempt :: rest =>
      if attempt <? 10 - 1
      then (inject_Z (30 * 2 ^ attempt) + 10 + wait_budget rest)%Q
      else 0
  end.

Lemma slept_app (a b : list event) : (slept (a ++ b) == slept a + slept b)%Q.
Proof.
  unfold slept. rewrite sleeps_app.
  induction (sleeps a) as [|s l IH]; cbn [app fold_right].
  - ring.
  - rewrite IH. ring.
Qed.

Lemma wait_budget_nonneg (attempts : list Z) :
  Forall (fun a => 0 <= a) attempts -> (0 <= wait_budget attempts)%Q.
Proof.
  intros F; induction F as [|a rest Ha _ IH]; cbn [wait_budget].
  - apply Qle_refl.
  - destruct (a <? 10 - 1); [|apply Qle_refl].
    assert (0 <= inject_Z (30 * 2 ^ a))%Q as P.
    { change 0%Q with (inject_Z 0). rewrite <- Zle_Qle.
      pose proof (Z.pow_nonneg 2 a ltac:(lia)). lia. }
    assert (0 <= 10)%Q as T by discriminate.
    pose proof (Qplus_le_compat _ _ _ _ (Qplus_le_compat _ _ _ _ P T) IH) as S.
    rewrite !Qplus_0_l in S. exact S.
Qed.

Section WaitBound.

Variable bedrock : nat -> pyval -> pyval -> result str.
Variable uniform : nat -> Q.

Hypothesis jitter_at_most_10 : forall k, (uniform k <= 10)%Q.

Lemma retry_loop_wait (attempts : list Z) (metadata chunk : pyval) (w : world) :
  Forall (fun a => 0 <= a) attempts ->
  exists events,
    trace (fst (retry_loop bedrock uniform attempts metadata chunk 10 2 30 w))
    = trace w ++ events
    /\ (slept events <= wait_budget attempts)%Q
    /\ (length (sleeps events)
        <= length (filter (fun a => (a <? 10 - 1)%Z) attempts))%nat.
Proof.
  intros F; revert w; induction F as [|a rest Ha F IH]; intros w.
  - exists []. cbn [retry_loop fst]. rewrite app_nil_r.
    split; [reflexivity|]. split; [apply Qle_refl | cbn; lia].
  - cbn [retry_loop invoke_model wait_budget filter].
    destruct (bedrock (invocations w) metadata chunk) as [text | e].
    + exists [Invoke metadata chunk]. cbn [fst trace].
      split; [reflexivity|]. split; [|cbn; lia].
      change (slept [Invoke metadata chunk]) with 0%Q.
      destruct (a <? 10 - 1) eqn:E; [|apply Qle_refl].
      pose proof (wait_budget_nonneg (a :: rest) (Forall_cons a Ha F)) as NN.
      cbn [wait_budget] in NN. rewrite E in NN. exact NN.
    + destruct (a <? 10 - 1) eqn:E.
      * unfold random_uniform, time_sleep. cbn [invocations draws trace].
        match goal with
        | |- context [retry_loop _ _ rest _ _ _ _ _ ?w1] =>
            destruct (IH w1) as (events & T & S & L)
        end.
        cbn [trace] in T.
        exists ([Invoke metadata chunk;
                 Sleep (inject_Z (30 * 2 ^ a) + uniform (draws w))%Q]
                ++ events).
        split; [rewrite T, <- !app_assoc; reflexivity|].
        split; [|rewrite sleeps_app, length_app; cbn [sleeps app length]; lia].
        rewrite slept_app.
        change (slept [Invoke metadata chunk;
                       Sleep (inject_Z (30 * 2 ^ a) + uniform (draws w))%Q])
          with (inject_Z (30 * 2 ^ a) + uniform (draws w) + 0)%Q.
        rewrite Qplus_0_r.
        apply Qplus_le_compat; [|exact S].
        apply Qplus_le_compat; [apply Qle_refl | apply jitter_at_most_10].
      * exists [Invoke metadata chunk]. cbn [fst trace].
        split; [reflexivity|]. split; [apply Qle_refl | cbn; lia].
Qed.

End WaitBound.

(** X19. When no jitter exceeds 10 seconds, one call of
    [invoke_model_with_retry] sleeps at most 9 times and at most 15420
    seconds in all, whatever the gateway does: 30 x (2^9 - 1) seconds of
    backoff and 9 x 10 of jitter. *)
Theorem retry_wait_bound (bedrock : nat -> pyval -> pyval -> result str)
  (uniform : nat -> Q) (metadata chunk : pyval) (w : world) :
  (forall k, (uniform k <= 10)%Q) ->
  exists events,
    trace (fst (invoke_model_with_retry bedrock uniform metadata chunk w))
    = trace w ++ events
    /\ (slept events <= 15420)%Q
    /\ (length (sleeps events) <= 9)%nat.
Proof.
  intros J.
  destruct (retry_loop_wait bedrock uniform J (range 10) metadata chunk w)
    as (events & T & S & L).
  - unfold range. apply Forall_forall. intros a Ha.
    apply in_map_iff in Ha as (n & <- & _). lia.
  - exists events. split; [|split].
    + unfold invoke_model_with_retry, invoke_model_with_retry_args.
      destruct (retry_loop bedrock uniform (range 10) metadata chunk 10 2 30 w)
        as [w' [r|]]; exact T.
    + eapply Qle_trans; [exact S|]. vm_compute. discriminate.
    + exact L.
Qed.

Lemma retry_wait_bound_witness :
  exists events,
    trace (fst (invoke_model_with_retry unreachable (fun _ => 7 # 1)
                  (PyStr (py "m")) (PyStr (py "c")) fresh_world))
    = trace fresh_world ++ events
    /\ (slept events <= 15420)%Q
    /\ (length (sleeps events) <= 9)%nat.
Proof.
  apply retry_wait_bound. intros k. vm_compute. discriminate.
Defined.

(** ** The file list of [read_files_with_chunking] *)

(** [s.startswith(prefix)], [s.endswith(suffix)] and [needle in s]. *)
Fixpoint startswith (s prefix : str) : bool :=
  match prefix, s with
  | [], _ => true
  | _ :: _, [] => false
  | p :: prefix', c :: s' => (c =? p)%N && startswith s' prefix'
  end.

Definition endswith (s suffix : str) : bool :=
  startswith (rev s) (rev suffix).

Fixpoint contains (s needle : str) : bool :=
  startswith s needle
  || match s with
     | [] => false
     | _ :: s' => contains s' needle
     end.

(** [os.path.join(a, b)] of [posixpath]. *)
Definition os_path_join (a b : str) : str :=
  if startswith b (py "/") then b
  else if match a with [] => true | _ :: _ => endswith a (py "/") end
       then a ++ b
       else a ++ py "/" ++ b.

(** The test on a file name: [(not file_extensions or any(file.endswith(ext)
    for ext in file_extensions)) and file not in exclude_files]. *)
Definition wanted (file_extensions exclude_files : list str) (file : str)
  : bool :=
  (match file_extensions with [] => true | _ :: _ => false end
   || existsb (endswith file) file_extensions)
  && negb (existsb (str_eqb file) exclude_files).

(** The test on a directory: [not any(folder in root for folder in
    exclude_folders)]. *)
Definition kept (exclude_folders : list str) (root : str) : bool :=
  negb (existsb (contains root) exclude_folders).

(** The list comprehension that builds [file_paths] from the triples
    [(root, dirs, files)] of [os.walk(directory)]. *)
Definition list_files (walk : list (str * list str * list str))
  (file_extensions exclude_folders exclude_files : list str) : list path :=
  flat_map
    (fun entry =>
       let '(root, dirs, files) := entry in
       if kept exclude_folders root
       then flat_map
              (fun file =>
                 if wanted file_extensions exclude_files file
                 then [os_path_join root file] else [])
              files
       else [])
    walk.

Lemma startswith_app (s t prefix : str) :
  startswith s prefix = true -> startswith (s ++ t) prefix = true.
Proof.
  revert s; induction prefix as [|p prefix IH]; intros s H.
  - destruct (s ++ t); reflexivity.
  - destruct s as [|c s]; [discriminate H|].
    cbn [app startswith] in *. apply andb_true_iff in H as [H1 H2].
    rewrite H1, (IH s H2). reflexivity.
Qed.

Lemma endswith_app (a b suffix : str) :
  endswith b suffix = true -> endswith (a ++ b) suffix = true.
Proof.
  unfold endswith. rewrite rev_app_distr. apply startswith_app.
Qed.

Lemma contains_app (s t needle : str) :
  contains s needle = true -> contains (s ++ t) needle = true.
Proof.
  induction s as [|c s IH]; intros H.
  - cbn [contains] in H. rewrite orb_false_r in H.
    destruct needle; [|discriminate H].
    destruct t; reflexivity.
  - cbn [app contains] in *. apply orb_true_iff in H as [H | H];
      apply orb_true_iff.
    + left. exact (startswith_app (c :: s) t needle H).
    + right. exact (IH H).
Qed.

Lemma os_path_join_endswith (root file suffix : str) :
  endswith file suffix = true -> endswith (os_path_join root file) suffix = true.
Proof.
  intros H. unfold os_path_join.
  destruct (startswith file (py "/")); [exact H|].
  destruct (match root with [] => true | _ :: _ => endswith root (py "/") end).
  - apply endswith_app. exact H.
  - rewrite app_assoc. apply endswith_app. exact H.
Qed.

(** X20. When extensions are given, every path of the file list ends
    with one of them. *)
Theorem list_files_extensions (walk : list (str * list str * list str))
  (file_extensions exclude_folders exclude_files : list str) (p : path) :
  file_extensions <> [] ->
  In p (list_files walk file_extensions exclude_folders exclude_files) ->
  exists ext, In ext file_extensions /\ endswith p ext = true.
Proof.
  intros NE I. unfold list_files in I.
  apply in_flat_map in I as ([[root dirs] files] & _ & I).
  destruct (kept exclude_folders root); [|destruct I].
  apply in_flat_map in I as (file & _ & I).
  destruct (wanted file_extensions exclude_files file) eqn:W; [|destruct I].
  destruct I as [<- | []].
  unfold wanted in W. apply andb_true_iff in W as [W _].
  destruct file_extensions as [|e es]; [congruence|].
  cbn [orb] in W. apply existsb_exists in W as (ext & Ie & He).
  exists ext. split; [exact Ie|].
  apply os_path_join_endswith. exact He.
Qed.

Definition sample_walk : list (str * list str * list str) :=
  [(py "/repo", [py "src"; py "docs"], [py "main.py"; py "README.md"]);
   (py "/repo/src", [], [py "util.py"; py "notes.txt"]);
   (py "/repo/docs", [], [py "guide.py"])].

Lemma list_files_extensions_witness :
  In (py "/repo/src/util.py")
     (list_files sample_walk [py ".py"] [py "docs"] [py "README.md"])
  /\ exists ext, In ext [py ".py"]
                 /\ endswith (py "/repo/src/util.py") ext = true.
Proof.
  assert (In (py "/repo/src/util.py")
             (list_files sample_walk [py ".py"] [py "docs"] [py "README.md"]))
    as I by (vm_compute; tauto).
  split; [exact I|].
  apply (list_files_extensions sample_walk [py ".py"] [py "docs"]
           [py "README.md"]); [discriminate | exact I].
Defined.

Lemma list_files_app (before after : list (str * list str * list str))
  (file_extensions exclude_folders exclude_files : list str) :
  list_files (before ++ after) file_extensions exclude_folders exclude_files
  = list_files before file_extensions exclude_folders exclude_files
    ++ list_files after file_extensions exclude_folders exclude_files.
Proof. unfold list_files. apply flat_map_app. Qed.

(** X21. Folders are excluded by substring of the directory path: a
    directory whose path contains an excluded fragment gives no file,
    and neither does any directory whose path extends it, so that what
    lies under an excluded folder is excluded too. *)
Theorem list_files_excluded_folder (before after : list (str * list str * list str))
  (root below : str) (dirs files : list str)
  (file_extensions exclude_folders exclude_files : list str) (folder : str) :
  In folder exclude_folders ->
  contains root folder = true ->
  list_files (before ++ (root ++ below, dirs, files) :: after)
             file_extensions exclude_folders exclude_files
  = list_files before file_extensions exclude_folders exclude_files
    ++ list_files after file_extensions exclude_folders exclude_files.
Proof.
  intros I C. rewrite list_files_app. f_equal.
  change ((root ++ below, dirs, files) :: after)
    with ([(root ++ below, dirs, files)] ++ after).
  rewrite list_files_app.
  assert (kept exclude_folders (root ++ below) = false) as K.
  { unfold kept. apply negb_false_iff. apply existsb_exists.
    exists folder. split; [exact I | apply contains_app; exact C]. }
  unfold list_files at 1. cbn [flat_map]. rewrite K. reflexivity.
Qed.

Lemma list_files_excluded_folder_witness :
  list_files ([(py "/repo", [py "src"; py "docs"],
                [py "main.py"; py "README.md"])]
              ++ (py "/repo/docs" ++ py "/api", [], [py "guide.py"])
              :: [(py "/repo/src", [], [py "util.py"])])
             [py ".py"] [py "docs"] [py "README.md"]
  = list_files [(py "/repo", [py "src"; py "docs"],
                 [py "main.py"; py "README.md"])]
               [py ".py"] [py "docs"] [py "README.md"]
    ++ list_files [(py "/repo/src", [], [py "util.py"])]
                  [py ".py"] [py "docs"] [py "README.md"].
Proof.
  apply (list_files_excluded_folder _ _ _ _ _ _ _ _ _ (py "docs"));
    [left; reflexivity | reflexivity].
Defined.
